(** * luaBundler: a shallow embedding of [src/index.ts]

    The bundler reads an entry Lua file, finds the literal [require] call
    sites with a regular expression, resolves every reference to a file
    below a base directory, registers one module per reference, rewrites the
    call sites to opaque identifiers and prints one text.

    Texts are [string]s whose characters stand for the code units of a
    JavaScript string (code units below 256).  The file system, Node's
    [path.resolve] and [crypto.randomUUID] and the room that the engine
    gives on its call stack are the environment of the program and are
    collected in the class [Runtime]. *)

From Stdlib Require Import Ascii String.
From stdpp Require Import base option list gmap strings pretty.

Set Default Proof Using "Type".
#[local] Set Warnings "-clear-no-such-hyp".

(** ** Characters and texts *)

Module Chars.
Definition dquote : ascii := "034"%char.
Definition squote : ascii := "'"%char.
Definition lf : ascii := "010"%char.
Definition cr : ascii := "013"%char.
Definition rparen : ascii := ")"%char.
Definition dot : ascii := "."%char.
Definition slash : ascii := "/"%char.
End Chars.
Import Chars.

(** One-character texts used by the templates of the source. *)
Definition DQ : string := String dquote "".
Definition NL : string := String lf "".

(** The character class of the two quote characters, used twice in each of
    the three regular expressions. *)
Definition is_quote (c : ascii) : bool :=
  bool_decide (c = dquote) || bool_decide (c = squote).

(** The atom [.] matches every code unit but a line terminator; below 256
    those are line feed and carriage return. *)
Definition is_line_terminator (c : ascii) : bool :=
  bool_decide (c = lf) || bool_decide (c = cr).

(** Canonicalisation of the [i] flag (no [u] flag): a code unit is compared
    through its upper case, and a code unit of 128 or more never becomes an
    ASCII letter, so only [a]..[z] move. *)
Definition to_upper (c : ascii) : ascii :=
  let n := nat_of_ascii c in
  if bool_decide (97 ≤ n ≤ 122) then ascii_of_nat (n - 32) else c.

Definition char_matches (ignoreCase : bool) (p c : ascii) : bool :=
  if ignoreCase then bool_decide (to_upper p = to_upper c)
  else bool_decide (p = c).

(** ** The regular expression of the source

    It reads: the word require, an opening parenthesis, a quote character
    of either kind, the lazy group [(.*?)], a quote character of either
    kind, a closing parenthesis.  The three expressions of the source are
    this one pattern, with the flags [gi] in [getRequires] (first use), no
    flag in [getRequires] (second use) and [g] in [remapRequires]. *)

(** A literal run of pattern characters; returns the text consumed and the
    text left. *)
Fixpoint literal (ignoreCase : bool) (pat s : string) : option (string * string) :=
  match pat with
  | "" => Some ("", s)
  | String p pat' =>
      match s with
      | String c s' =>
          if char_matches ignoreCase p c
          then '(used, rest) ← literal ignoreCase pat' s'; Some (String c used, rest)
          else None
      | "" => None
      end
  end.
Global Arguments literal : simpl never.

(** The lazy group [(.*?)] followed by a quote and [\)]: the shortest run of
    characters that are not line terminators after which a quote and a
    closing parenthesis stand.  Returns the group, the closing quote and
    the text left. *)
Fixpoint lazy_group (s : string) : option (string * ascii * string) :=
  match s with
  | "" => None
  | String c t =>
      let extend :=
        if is_line_terminator c then None
        else '(g, q, rest) ← lazy_group t; Some (String c g, q, rest) in
      match t with
      | String c' rest =>
          if is_quote c && bool_decide (c' = rparen) then Some ("", c, rest)
          else extend
      | "" => extend
      end
  end.
Global Arguments lazy_group : simpl never.

(** One successful match: the text matched, the text of group 1 and the
    text after the match. *)
Record Match := { m_text : string; m_group : string; m_rest : string }.

(** The pattern tried at the start of [s]. *)
Definition match_at (ignoreCase : bool) (s : string) : option Match :=
  '(kw, s1) ← literal ignoreCase "require(" s;
  match s1 with
  | String q s2 =>
      if is_quote q then
        '(g, q', rest) ← lazy_group s2;
        Some {| m_text := kw +:+ String q g +:+ String q' ")";
                m_group := g;
                m_rest := rest |}
      else None
  | "" => None
  end.

(** [RegExp.prototype.exec] without the sticky flag: the leftmost position
    at which the pattern matches, with the text skipped before it. *)
Fixpoint exec (ignoreCase : bool) (s : string) : option (string * Match) :=
  match match_at ignoreCase s with
  | Some m => Some ("", m)
  | None =>
      match s with
      | "" => None
      | String c t => '(pre, m) ← exec ignoreCase t; Some (String c pre, m)
      end
  end.

(** The loop of a global ([g]) expression, as [String.prototype.match] and
    [String.prototype.replace] run it: [exec] from the end of the last
    match until it fails.  Every match is at least eleven characters long,
    so the length of the text bounds the number of rounds. *)
Fixpoint exec_loop (rounds : nat) (ignoreCase : bool) (s : string)
  : list (string * Match) * string :=
  match rounds with
  | 0 => ([], s)
  | S rounds' =>
      match exec ignoreCase s with
      | Some (pre, m) =>
          let '(found, tail) := exec_loop rounds' ignoreCase (m_rest m) in
          ((pre, m) :: found, tail)
      | None => ([], s)
      end
  end.

(** All matches of the global expression in [s], each with the text between
    it and the match before, and the text after the last match. *)
Definition exec_all (ignoreCase : bool) (s : string) : list (string * Match) * string :=
  exec_loop (String.length s) ignoreCase s.

(** [value.match(/.../gi)]: the texts matched ([null] and the empty list are
    the same to the [?.forEach] that follows). *)
Definition match_texts (s : string) : list string :=
  (m_text ∘ snd) <$> (exec_all true s).1.

(** [v.replace(/.../, "$1")] with the expression without flags: the first
    match in [v] is replaced by its group 1, a text without match is
    returned as it is. *)
Definition replace_first_by_group (v : string) : string :=
  match exec false v with
  | Some (pre, m) => pre +:+ m_group m +:+ m_rest m
  | None => v
  end.

(** [String.prototype.split] with a separator of one character. *)
Fixpoint split_on (sep : ascii) (s : string) : list string :=
  match s with
  | "" => [""]
  | String c t =>
      if bool_decide (c = sep) then "" :: split_on sep t
      else match split_on sep t with
           | seg :: segs => String c seg :: segs
           | [] => [String c ""]
           end
  end.

(** [value.split(".")] *)
Definition split_dot (s : string) : list string := split_on dot s.

(** ** The environment: file system, [path.resolve], [randomUUID] *)

(** What a path names.  [existsSync] is true of both kinds, [readFileSync]
    succeeds on a file only. *)
Inductive Entry :=
  | File (content : string)
  | Directory.

(** - [resolve] is Node's [path.resolve], applied to the list of its
      arguments;
    - [fs] is the file system as the calls see it, from the path text
      handed to [existsSync] and [readFileSync] to the entry it names (it
      does not change while the program runs);
    - [uuid n] is the text that the call number [n] of [randomUUID]
      returns;
    - [frame_slots] is the number of arguments of a call that fit in the
      room that one more nested call of [getRequires] takes on the call
      stack (its frame and the frames of [forEach] and of its callback);
      it is set by the engine and is not zero. *)
Class Runtime := {
  resolve : list string → string;
  fs : gmap string Entry;
  uuid : nat → string;
  frame_slots : positive;
}.

(** The number of arguments that a call can take when the stack has room
    for [depth] more nested calls of [getRequires]: the arguments of a
    call are put on the call stack. *)
Definition spread_room {rt : Runtime} (depth : nat) : nat :=
  depth * Pos.to_nat frame_slots.

(** The calls that reach the environment, in the order they happen. *)
Inductive Event :=
  | EvExists (path : string)
  | EvRead (path : string)
  | EvUUID.

Record World := { trace : list Event; minted : nat }.

Definition initial_world : World := {| trace := []; minted := 0 |}.

(** What is thrown: an [Error] made by the program with its message, or the
    system error of a failed read (no such file, or a directory). *)
Inductive Thrown :=
  | JsError (message : string)
  | FsError (path : string).

(** The outcome of a computation: a value, an exception, or the call stack
    exhausted, by a recursion deeper than the stack or by a call with more
    arguments than the stack has room for. *)
Inductive Res (A : Type) :=
  | Val (a : A)
  | Throw (e : Thrown)
  | Overflow.
Arguments Val {A} a.
Arguments Throw {A} e.
Arguments Overflow {A}.

Definition M (A : Type) : Type := World → Res A * World.

Global Instance M_ret : MRet M := λ A a w, (Val a, w).
Global Instance M_bind : MBind M := λ A B f m w,
  match m w with
  | (Val a, w') => f a w'
  | (Throw e, w') => (Throw e, w')
  | (Overflow, w') => (Overflow, w')
  end.

Definition throw {A} (e : Thrown) : M A := λ w, (Throw e, w).
Definition overflow {A} : M A := λ w, (Overflow, w).
Definition emit (ev : Event) : M () :=
  λ w, (Val (), {| trace := trace w ++ [ev]; minted := minted w |}).

(** The outcome alone, and the world left. *)
Definition result {A} (m : M A) (w : World) : Res A := (m w).1.
Definition world_after {A} (m : M A) (w : World) : World := (m w).2.

(** [array.forEach] over a callback that updates local state [B]. *)
Fixpoint forEachM {A B} (f : B → A → M B) (l : list A) (b : B) : M B :=
  match l with
  | [] => mret b
  | x :: l' => b' ← f b x; forEachM f l' b'
  end.

Section node.
Context {rt : Runtime}.

Definition existsSync (path : string) : M bool :=
  emit (EvExists path);; mret (bool_decide (is_Some (fs !! path))).

(** [readFileSync(path).toString("utf8")] *)
Definition readFileSync (path : string) : M string :=
  emit (EvRead path);;
  match fs !! path with
  | Some (File content) => mret content
  | Some Directory | None => throw (FsError path)
  end.

Definition randomUUID : M string :=
  λ w, (Val (uuid (minted w)),
        {| trace := trace w ++ [EvUUID]; minted := S (minted w) |}).
End node.

(** ** class LuaModule *)

Module LuaModule.
Record t := {
  identifier : string;
  path : string;
  uniqueIdentifier : string;
  content : string;
}.

Definition constructor {rt : Runtime} (identifier path content : string) : M t :=
  uniqueIdentifier ← randomUUID;
  mret {| identifier := identifier; path := path;
          uniqueIdentifier := uniqueIdentifier; content := content |}.
End LuaModule.

(** ** class LuaBundle *)

Module LuaBundle.
Record t := {
  modules : list LuaModule.t;
  mainFile : string;
  baseDir : string;
}.

Definition set_modules (this : t) (ms : list LuaModule.t) : t :=
  {| modules := ms; mainFile := mainFile this; baseDir := baseDir this |}.

(** The message of the two errors of [remapRequires]. *)
Definition not_found (value : string) : Thrown :=
  JsError ("Module " +:+ DQ +:+ value +:+ DQ +:+ " not found").

(** The two templates of [bundle] and [remapRequires]. *)
Definition prelude : string :=
  NL +:+ "local modules = {}" +:+ NL +:+
  "local require = function(name)" +:+ NL +:+
  "  return modules[name]()" +:+ NL +:+
  "end" +:+ NL.

Definition wrap (uniqueIdentifier body : string) : string :=
  "modules[" +:+ DQ +:+ uniqueIdentifier +:+ DQ +:+ "] = function()" +:+ NL +:+
  body +:+ NL +:+ "end".

Definition call_site (uniqueIdentifier : string) : string :=
  "require(" +:+ DQ +:+ uniqueIdentifier +:+ DQ +:+ ")".

Section methods.
Context {rt : Runtime}.

(** [baseDir] is optional, and [baseDir || "./"] also replaces the empty
    text. *)
Definition constructor (mainFile : string) (baseDir : option string) : M t :=
  found ← existsSync mainFile;
  if negb found then throw (JsError "Main file does not exist")
  else mret {| modules := [];
               mainFile := mainFile;
               baseDir := match baseDir with
                          | Some d => if bool_decide (d = "") then "./" else d
                          | None => "./"
                          end |}.

Definition resolveRequire (this : t) (value : string) : M (option string) :=
  let c1 := resolve (baseDir this :: split_dot value) +:+ ".lua" in
  let c2 := resolve (baseDir this :: split_dot value) +:+ ".luau" in
  e1 ← existsSync c1;
  if e1 : bool then mret (Some c1)
  else e2 ← existsSync c2;
       if e2 : bool then mret (Some c2) else mret None.

(** The callback of the [forEach] in [getRequires]: [recur] is the
    recursive call, the local array [requires] is the state of the
    loop.  A candidate path ends in [.lua] or [.luau], so
    [if (resolvedPath)] tests for [null] only.  The list that the
    recursive call returns is spread, [requires.push(...list)]: its
    elements are the arguments of one call of [push], and the call
    exhausts the stack when they are more than the [room] left. *)
Definition visit (recur : string → M (list (string * string))) (room : nat) (this : t)
    (requires : list (string * string)) (v : string)
  : M (list (string * string)) :=
  let luaPath := replace_first_by_group v in
  resolved ← resolveRequire this luaPath;
  match resolved with
  | Some resolvedPath =>
      let requires := requires ++ [(luaPath, resolvedPath)] in
      moduleContent ← readFileSync resolvedPath;
      deps ← recur moduleContent;
      if bool_decide (length deps ≤ room) then mret (requires ++ deps)
      else overflow
  | None => mret requires
  end.

(** [depth] is the room of the call stack, counted in nested calls of
    [getRequires]: the call takes one, the recursive calls have the rest,
    and so has the spread of their lists. *)
Fixpoint getRequires (depth : nat) (this : t) (value : string)
  : M (list (string * string)) :=
  match depth with
  | 0 => overflow
  | S depth' =>
      forEachM (visit (getRequires depth' this) (spread_room depth') this)
               (match_texts value) []
  end.

(** The callback of [replace] in [remapRequires]. *)
Definition remap_call (this : t) (value : string) : M string :=
  resolved ← resolveRequire this value;
  match resolved with
  | None => throw (not_found value)
  | Some resolvedPath =>
      match find (λ mod_, bool_decide (LuaModule.path mod_ = resolvedPath))
                 (modules this) with
      | None => throw (not_found value)
      | Some module => mret (call_site (LuaModule.uniqueIdentifier module))
      end
  end.

(** [value.replace(/.../g, callback)]: the callback runs once per match,
    from left to right, and the text between the matches is kept. *)
Definition replace_match (this : t) (found : string * Match) : M string :=
  r ← remap_call this (m_group found.2); mret (found.1 +:+ r).

Definition remapRequires (this : t) (value : string) : M string :=
  let '(found, tail) := exec_all false value in
  parts ← mapM (replace_match this) found;
  mret (String.concat "" parts +:+ tail).

(** The callback of the [forEach] that fills [this.modules]. *)
Definition register (this : t) (required : string * string) : M t :=
  let '(luaPath, resolvedPath) := required in
  if existsb (λ mod_, bool_decide (LuaModule.identifier mod_ = luaPath)) (modules this)
  then mret this
  else
    content ← readFileSync resolvedPath;
    module ← LuaModule.constructor luaPath resolvedPath content;
    mret (set_modules this (modules this ++ [module])).

(** The callback of the [map] in the template of [bundle]. *)
Definition wrap_module (this : t) (module : LuaModule.t) : M string :=
  body ← remapRequires this (LuaModule.content module);
  mret (wrap (LuaModule.uniqueIdentifier module) body).

(** [bundle()] returns the text; the object, whose field [modules] it
    has filled, is returned with it. *)
Definition bundle (depth : nat) (this : t) : M (t * string) :=
  main ← readFileSync (mainFile this);
  requiredFiles ← getRequires depth this main;
  this ← forEachM register requiredFiles this;
  wrapped ← mapM (wrap_module this) (modules this);
  mainBody ← remapRequires this main;
  mret (this, prelude +:+ String.concat NL wrapped +:+ NL +:+ mainBody +:+ NL).
End methods.
End LuaBundle.

(** ** The script at the end of the source *)

Module Script.
(** What a [catch] clause binds: a value thrown, or the [RangeError] of an
    exhausted call stack. *)
Inductive Caught :=
  | Raised (e : Thrown)
  | StackExhausted.

(** A line written to the console: by [console.log], or by [console.error]
    with its label and the error whose message follows the label. *)
Inductive Line :=
  | Log (text : string)
  | LogError (label : string) (error : Caught).

(** [try { body } catch (error) { handler }] *)
Definition try_catch {A} (body : M A) (handler : Caught → M A) : M A :=
  λ w, match body w with
       | (Val a, w') => (Val a, w')
       | (Throw e, w') => handler (Raised e) w'
       | (Overflow, w') => handler StackExhausted w'
       end.

(** The statements after the two classes: the constructor is called
    outside the [try] block, [bundle] inside it.  The value is the list of
    the lines written to the console. *)
Definition main {rt : Runtime} (depth : nat) : M (list Line) :=
  bundler ← LuaBundle.constructor "tlp/main.lua" (Some "tlp");
  try_catch ('(_, code) ← LuaBundle.bundle depth bundler; mret [Log code])
            (λ error, mret [LogError "Error bundling Lua files:" error]).
End Script.

(** ** A model of [path.resolve] on POSIX

    The theorems below hold for every [resolve]; this model of Node's
    [posix.resolve], for a working directory [cwd], is the one the concrete
    runs use. *)

Module Posix.
(** [normalizeString]: empty segments and [.] vanish, [..] removes the
    segment before it, or stays when nothing is left to remove and the
    path is relative. *)
Fixpoint normalize (allowAboveRoot : bool) (segs stack : list string) : list string :=
  match segs with
  | [] => reverse stack
  | seg :: segs' =>
      if bool_decide (seg = "") || bool_decide (seg = ".") then
        normalize allowAboveRoot segs' stack
      else if bool_decide (seg = "..") then
        match stack with
        | top :: stack' =>
            if bool_decide (top = "..") then normalize allowAboveRoot segs' (seg :: stack)
            else normalize allowAboveRoot segs' stack'
        | [] =>
            if allowAboveRoot then normalize allowAboveRoot segs' [seg]
            else normalize allowAboveRoot segs' []
        end
      else normalize allowAboveRoot segs' (seg :: stack)
  end.

(** The arguments are taken from the right until one is absolute; empty
    arguments are skipped. *)
Fixpoint join_until_absolute (reversed : list string) (resolvedPath : string)
  : string * bool :=
  match reversed with
  | [] => (resolvedPath, false)
  | p :: rest =>
      match p with
      | "" => join_until_absolute rest resolvedPath
      | String c _ =>
          let resolvedPath := p +:+ "/" +:+ resolvedPath in
          if bool_decide (c = slash) then (resolvedPath, true)
          else join_until_absolute rest resolvedPath
      end
  end.

Definition resolve (cwd : string) (args : list string) : string :=
  let '(resolvedPath, absolute) := join_until_absolute (reverse (cwd :: args)) "" in
  let normalized :=
    String.concat "/" (normalize (negb absolute) (split_on slash resolvedPath) []) in
  if absolute then "/" +:+ normalized
  else if bool_decide (normalized = "") then "." else normalized.
End Posix.

(** ** Concrete projects

    The working directory is [/w], the entry file is [tlp/main.lua] and the
    base directory is [tlp], as in the call at the end of the source. *)

Module Demo.
(** Call number [n] of [randomUUID] returns [id-n]. *)
Definition nth_id (n : nat) : string := "id-" +:+ pretty n.

Definition runtime (files : list (string * Entry)) : Runtime :=
  {| resolve := Posix.resolve "/w"; fs := list_to_map files; uuid := nth_id;
     frame_slots := 4%positive |}.

Definition quoted (s : string) : string := DQ +:+ s +:+ DQ.

(** The object that [new LuaBundle("tlp/main.lua", "tlp")] makes. *)
Definition fresh : LuaBundle.t :=
  {| LuaBundle.modules := [];
     LuaBundle.mainFile := "tlp/main.lua";
     LuaBundle.baseDir := "tlp" |}.

(** An entry file requiring [x] then [y]; [x] and [y] require nothing. *)
Definition two_leaves_main : string :=
  "local x = require(" +:+ quoted "x" +:+ ")" +:+ NL +:+
  "local y = require('y')".

Definition two_leaves : Runtime := runtime [
  ("tlp/main.lua", File two_leaves_main);
  ("/w/tlp/x.lua", File "return 1");
  ("/w/tlp/y.luau", File "return 2") ].

Definition two_leaves_modules : list LuaModule.t := [
  {| LuaModule.identifier := "x"; LuaModule.path := "/w/tlp/x.lua";
     LuaModule.uniqueIdentifier := "id-0"; LuaModule.content := "return 1" |};
  {| LuaModule.identifier := "y"; LuaModule.path := "/w/tlp/y.luau";
     LuaModule.uniqueIdentifier := "id-1"; LuaModule.content := "return 2" |} ].

Definition two_leaves_text : string :=
  NL +:+
  "local modules = {}" +:+ NL +:+
  "local require = function(name)" +:+ NL +:+
  "  return modules[name]()" +:+ NL +:+
  "end" +:+ NL +:+
  "modules[" +:+ quoted "id-0" +:+ "] = function()" +:+ NL +:+
  "return 1" +:+ NL +:+
  "end" +:+ NL +:+
  "modules[" +:+ quoted "id-1" +:+ "] = function()" +:+ NL +:+
  "return 2" +:+ NL +:+
  "end" +:+ NL +:+
  "local x = require(" +:+ quoted "id-0" +:+ ")" +:+ NL +:+
  "local y = require(" +:+ quoted "id-1" +:+ ")" +:+ NL.

(** The entry file depends on the others and on nothing else. *)
Definition entry_rank (p : string) : nat :=
  if bool_decide (p = "tlp/main.lua") then 1 else 0.

(** An entry file with a require that resolves to nothing. *)
Definition unresolved_main : string :=
  "local n = require(" +:+ quoted "nope" +:+ ")".

Definition unresolved : Runtime := runtime [
  ("tlp/main.lua", File unresolved_main) ].









(** A file that requires itself. *)
Definition cycle : Runtime := runtime [
  ("tlp/main.lua", File "require('a')");
  ("/w/tlp/a.lua", File "require('a')") ].

(** A require call whose argument is a variable. *)
Definition variable_main : string := "local m = require(name)".

Definition variable : Runtime := runtime [
  ("tlp/main.lua", File variable_main) ].

(** A require call written in capital letters. *)
Definition capital_site : string := "REQUIRE('x')".
Definition capital_main : string := "local m = " +:+ capital_site.

(** A module with a require that resolves to nothing. *)
Definition unresolved_in_module : Runtime := runtime [
  ("tlp/main.lua", File "require('a')");
  ("/w/tlp/a.lua", File unresolved_main) ].

(** References that [path.resolve] takes out of the base directory: an
    absolute path, and a path after an empty segment. *)
Definition outside : Runtime := runtime [
  ("tlp/main.lua", File "require('/etc/secret')");
  ("/etc/secret.lua", File "return 0");
  ("/x.lua", File "return 1") ].

(** A file whose list has [n] pairs, required by the entry file. *)
Definition listing (n : nat) : Runtime := runtime [
  ("tlp/main.lua", File "require('a')");
  ("/w/tlp/a.lua", File (String.concat NL (replicate n "require('b')")));
  ("/w/tlp/b.lua", File "return 0") ].

Definition listing_rank (p : string) : nat :=
  if bool_decide (p = "tlp/main.lua") then 2
  else if bool_decide (p = "/w/tlp/a.lua") then 1 else 0.




(** An entry path that names a directory. *)
Definition entry_directory : Runtime := runtime [
  ("tlp/main.lua", Directory) ].

(** A reference that resolves to a directory named like a Lua file. *)
Definition module_directory : Runtime := runtime [
  ("tlp/main.lua", File "require('d')");
  ("/w/tlp/d.lua", Directory) ].
End Demo.

(** ** Notions used by the statements *)

(** The text that the matches [found] and the text [tail] after the last of
    them were cut from. *)
Definition unmatch (found : list (string * Match)) (tail : string) : string :=
  String.concat "" ((λ x, x.1 +:+ m_text x.2) <$> found) +:+ tail.

(** Outcomes compose like the computations they come from. *)
Global Instance Res_bind : MBind Res := λ A B f r,
  match r with
  | Val a => f a
  | Throw e => Throw e
  | Overflow => Overflow
  end.

(** [w] after the calls [evs], none of them [randomUUID]. *)
Definition extend (w : World) (evs : list Event) : World :=
  {| trace := trace w ++ evs; minted := minted w |}.

(** A computation that neither reads nor changes the world but for the
    calls it adds to the trace. *)
Definition oblivious {A} (m : M A) : Prop :=
  ∃ r evs, ∀ w, m w = (r, extend w evs).

Section notions.
Context {rt : Runtime}.

(** The path a reference resolves to: the value of [resolveRequire],
    which depends on the file system alone. *)
Definition resolves_to (this : LuaBundle.t) (value : string) : option string :=
  match result (LuaBundle.resolveRequire this value) initial_world with
  | Val r => r
  | _ => None
  end.

(** The reference that [getRequires] takes out of a matched text. *)
Definition reference_of (v : string) : string := replace_first_by_group v.

(** The files that the extraction opens for a text, in order. *)
Definition required_paths (this : LuaBundle.t) (text : string) : list string :=
  omap (λ v, resolves_to this (reference_of v)) (match_texts text).

(** [q] is required by the file [p]. *)
Definition requires (this : LuaBundle.t) (p q : string) : Prop :=
  ∃ content, fs !! p = Some (File content) ∧ q ∈ required_paths this content.

(** [p] is one of the files a text reaches through its require calls. *)
Definition reachable (this : LuaBundle.t) (text p : string) : Prop :=
  ∃ p0, p0 ∈ required_paths this text ∧ rtc (requires this) p0 p.

(** No file that the text reaches requires itself, directly or through
    other files. *)
Definition acyclic_from (this : LuaBundle.t) (text : string) : Prop :=
  ∀ p, reachable this text p → ¬ tc (requires this) p p.
End notions.

(** A chain of nested calls of [getRequires] started on [text]: the first
    file is required by the text, every next one by the file before it. *)
Inductive chain {rt : Runtime} (this : LuaBundle.t) : string → list string → Prop :=
  | chain_nil text : chain this text []
  | chain_cons text p content l :
      p ∈ required_paths this text →
      fs !! p = Some (File content) →
      chain this content l →
      chain this text (p :: l).

(** A computation that does not exhaust the stack, whatever the world. *)
Definition returns {A} (m : M A) : Prop := ∀ w, result m w ≠ Overflow.

(** The registry in the words of the specification: the pairs are taken in
    order and a pair is kept unless a pair before it has the same
    reference (the resolved path plays no part). *)
Fixpoint first_by_reference (pairs : list (string * string)) : list (string * string) :=
  match pairs with
  | [] => []
  | r :: rest => r :: filter (λ r', r'.1 ≠ r.1) (first_by_reference rest)
  end.

(** The reference and the path of a module. *)
Definition module_key (m : LuaModule.t) : string * string :=
  (LuaModule.identifier m, LuaModule.path m).

(** The identifiers of the modules [ms] came from distinct calls of
    [randomUUID] made before the world [w]. *)
Definition issued {rt : Runtime} (w : World) (ms : list LuaModule.t) : Prop :=
  ∃ calls, LuaModule.uniqueIdentifier <$> ms = uuid <$> calls ∧
           NoDup calls ∧ ∀ n, n ∈ calls → n < minted w.

(** A require call whose argument begins with a quote character starts at
    the head of [s]. *)
Definition quoted_call_at (ignoreCase : bool) (s : string) : bool :=
  match literal ignoreCase "require(" s with
  | Some (_, String q _) => is_quote q
  | _ => false
  end.

(** No require call of [s] has an argument that begins with a quote
    character. *)
Fixpoint quoted_call_free (ignoreCase : bool) (s : string) : bool :=
  negb (quoted_call_at ignoreCase s) &&
  match s with
  | "" => true
  | String _ t => quoted_call_free ignoreCase t
  end.



(** A segment that names one directory entry: not empty, not [.] or [..],
    without a slash. *)
Definition plain (seg : string) : Prop :=
  seg ≠ "" ∧ seg ≠ "." ∧ seg ≠ ".." ∧ slash ∉ list_ascii_of_string seg.

(** An absolute POSIX path. *)
Definition absolute (p : string) : Prop := ∃ rest, p = String slash rest.

(** The depth-first, pre-order list of a sequence of matched texts: a match
    whose reference does not resolve adds nothing; one that resolves to a
    file adds its pair, then the list of the matches of that file, and the
    list of the matches left comes after. *)
Inductive extracted {rt : Runtime} (this : LuaBundle.t)
  : list string → list (string * string) → Prop :=
  | extracted_nil : extracted this [] []
  | extracted_skip v vs rest :
      resolves_to this (reference_of v) = None →
      extracted this vs rest →
      extracted this (v :: vs) rest
  | extracted_visit v vs p content deps rest :
      resolves_to this (reference_of v) = Some p →
      fs !! p = Some (File content) →
      extracted this (match_texts content) deps →
      extracted this vs rest →
      extracted this (v :: vs) ((reference_of v, p) :: deps ++ rest).

(** Every require call of [s] whose argument begins with a quote character
    is written in lower case: where the expression with the flag [i] finds
    the word and a quote, the expression without it finds them too. *)
Fixpoint lower_case_calls (s : string) : bool :=
  implb (quoted_call_at true s) (quoted_call_at false s) &&
  match s with
  | "" => true
  | String _ t => lower_case_calls t
  end.

(** A text of a project in good order: its quoted require calls are
    written in lower case and each of them resolves to a regular file. *)
Definition well_formed {rt : Runtime} (this : LuaBundle.t) (text : string) : bool :=
  lower_case_calls text &&
  forallb (λ v, match resolves_to this (reference_of v) with
                | Some p => match fs !! p with
                            | Some (File _) => true
                            | _ => false
                            end
                | None => false
                end) (match_texts text).

(** ** Notions of the calls made to the environment *)

(** The paths handed to [readFileSync], in order. *)
Definition reads (evs : list Event) : list string :=
  omap (λ ev, match ev with EvRead p => Some p | _ => None end) evs.

(** A computation that reads no file and does not call [randomUUID]: all
    it adds to the trace are calls of [existsSync]. *)
Definition probes_only {A} (m : M A) : Prop :=
  ∀ w, ∃ evs, (m w).2 = extend w evs ∧ reads evs = [].

(** No require call that starts in [a], in the text [a +:+ b], has an
    argument that begins with a quote character. *)
Fixpoint quoted_call_free_in (ignoreCase : bool) (a b : string) : bool :=
  match a with
  | "" => true
  | String _ a' =>
      negb (quoted_call_at ignoreCase (a +:+ b)) && quoted_call_free_in ignoreCase a' b
  end.


(** * Properties *)

(** ** Texts *)

Lemma str_app_cons c (s t : string) : String c s +:+ t = String c (s +:+ t).
Proof. reflexivity. Qed.

Lemma str_app_nil_l (s : string) : "" +:+ s = s.
Proof. reflexivity. Qed.

Lemma str_app_nil_r (s : string) : s +:+ "" = s.
Proof. induction s as [|c s IH]; [done|]. by rewrite str_app_cons, IH. Qed.

Lemma str_app_assoc (s t u : string) : (s +:+ t) +:+ u = s +:+ t +:+ u.
Proof. induction s as [|c s IH]; [done|]. by rewrite !str_app_cons, IH. Qed.

Lemma str_length_app (s t : string) :
  String.length (s +:+ t) = String.length s + String.length t.
Proof. induction s as [|c s IH]; [done|]. rewrite str_app_cons. simpl. by rewrite IH. Qed.

(** ** The regular expression *)

Lemma literal_nil ic s : literal ic "" s = Some ("", s).
Proof. reflexivity. Qed.

Lemma literal_cons ic p pat s :
  literal ic (String p pat) s =
  match s with
  | String c s' =>
      if char_matches ic p c
      then '(used, rest) ← literal ic pat s'; Some (String c used, rest)
      else None
  | "" => None
  end.
Proof. reflexivity. Qed.

Lemma literal_sound ic pat s used rest :
  literal ic pat s = Some (used, rest) →
  s = used +:+ rest ∧ literal ic pat used = Some (used, "").
Proof.
  revert s used rest. induction pat as [|p pat IH]; intros s used rest.
  - rewrite literal_nil. by intros [= <- <-].
  - rewrite !literal_cons. destruct s as [|c s]; [done|].
    destruct (char_matches ic p c) eqn:Hc; [|done].
    destruct (literal ic pat s) as [[u r]|] eqn:Hrec; intros; simplify_eq/=.
    destruct (IH _ _ _ Hrec) as [-> Hu].
    by rewrite str_app_cons, Hc, Hu.
Qed.

Lemma lazy_group_now c rest :
  is_quote c = true → lazy_group (String c (String rparen rest)) = Some ("", c, rest).
Proof.
  intros Hc.
  change (lazy_group (String c (String rparen rest)))
    with (if is_quote c && bool_decide (rparen = rparen) then Some ("", c, rest)
          else if is_line_terminator c then None
               else '(g, q, rest) ← lazy_group (String rparen rest);
                    Some (String c g, q, rest)).
  by rewrite Hc, bool_decide_eq_true_2.
Qed.

Lemma lazy_group_later c t :
  (is_quote c = true → ∀ rest, t ≠ String rparen rest) →
  lazy_group (String c t) =
  if is_line_terminator c then None
  else '(g, q, rest) ← lazy_group t; Some (String c g, q, rest).
Proof.
  intros Hnot. destruct t as [|c' t']; [done|].
  change (lazy_group (String c (String c' t')))
    with (if is_quote c && bool_decide (c' = rparen) then Some ("", c, t')
          else if is_line_terminator c then None
               else '(g, q, rest) ← lazy_group (String c' t'); Some (String c g, q, rest)).
  destruct (is_quote c); [|done]. simpl.
  case_bool_decide as Hc'; [|done]. subst c'. by destruct (Hnot eq_refl t').
Qed.

Lemma lazy_group_cases c t :
  (∃ rest, is_quote c = true ∧ t = String rparen rest) ∨
  (is_quote c = true → ∀ rest, t ≠ String rparen rest).
Proof.
  destruct (is_quote c); [|by right].
  destruct t as [|c' t']; [by right|].
  destruct (decide (c' = rparen)) as [->|Hne]; [left; eauto|].
  right. intros _ rest [= ? ?]. done.
Qed.

Lemma lazy_group_sound s g q rest :
  lazy_group s = Some (g, q, rest) →
  s = g +:+ String q (String rparen rest) ∧ is_quote q = true.
Proof.
  revert g q rest. induction s as [|c t IH]; intros g q rest; [done|].
  destruct (lazy_group_cases c t) as [(rest0 & Hc & ->)|Hlater].
  - rewrite lazy_group_now by done. by intros [= <- <- <-].
  - rewrite lazy_group_later by done.
    destruct (is_line_terminator c); [done|].
    destruct (lazy_group t) as [[[g' q'] rest']|] eqn:Hrec; intros; simplify_eq/=.
    destruct (IH _ _ _ eq_refl) as [-> ?]. by rewrite str_app_cons.
Qed.

Lemma match_at_sound ic s m :
  match_at ic s = Some m →
  s = m_text m +:+ m_rest m ∧
  ∃ kw q q', literal ic "require(" kw = Some (kw, "") ∧
    is_quote q = true ∧ is_quote q' = true ∧
    m_text m = kw +:+ String q (m_group m) +:+ String q' ")".
Proof.
  unfold match_at. intros Hm.
  destruct (literal ic "require(" s) as [[kw s1]|] eqn:Hlit; [|done]. simpl in Hm.
  destruct s1 as [|q s2]; [done|].
  destruct (is_quote q) eqn:Hq; [|done].
  destruct (lazy_group s2) as [[[g q'] rest]|] eqn:Hg; simplify_eq/=.
  apply lazy_group_sound in Hg as [-> Hq'].
  pose proof (literal_sound _ _ _ _ _ Hlit) as [-> Hkw].
  split; [by rewrite !str_app_assoc|]. by exists kw, q, q'.
Qed.

Lemma match_at_nil ic : match_at ic "" = None.
Proof. reflexivity. Qed.

Lemma exec_unfold ic s :
  exec ic s =
  match match_at ic s with
  | Some m => Some ("", m)
  | None =>
      match s with
      | "" => None
      | String c t => '(pre, m) ← exec ic t; Some (String c pre, m)
      end
  end.
Proof. by destruct s. Qed.

Lemma exec_sound ic s pre m :
  exec ic s = Some (pre, m) →
  s = pre +:+ m_text m +:+ m_rest m ∧
  match_at ic (m_text m +:+ m_rest m) = Some m.
Proof.
  revert pre. induction s as [|c t IH]; intros pre; rewrite exec_unfold.
  - by rewrite match_at_nil.
  - destruct (match_at ic (String c t)) as [m'|] eqn:Hm.
    + intros [= <- <-]. apply match_at_sound in Hm as Hs.
      destruct Hs as [Hs _]. by rewrite <-Hs.
    + destruct (exec ic t) as [[pre' m']|] eqn:Hrec; intros; simplify_eq/=.
      destruct (IH _ eq_refl) as [Ht ?]. by rewrite str_app_cons, <-Ht.
Qed.

Lemma match_at_text_length ic s m :
  match_at ic s = Some m → 0 < String.length (m_text m).
Proof.
  intros (_ & kw & q & q' & _ & _ & _ & ->)%match_at_sound.
  rewrite !str_length_app. simpl. lia.
Qed.

Lemma exec_rest_shorter ic s pre m :
  exec ic s = Some (pre, m) → String.length (m_rest m) < String.length s.
Proof.
  intros [Hs Hm]%exec_sound. apply match_at_text_length in Hm.
  rewrite Hs, !str_length_app. lia.
Qed.

Lemma exec_loop_enough ic n s :
  String.length s ≤ n →
  exec_loop n ic s =
  match exec ic s with
  | Some (pre, m) =>
      let '(found, tail) := exec_all ic (m_rest m) in ((pre, m) :: found, tail)
  | None => ([], s)
  end.
Proof.
  revert s. induction (lt_wf n) as [n _ IH]. intros s Hn.
  destruct n as [|n]; simpl.
  - destruct s; [|simpl in Hn; lia]. by rewrite exec_unfold, match_at_nil.
  - destruct (exec ic s) as [[pre m]|] eqn:He; [|done].
    apply exec_rest_shorter in He. unfold exec_all.
    rewrite (IH n) by lia.
    by rewrite (IH (String.length (m_rest m))) by lia.
Qed.

Lemma exec_all_unfold ic s :
  exec_all ic s =
  match exec ic s with
  | Some (pre, m) =>
      let '(found, tail) := exec_all ic (m_rest m) in ((pre, m) :: found, tail)
  | None => ([], s)
  end.
Proof. unfold exec_all at 1. by apply exec_loop_enough. Qed.

(** Induction along the rounds of the global loop. *)
Lemma exec_all_ind ic (P : string → list (string * Match) → string → Prop) :
  (∀ s, exec ic s = None → P s [] s) →
  (∀ s pre m found tail,
     exec ic s = Some (pre, m) → exec_all ic (m_rest m) = (found, tail) →
     P (m_rest m) found tail → P s ((pre, m) :: found) tail) →
  ∀ s found tail, exec_all ic s = (found, tail) → P s found tail.
Proof.
  intros Hnone Hsome s.
  induction (well_founded_ltof _ String.length s) as [s _ IH].
  intros found tail. rewrite exec_all_unfold.
  destruct (exec ic s) as [[pre m]|] eqn:He.
  - destruct (exec_all ic (m_rest m)) as [found' tail'] eqn:Hrec.
    intros [= <- <-]. eapply Hsome; [done..|].
    apply IH; [|done]. by eapply exec_rest_shorter.
  - intros [= <- <-]. by apply Hnone.
Qed.

Lemma concat_empty_cons (x : string) (l : list string) :
  String.concat "" (x :: l) = x +:+ String.concat "" l.
Proof. destruct l as [|y l]; simpl; [symmetry; apply str_app_nil_r|done]. Qed.

Lemma unmatch_cons pre m found tail :
  unmatch ((pre, m) :: found) tail = pre +:+ m_text m +:+ unmatch found tail.
Proof. unfold unmatch. by rewrite fmap_cons, concat_empty_cons, !str_app_assoc. Qed.

Lemma exec_all_sound ic s found tail :
  exec_all ic s = (found, tail) → s = unmatch found tail.
Proof.
  revert s found tail. apply exec_all_ind.
  - done.
  - intros s pre m found tail [Hs _]%exec_sound _ IH.
    by rewrite unmatch_cons, <-IH.
Qed.

(** ** The monad *)

Lemma bind_unfold {A B} (m : M A) (f : A → M B) w :
  (m ≫= f) w =
  match m w with
  | (Val a, w') => f a w'
  | (Throw e, w') => (Throw e, w')
  | (Overflow, w') => (Overflow, w')
  end.
Proof. reflexivity. Qed.

Lemma bind_val {A B} (m : M A) (f : A → M B) w a w' :
  m w = (Val a, w') → (m ≫= f) w = f a w'.
Proof. intros Hm. by rewrite bind_unfold, Hm. Qed.

Lemma bind_throw {A B} (m : M A) (f : A → M B) w e w' :
  m w = (Throw e, w') → (m ≫= f) w = (Throw e, w').
Proof. intros Hm. by rewrite bind_unfold, Hm. Qed.

Lemma bind_overflow {A B} (m : M A) (f : A → M B) w w' :
  m w = (Overflow, w') → (m ≫= f) w = (Overflow, w').
Proof. intros Hm. by rewrite bind_unfold, Hm. Qed.

Lemma bind_val_inv {A B} (m : M A) (f : A → M B) w b w2 :
  (m ≫= f) w = (Val b, w2) →
  ∃ a w1, m w = (Val a, w1) ∧ f a w1 = (Val b, w2).
Proof. rewrite bind_unfold. destruct (m w) as [[a|e|] w1]; naive_solver. Qed.

Lemma forEachM_cons {A B} (f : B → A → M B) x l b :
  forEachM f (x :: l) b = f b x ≫= forEachM f l.
Proof. reflexivity. Qed.

Lemma Res_bind_val {A B} (a : A) (f : A → Res B) : Val a ≫= f = f a.
Proof. reflexivity. Qed.

Lemma Val_inj {A} (a b : A) : Val a = Val b → a = b.
Proof. by intros [= ->]. Qed.

Lemma extend_nil w : extend w [] = w.
Proof. destruct w. unfold extend. simpl. by rewrite app_nil_r. Qed.

Lemma extend_extend w evs1 evs2 :
  extend (extend w evs1) evs2 = extend w (evs1 ++ evs2).
Proof. unfold extend. simpl. by rewrite (assoc_L (++)). Qed.

Lemma oblivious_ret {A} (a : A) : oblivious (mret a).
Proof. exists (Val a), []. intros w. by rewrite extend_nil. Qed.

Lemma oblivious_throw {A} e : oblivious (throw (A:=A) e).
Proof. exists (Throw e), []. intros w. by rewrite extend_nil. Qed.

Lemma oblivious_overflow {A} : oblivious (overflow (A:=A)).
Proof. exists Overflow, []. intros w. by rewrite extend_nil. Qed.

Lemma oblivious_bind {A B} (m : M A) (f : A → M B) :
  oblivious m → (∀ a, oblivious (f a)) → oblivious (m ≫= f).
Proof.
  intros (r & evs & Hm) Hf. destruct r as [a|e|].
  - destruct (Hf a) as (r' & evs' & Hfa). exists r', (evs ++ evs').
    intros w. by rewrite (bind_val _ _ _ _ _ (Hm w)), Hfa, extend_extend.
  - exists (Throw e), evs. intros w. by rewrite (bind_throw _ _ _ _ _ (Hm w)).
  - exists Overflow, evs. intros w. by rewrite (bind_overflow _ _ _ _ (Hm w)).
Qed.

Lemma oblivious_forEachM {A B} (f : B → A → M B) l b :
  (∀ b a, a ∈ l → oblivious (f b a)) → oblivious (forEachM f l b).
Proof.
  revert b. induction l as [|x l IH]; intros b Hf; simpl.
  - apply oblivious_ret.
  - apply oblivious_bind; [apply Hf; by left|].
    intros b'. apply IH. intros ???. apply Hf. by right.
Qed.

Lemma oblivious_mapM {A B} (f : A → M B) l :
  (∀ a, a ∈ l → oblivious (f a)) → oblivious (mapM f l).
Proof.
  induction l as [|x l IH]; intros Hf; simpl.
  - apply oblivious_ret.
  - apply oblivious_bind; [apply Hf; by left|]. intros y.
    apply oblivious_bind; [apply IH; intros ??; apply Hf; by right|].
    intros k. apply oblivious_ret.
Qed.

Lemma oblivious_result {A} (m : M A) w w' :
  oblivious m → result m w = result m w'.
Proof. intros (r & evs & Hm). unfold result. by rewrite !Hm. Qed.

Lemma oblivious_minted {A} (m : M A) w :
  oblivious m → minted (world_after m w) = minted w.
Proof. intros (r & evs & Hm). unfold world_after. by rewrite Hm. Qed.

(** ** [split] *)

Lemma split_on_nonempty sep s : split_on sep s ≠ [].
Proof.
  destruct s as [|c t]; simpl; [done|].
  case_bool_decide; [done|]. by destruct (split_on sep t).
Qed.

Lemma concat_cons_cons sep (x y : string) l :
  String.concat sep (x :: y :: l) = x +:+ sep +:+ String.concat sep (y :: l).
Proof. reflexivity. Qed.

Lemma split_on_concat sep s :
  String.concat (String sep "") (split_on sep s) = s.
Proof.
  induction s as [|c t IH]; simpl; [done|].
  pose proof (split_on_nonempty sep t) as Hne.
  destruct (split_on sep t) as [|seg segs] eqn:Hs; [done|].
  case_bool_decide as Hc.
  - rewrite concat_cons_cons, IH. by subst c.
  - destruct segs as [|seg' segs].
    + simpl in *. by rewrite IH.
    + rewrite concat_cons_cons in *. by rewrite str_app_cons, IH.
Qed.

Lemma split_on_segments sep s :
  Forall (λ seg, sep ∉ list_ascii_of_string seg) (split_on sep s).
Proof.
  induction s as [|c t IH]; simpl.
  - repeat constructor. by intros ?%elem_of_nil.
  - case_bool_decide as Hc.
    + constructor; [by intros ?%elem_of_nil|done].
    + pose proof (split_on_nonempty sep t) as Hne.
      destruct (split_on sep t) as [|seg segs]; [done|].
      apply Forall_cons in IH as [Hseg Hsegs]. constructor; [|done].
      simpl. intros [->|?]%elem_of_cons; done.
Qed.

(** ** [path.resolve] on POSIX: plain segments are joined under the base *)

Lemma split_on_free sep s :
  sep ∉ list_ascii_of_string s → split_on sep s = [s].
Proof.
  induction s as [|c t IH]; [done|]. simpl.
  intros Hfree%not_elem_of_cons. destruct Hfree as [Hc Ht].
  rewrite bool_decide_eq_false_2 by done. by rewrite IH.
Qed.

Lemma split_on_app_sep sep a b :
  split_on sep (a +:+ String sep b) = split_on sep a ++ split_on sep b.
Proof.
  induction a as [|c a IH].
  - rewrite str_app_nil_l. simpl. by rewrite bool_decide_eq_true_2.
  - rewrite str_app_cons. simpl. rewrite IH.
    case_bool_decide; [done|].
    pose proof (split_on_nonempty sep a) as Hne.
    by destruct (split_on sep a).
Qed.

(** The segments, each followed by a slash, in front of [acc]. *)
Lemma join_until_absolute_acc l acc :
  Posix.join_until_absolute l acc
  = ((Posix.join_until_absolute l "").1 +:+ acc, (Posix.join_until_absolute l "").2).
Proof.
  revert acc. induction l as [|p l IH]; intros acc; [done|].
  destruct p as [|c p]; simpl; [apply IH|].
  case_bool_decide.
  - simpl. by rewrite !str_app_cons, str_app_assoc.
  - rewrite IH, (IH (String c p +:+ "/" +:+ "")). simpl.
    by rewrite !str_app_assoc.
Qed.

Lemma join_until_absolute_plain segs rest acc :
  Forall plain segs →
  Posix.join_until_absolute (reverse segs ++ rest) acc
  = Posix.join_until_absolute rest (foldr (λ s r, s +:+ "/" +:+ r) acc segs).
Proof.
  intros Hsegs. revert rest. induction Hsegs as [|s segs Hs _ IH]; intros rest; [done|].
  rewrite reverse_cons, <-(assoc_L (++)), IH. simpl.
  destruct Hs as (Hne & _ & _ & Hslash). destruct s as [|c s]; [done|].
  simpl. rewrite bool_decide_eq_false_2; [done|].
  intros ->. apply Hslash. simpl. by left.
Qed.

Lemma split_joined_plain segs :
  Forall plain segs →
  split_on slash (foldr (λ s r, s +:+ "/" +:+ r) "" segs) = segs ++ [""].
Proof.
  induction 1 as [|s segs Hs _ IH]; [done|]. simpl.
  change ("/" +:+ foldr (λ s r, s +:+ "/" +:+ r) "" segs)
    with (String slash (foldr (λ s r, s +:+ "/" +:+ r) "" segs)).
  rewrite split_on_app_sep, IH, split_on_free; [done|]. by destruct Hs as (_ & _ & _ & ?).
Qed.

Lemma normalize_app f l1 l2 stack :
  ∃ stack', Posix.normalize f l1 stack = reverse stack' ∧
            Posix.normalize f (l1 ++ l2) stack = Posix.normalize f l2 stack'.
Proof.
  revert stack. induction l1 as [|seg l1 IH]; intros stack; [by exists stack|].
  simpl. repeat case_match; apply IH.
Qed.

Lemma normalize_plain f segs stack :
  Forall plain segs →
  Posix.normalize f (segs ++ [""]) stack = reverse stack ++ segs.
Proof.
  intros Hsegs. revert stack. induction Hsegs as [|s segs Hs _ IH]; intros stack.
  - simpl. by rewrite app_nil_r.
  - destruct Hs as (H1 & H2 & H3 & _). simpl.
    rewrite !bool_decide_eq_false_2 by done. simpl.
    rewrite IH, reverse_cons. by rewrite <-(assoc_L (++)).
Qed.

Lemma join_until_absolute_slash l :
  (Posix.join_until_absolute l "").1 = "" ∨
  ∃ p, (Posix.join_until_absolute l "").1 = p +:+ "/".
Proof.
  induction l as [|q l IH]; [by left|].
  destruct q as [|c q]; simpl; [done|].
  case_bool_decide; simpl.
  - right. exists (String c q). by rewrite str_app_nil_r.
  - right. rewrite join_until_absolute_acc. simpl.
    destruct IH as [->|(p & ->)].
    + exists (String c q). by rewrite str_app_nil_l, str_app_nil_r.
    + exists (p +:+ "/" +:+ String c q). by rewrite !str_app_assoc, str_app_nil_r.
Qed.

Lemma join_until_absolute_cwd baseDir cwd :
  absolute cwd →
  (Posix.join_until_absolute [baseDir; cwd] "").2 = true ∧
  (Posix.join_until_absolute [baseDir; cwd] "").1 ≠ "".
Proof.
  intros [rest ->]. destruct baseDir as [|c b]; simpl; [done|].
  by case_bool_decide.
Qed.

Lemma concat_app_nonempty sep (l1 l2 : list string) :
  l1 ≠ [] → l2 ≠ [] →
  String.concat sep (l1 ++ l2) = String.concat sep l1 +:+ sep +:+ String.concat sep l2.
Proof.
  intros Hl1 Hl2. induction l1 as [|x l1 IH]; [done|].
  destruct l1 as [|y l1].
  - destruct l2 as [|z l2]; [done|]. done.
  - change (String.concat sep (x :: (y :: l1) ++ l2)
            = String.concat sep (x :: y :: l1) +:+ sep +:+ String.concat sep l2).
    change ((y :: l1) ++ l2) with (y :: (l1 ++ l2)) in *.
    rewrite !concat_cons_cons, IH by done.
    by rewrite !str_app_assoc.
Qed.

(** With an absolute working directory, [resolve] gives a slash and the
    normalised segments of the base followed by the plain segments. *)
Lemma posix_resolve_shape cwd baseDir :
  absolute cwd →
  ∃ base, ∀ segs, Forall plain segs →
    Posix.resolve cwd (baseDir :: segs) = "/" +:+ String.concat "/" (base ++ segs).
Proof.
  intros Hcwd.
  destruct (join_until_absolute_cwd baseDir cwd Hcwd) as [Habs Hnonempty].
  pose proof (join_until_absolute_slash [baseDir; cwd]) as Hslash.
  destruct (Posix.join_until_absolute [baseDir; cwd] "") as [P abs] eqn:Hjoin.
  simpl in Habs, Hnonempty, Hslash. subst abs.
  destruct Hslash as [->|(P' & ->)]; [done|].
  destruct (normalize_app false (split_on slash P') [] []) as (stack & Hstack & _).
  exists (reverse stack). intros segs Hsegs. unfold Posix.resolve.
  assert (reverse (cwd :: baseDir :: segs) = reverse segs ++ [baseDir; cwd]) as ->.
  { by rewrite !reverse_cons, <-!(assoc_L (++)). }
  rewrite join_until_absolute_plain, join_until_absolute_acc, Hjoin by done.
  cbn [fst snd negb]. f_equal. f_equal.
  change (P' +:+ "/") with (P' +:+ String slash "").
  rewrite str_app_assoc.
  change (String slash "" +:+ ?x) with (String slash x).
  rewrite split_on_app_sep, split_joined_plain by done.
  destruct (normalize_app false (split_on slash P') (segs ++ [""]) [])
    as (stack' & Hstack' & ->).
  rewrite Hstack in Hstack'. apply (inj reverse) in Hstack' as <-.
  by apply normalize_plain.
Qed.

(** So plain segments are appended, one slash before each, to what
    [resolve] makes of the base alone (unless that is the root). *)
Lemma posix_resolve_under cwd baseDir segs :
  absolute cwd → Forall plain segs → segs ≠ [] →
  Posix.resolve cwd [baseDir] ≠ "/" →
  Posix.resolve cwd (baseDir :: segs)
  = Posix.resolve cwd [baseDir] +:+ "/" +:+ String.concat "/" segs.
Proof.
  intros Hcwd Hsegs Hne Hroot.
  destruct (posix_resolve_shape cwd baseDir Hcwd) as (base & Hshape).
  rewrite (Hshape segs Hsegs).
  rewrite (Hshape [] (Forall_nil_2 _)), app_nil_r in Hroot |- *.
  rewrite concat_app_nonempty; [by rewrite !str_app_assoc| |done].
  intros ->. by apply Hroot.
Qed.

Section properties.
Context {rt : Runtime}.
Implicit Types (this : LuaBundle.t) (w : World) (value text : string).

(** ** The calls of Node *)

Lemma existsSync_run path w :
  existsSync path w =
  (Val (bool_decide (is_Some (fs !! path))), extend w [EvExists path]).
Proof. reflexivity. Qed.

Lemma readFileSync_run path w :
  readFileSync path w =
  (match fs !! path with
   | Some (File content) => Val content
   | _ => Throw (FsError path)
   end, extend w [EvRead path]).
Proof.
  unfold readFileSync. rewrite bind_unfold. simpl.
  by destruct (fs !! path) as [[]|].
Qed.

Lemma oblivious_existsSync path : oblivious (existsSync path).
Proof. eexists _, _. apply existsSync_run. Qed.

Lemma oblivious_readFileSync path : oblivious (readFileSync path).
Proof. eexists _, _. apply readFileSync_run. Qed.

(** ** [resolveRequire] *)

Lemma resolveRequire_cases this value w :
  let c1 := resolve (LuaBundle.baseDir this :: split_dot value) +:+ ".lua" in
  let c2 := resolve (LuaBundle.baseDir this :: split_dot value) +:+ ".luau" in
  LuaBundle.resolveRequire this value w =
  if bool_decide (is_Some (fs !! c1))
  then (Val (Some c1), extend w [EvExists c1])
  else if bool_decide (is_Some (fs !! c2))
       then (Val (Some c2), extend w [EvExists c1; EvExists c2])
       else (Val None, extend w [EvExists c1; EvExists c2]).
Proof.
  intros c1 c2. unfold LuaBundle.resolveRequire. fold c1 c2.
  rewrite (bind_val _ _ _ _ _ (existsSync_run c1 w)).
  case_bool_decide; [done|].
  rewrite (bind_val _ _ _ _ _ (existsSync_run c2 _)), extend_extend.
  by case_bool_decide.
Qed.

Lemma oblivious_resolveRequire this value :
  oblivious (LuaBundle.resolveRequire this value).
Proof.
  unfold LuaBundle.resolveRequire.
  apply oblivious_bind; [apply oblivious_existsSync|].
  intros []; [apply oblivious_ret|].
  apply oblivious_bind; [apply oblivious_existsSync|].
  intros []; apply oblivious_ret.
Qed.

Lemma resolveRequire_result this value w :
  result (LuaBundle.resolveRequire this value) w = Val (resolves_to this value).
Proof.
  unfold resolves_to.
  rewrite (oblivious_result _ w initial_world) by apply oblivious_resolveRequire.
  unfold result. rewrite resolveRequire_cases. by repeat case_bool_decide.
Qed.

Lemma resolves_to_on_disk this value p :
  resolves_to this value = Some p → is_Some (fs !! p).
Proof.
  unfold resolves_to, result. rewrite resolveRequire_cases.
  repeat case_bool_decide; naive_solver.
Qed.

(** C3 (amended).  A reference is split at its dots (the segments contain
    no dot and give the reference back when joined with dots), the base
    directory and the segments are handed to [path.resolve], and the path
    with [.lua] is probed before the path with [.luau]: the first is
    returned when it exists, without probing the second; else the second
    when it exists; and [null] is returned exactly when neither exists.
    The path is the segments joined under the base directory (on POSIX:
    the resolved base directory, not the root, with a slash and the
    segments joined by slashes after it) when no segment is empty or has a
    slash; other references can leave the base directory. *)
Theorem resolveRequire_probes_lua_then_luau this value w :
  let segments := split_dot value in
  let c1 := resolve (LuaBundle.baseDir this :: segments) +:+ ".lua" in
  let c2 := resolve (LuaBundle.baseDir this :: segments) +:+ ".luau" in
  (String.concat "." segments = value ∧
   Forall (λ seg, dot ∉ list_ascii_of_string seg) segments) ∧
  (∀ cwd, resolve = Posix.resolve cwd → absolute cwd →
     Forall (λ seg, seg ≠ "" ∧ slash ∉ list_ascii_of_string seg) segments →
     Posix.resolve cwd [LuaBundle.baseDir this] ≠ "/" →
     let under := Posix.resolve cwd [LuaBundle.baseDir this] +:+ "/" +:+
                  String.concat "/" segments in
     c1 = under +:+ ".lua" ∧ c2 = under +:+ ".luau") ∧
  (is_Some (fs !! c1) →
   LuaBundle.resolveRequire this value w
   = (Val (Some c1), extend w [EvExists c1])) ∧
  (fs !! c1 = None → is_Some (fs !! c2) →
   LuaBundle.resolveRequire this value w
   = (Val (Some c2), extend w [EvExists c1; EvExists c2])) ∧
  (result (LuaBundle.resolveRequire this value) w = Val None
   ↔ fs !! c1 = None ∧ fs !! c2 = None).
Proof.
  intros segments c1 c2. split; [split|split].
  - apply split_on_concat.
  - apply split_on_segments.
  - intros cwd Hresolve Hcwd Hsegs Hroot under. subst c1 c2 under.
    rewrite Hresolve, posix_resolve_under; [done..| |by apply split_on_nonempty|done].
    pose proof (split_on_segments dot value) as Hdots. fold (split_dot value) in Hdots.
    fold segments in Hdots. clearbody segments.
    induction Hsegs as [|seg segs [Hne Hslash] _ IH]; [constructor|].
    apply Forall_cons in Hdots as [Hdot Hdots]. constructor; [|by apply IH].
    split_and!; [done| | |done].
    + intros ->. apply Hdot. simpl. by left.
    + intros ->. apply Hdot. simpl. by left.
  - unfold result. rewrite resolveRequire_cases. fold segments c1 c2.
    destruct (fs !! c1) as [e1|], (fs !! c2) as [e2|];
      repeat case_bool_decide;
      repeat match goal with
        | H : ¬ is_Some (Some _) |- _ => by destruct H
        | H : is_Some None |- _ => by destruct (is_Some_None H)
        end;
      naive_solver.
Qed.

(** ** The constructor *)

(** C5.  When nothing exists at the entry path, the constructor throws
    its error, and the only call made to the environment is the
    [existsSync] of the entry path: no file is read, no other path is
    probed, nothing is extracted. *)
Theorem constructor_fails_fast mainFile baseDir w :
  fs !! mainFile = None →
  LuaBundle.constructor mainFile baseDir w
  = (Throw (JsError "Main file does not exist"), extend w [EvExists mainFile]).
Proof.
  intros Hnone. unfold LuaBundle.constructor.
  rewrite (bind_val _ _ _ _ _ (existsSync_run mainFile w)), Hnone.
  rewrite bool_decide_eq_false_2; [done|]. by intros [].
Qed.
(** ** [getRequires] *)

Lemma result_bind {A B} (m : M A) (k : A → M B) w :
  (∀ a, oblivious (k a)) →
  result (m ≫= k) w = result m w ≫= λ a, result (k a) w.
Proof.
  intros Hk. unfold result. rewrite bind_unfold.
  destruct (m w) as [[a|e|] w']; simpl; [|done..].
  apply (oblivious_result (k a) w' w), Hk.
Qed.

Lemma oblivious_spread {A} room (deps : list A) (a : M (list A)) :
  oblivious a →
  oblivious (if bool_decide (length deps ≤ room) then a else overflow).
Proof. intros Ha. case_bool_decide; [done|apply oblivious_overflow]. Qed.

Lemma oblivious_visit recur room this requires v :
  (∀ c, oblivious (recur c)) → oblivious (LuaBundle.visit recur room this requires v).
Proof.
  intros Hrec. unfold LuaBundle.visit.
  apply oblivious_bind; [apply oblivious_resolveRequire|].
  intros [p|]; [|apply oblivious_ret].
  apply oblivious_bind; [apply oblivious_readFileSync|]. intros c.
  apply oblivious_bind; [apply Hrec|]. intros deps.
  apply oblivious_spread, oblivious_ret.
Qed.

Lemma oblivious_getRequires depth this value :
  oblivious (LuaBundle.getRequires depth this value).
Proof.
  revert value. induction depth as [|d IH]; intros value; simpl.
  - apply oblivious_overflow.
  - apply oblivious_forEachM. intros ???. by apply oblivious_visit.
Qed.

Lemma readFileSync_result path w :
  result (readFileSync path) w =
  match fs !! path with
  | Some (File content) => Val content
  | _ => Throw (FsError path)
  end.
Proof. unfold result. by rewrite readFileSync_run. Qed.

(** What one round of the loop of [getRequires] adds to [requires]. *)
Lemma visit_result recur room this requires v w :
  (∀ c, oblivious (recur c)) →
  result (LuaBundle.visit recur room this requires v) w =
  match resolves_to this (reference_of v) with
  | None => Val requires
  | Some p =>
      match fs !! p with
      | Some (File content) =>
          deps ← result (recur content) w;
          if bool_decide (length deps ≤ room)
          then Val (requires ++ (reference_of v, p) :: deps)
          else Overflow
      | _ => Throw (FsError p)
      end
  end.
Proof.
  intros Hrec. unfold LuaBundle.visit.
  rewrite result_bind, resolveRequire_result; simpl.
  2:{ intros [p|]; [|apply oblivious_ret].
      apply oblivious_bind; [apply oblivious_readFileSync|]. intros c.
      apply oblivious_bind; [apply Hrec|]. intros deps.
      apply oblivious_spread, oblivious_ret. }
  fold (reference_of v). destruct (resolves_to this (reference_of v)) as [p|]; [|done].
  rewrite result_bind, readFileSync_result.
  2:{ intros c. apply oblivious_bind; [apply Hrec|]. intros deps.
      apply oblivious_spread, oblivious_ret. }
  destruct (fs !! p) as [[c|]|]; simpl; [|done..].
  rewrite result_bind by (intros; apply oblivious_spread, oblivious_ret).
  destruct (result (recur c) w) as [deps| |]; simpl; [|done..].
  case_bool_decide; [|done].
  unfold result. simpl. by rewrite <-(assoc_L (++)).
Qed.

Lemma forEachM_result {A B} (f : B → A → M B) x l b w :
  (∀ b a, oblivious (f b a)) →
  result (forEachM f (x :: l) b) w =
  result (f b x) w ≫= λ b', result (forEachM f l b') w.
Proof.
  intros Hf. simpl. apply result_bind. intros b'. by apply oblivious_forEachM.
Qed.

(** The rounds append to [requires]: the loop started on any array is
    the loop started on the empty one, put after that array. *)
Lemma visit_loop_acc recur room this vs requires w :
  (∀ c, oblivious (recur c)) →
  result (forEachM (LuaBundle.visit recur room this) vs requires) w =
  found ← result (forEachM (LuaBundle.visit recur room this) vs []) w;
  Val (requires ++ found).
Proof.
  intros Hrec. revert requires. induction vs as [|v vs IH]; intros requires.
  - unfold result. simpl. by rewrite app_nil_r.
  - rewrite !forEachM_result by (intros; by apply oblivious_visit).
    rewrite !visit_result by done.
    destruct (resolves_to this (reference_of v)) as [p|]; simpl; [|apply IH].
    destruct (fs !! p) as [[c|]|]; simpl; [|done..].
    destruct (result (recur c) w) as [deps| |]; simpl; [|done..].
    case_bool_decide; simpl; [|done].
    rewrite IH, (IH (_ :: _)).
    destruct (result (forEachM _ vs []) w); simpl; [|done..].
    by rewrite <-(assoc_L (++)).
Qed.

(** The equations of [getRequires]. *)
Lemma getRequires_step depth this v vs w :
  result (forEachM (LuaBundle.visit (LuaBundle.getRequires depth this)
                      (spread_room depth) this) (v :: vs) []) w =
  match resolves_to this (reference_of v) with
  | None =>
      result (forEachM (LuaBundle.visit (LuaBundle.getRequires depth this)
                          (spread_room depth) this) vs []) w
  | Some p =>
      match fs !! p with
      | Some (File content) =>
          deps ← result (LuaBundle.getRequires depth this content) w;
          if bool_decide (length deps ≤ spread_room depth) then
            rest ← result (forEachM (LuaBundle.visit (LuaBundle.getRequires depth this)
                                       (spread_room depth) this) vs []) w;
            Val ((reference_of v, p) :: deps ++ rest)
          else Overflow
      | _ => Throw (FsError p)
      end
  end.
Proof.
  rewrite forEachM_result
    by (intros; apply oblivious_visit, oblivious_getRequires).
  rewrite visit_result by apply oblivious_getRequires.
  destruct (resolves_to this (reference_of v)) as [p|]; simpl; [|done].
  destruct (fs !! p) as [[c|]|]; simpl; [|done..].
  destruct (result (LuaBundle.getRequires depth this c) w) as [deps| |];
    simpl; [|done..].
  case_bool_decide; simpl; [|done].
  rewrite visit_loop_acc by apply oblivious_getRequires.
  by destruct (result (forEachM _ vs []) w).
Qed.

(** ** The lists of the extraction *)

Lemma getRequires_unfold depth this text :
  LuaBundle.getRequires (S depth) this text
  = forEachM (LuaBundle.visit (LuaBundle.getRequires depth this)
                (spread_room depth) this) (match_texts text) [].
Proof. reflexivity. Qed.

Lemma visit_loop_extracted depth this vs w rest :
  (∀ text reqs, result (LuaBundle.getRequires depth this text) w = Val reqs →
                extracted this (match_texts text) reqs) →
  result (forEachM (LuaBundle.visit (LuaBundle.getRequires depth this)
                      (spread_room depth) this) vs []) w
  = Val rest →
  extracted this vs rest.
Proof.
  intros IH. revert rest. induction vs as [|v vs IHvs]; intros rest.
  - intros [= <-]. constructor.
  - rewrite getRequires_step.
    destruct (resolves_to this (reference_of v)) as [p|] eqn:Hres.
    + destruct (fs !! p) as [[c|]|] eqn:Hc; [|done..].
      destruct (result (LuaBundle.getRequires depth this c) w) as [deps| |] eqn:Hdeps;
        [|done..].
      rewrite Res_bind_val. case_bool_decide; [|done].
      destruct (result (forEachM _ vs []) w) as [rest'| |]; [|done..].
      rewrite Res_bind_val. intros [= <-].
      eapply extracted_visit; [done|done|by apply IH|by apply IHvs].
    + intros Hrest. apply extracted_skip; auto.
Qed.

Lemma getRequires_extracted depth this text w requiredFiles :
  result (LuaBundle.getRequires depth this text) w = Val requiredFiles →
  extracted this (match_texts text) requiredFiles.
Proof.
  revert text requiredFiles. induction depth as [|d IH]; intros text reqs; [done|].
  rewrite getRequires_unfold. by apply visit_loop_extracted.
Qed.

Lemma spread_room_mono d d' : d ≤ d' → spread_room d ≤ spread_room d'.
Proof. unfold spread_room. intros Hd. by apply Nat.mul_le_mono_r. Qed.

Lemma spread_room_ge d : d ≤ spread_room d.
Proof. unfold spread_room. pose proof (Pos2Nat.is_pos frame_slots). nia. Qed.

Lemma getRequires_deeper depth this text w :
  result (LuaBundle.getRequires depth this text) w ≠ Overflow →
  result (LuaBundle.getRequires (S depth) this text) w
  = result (LuaBundle.getRequires depth this text) w.
Proof.
  revert text. induction depth as [|d IH]; intros text; [done|].
  rewrite !getRequires_unfold.
  induction (match_texts text) as [|v vs IHvs]; [done|].
  rewrite !getRequires_step.
  destruct (resolves_to this (reference_of v)) as [p|]; [|done].
  destruct (fs !! p) as [[c|]|]; [|done..].
  specialize (IH c).
  destruct (result (LuaBundle.getRequires d this c) w) as [deps| |] eqn:Hdeps.
  - rewrite IH by done. rewrite !Res_bind_val.
    case_bool_decide as Hroom; [|done].
    rewrite bool_decide_eq_true_2
      by (etrans; [done|apply spread_room_mono; lia]).
    destruct (result (forEachM (LuaBundle.visit (LuaBundle.getRequires d this)
                                  (spread_room d) this) vs []) w) as [rest| |] eqn:Hrest.
    + by rewrite IHvs.
    + by rewrite IHvs.
    + done.
  - by rewrite IH.
  - done.
Qed.

Lemma getRequires_stable depth depth' this text w w' :
  result (LuaBundle.getRequires depth this text) w ≠ Overflow →
  depth ≤ depth' →
  result (LuaBundle.getRequires depth' this text) w'
  = result (LuaBundle.getRequires depth this text) w.
Proof.
  intros Hret Hle.
  rewrite (oblivious_result _ w' w) by apply oblivious_getRequires.
  induction Hle as [|d' _ IH]; [done|].
  rewrite getRequires_deeper; [done|]. by rewrite IH.
Qed.

(** ** Termination of the extraction *)

Lemma required_paths_elem this text v p :
  v ∈ match_texts text → resolves_to this (reference_of v) = Some p →
  p ∈ required_paths this text.
Proof. intros Hv Hp. unfold required_paths. apply list_elem_of_omap. eauto. Qed.

Lemma chain_reachable this text l q :
  chain this text l → q ∈ l → reachable this text q.
Proof.
  induction 1 as [|text p content l Hp Hfile Hchain IH]; [by intros ?%elem_of_nil|].
  intros [->|Hq]%elem_of_cons.
  - by exists p.
  - destruct (IH Hq) as (p0 & Hp0 & Hrtc). exists p. split; [done|].
    eapply rtc_l; [|done]. by exists content.
Qed.

Lemma reachable_step this text p content q :
  p ∈ required_paths this text → fs !! p = Some (File content) →
  reachable this content q → reachable this text q.
Proof.
  intros Hp Hfile (p0 & Hp0 & Hrtc). exists p. split; [done|].
  eapply rtc_l; [|done]. by exists content.
Qed.

Lemma chain_on_disk this text l q :
  chain this text l → q ∈ l → is_Some (fs !! q).
Proof.
  induction 1 as [|text p content l Hp Hfile Hchain IH]; [by intros ?%elem_of_nil|].
  intros [->|Hq]%elem_of_cons; eauto.
Qed.

Lemma chain_NoDup this text l :
  acyclic_from this text → chain this text l → NoDup l.
Proof.
  intros Hacyc Hchain.
  induction Hchain as [|text p content l Hp Hfile Hchain IH]; [constructor|].
  constructor.
  - intros Hin. apply (Hacyc p); [by exists p|].
    destruct (chain_reachable _ _ _ _ Hchain Hin) as (p0 & Hp0 & Hrtc).
    eapply tc_rtc_r; [|done]. apply tc_once. by exists content.
  - apply IH. intros q Hq. apply Hacyc. by eapply reachable_step.
Qed.

(** Without a cycle no chain is longer than the number of entries of the
    file system. *)
Lemma chain_length this text l :
  acyclic_from this text → chain this text l → length l ≤ size fs.
Proof.
  intros Hacyc Hchain.
  rewrite <-(size_dom (D:=gset string)). unfold size, set_size. simpl.
  apply submseteq_length, NoDup_submseteq; [by eapply chain_NoDup|].
  intros q Hq. apply elem_of_elements, elem_of_dom. by eapply chain_on_disk.
Qed.

Lemma getRequires_returns_bounded k this text d :
  (∀ l, chain this text l → length l ≤ k) → k < d →
  (∀ p content reqs,
     reachable this text p → fs !! p = Some (File content) →
     extracted this (match_texts content) reqs →
     length reqs ≤ spread_room (d - k)) →
  returns (LuaBundle.getRequires d this text).
Proof.
  revert text d. induction k as [|k IH]; intros text d Hbound Hd Hroom w;
    (destruct d as [|d]; [lia|]); rewrite getRequires_unfold.
  - assert (Hnone : ∀ v, v ∈ match_texts text →
              match resolves_to this (reference_of v) with
              | Some p => ∀ c, fs !! p ≠ Some (File c)
              | None => True
              end).
    { intros v Hv. destruct (resolves_to _ _) as [p|] eqn:Hres; [|done].
      intros c Hc.
      assert (chain this text [p]) as ?%Hbound; [|simpl in *; lia].
      econstructor; [by eapply required_paths_elem|done|constructor]. }
    clear Hbound Hroom. induction (match_texts text) as [|v vs IHvs]; [done|].
    rewrite getRequires_step.
    pose proof (Hnone v ltac:(by left)) as Hv.
    destruct (resolves_to this (reference_of v)) as [p|].
    + destruct (fs !! p) as [[c|]|]; [by destruct (Hv c)|done..].
    + apply IHvs. intros ??. apply Hnone. by right.
  - assert (Hsub : ∀ v p c, v ∈ match_texts text →
              resolves_to this (reference_of v) = Some p →
              fs !! p = Some (File c) →
              ∀ deps, result (LuaBundle.getRequires d this c) w ≠ Overflow ∧
                      (result (LuaBundle.getRequires d this c) w = Val deps →
                       length deps ≤ spread_room d)).
    { intros v p c Hv Hres Hc deps.
      assert (p ∈ required_paths this text) as Hp by by eapply required_paths_elem.
      split.
      - apply (IH c d); [|lia|].
        + intros l Hl.
          assert (chain this text (p :: l)) as ?%Hbound; [|simpl in *; lia].
          by econstructor.
        + intros q content reqs Hq. apply Hroom. by eapply reachable_step.
      - intros Hdeps%getRequires_extracted.
        etrans; [eapply (Hroom p c); [by exists p|done..]|].
        apply spread_room_mono. lia. }
    clear Hbound Hroom. induction (match_texts text) as [|v vs IHvs]; [done|].
    rewrite getRequires_step.
    destruct (resolves_to this (reference_of v)) as [p|] eqn:Hres.
    + destruct (fs !! p) as [[c|]|] eqn:Hc; [|done..].
      destruct (result (LuaBundle.getRequires d this c) w) as [deps| |] eqn:Hdeps;
        [|done|by destruct (Hsub v p c ltac:(by left) Hres Hc []) as [? _]].
      destruct (Hsub v p c ltac:(by left) Hres Hc deps) as [_ Hfits].
      rewrite Hdeps in Hfits. simpl. rewrite bool_decide_eq_true_2 by auto.
      assert (result (forEachM (LuaBundle.visit (LuaBundle.getRequires d this)
                                  (spread_room d) this) vs []) w ≠ Overflow) as Hvs.
      { apply IHvs. intros ??????. eapply Hsub; [by right|done..]. }
      by destruct (result (forEachM _ vs []) w).
    + apply IHvs. intros ??????. eapply Hsub; [by right|done..].
Qed.

(** However long the lists are, a stack deep enough has room for them. *)
Lemma getRequires_returns_eventually k this text :
  (∀ l, chain this text l → length l ≤ k) →
  ∃ d0, ∀ d w, d0 ≤ d → result (LuaBundle.getRequires d this text) w ≠ Overflow.
Proof.
  revert text. induction k as [|k IH]; intros text Hbound.
  all: assert (∀ vs, (∀ v, v ∈ vs → v ∈ match_texts text) →
         ∃ d0, ∀ d w, d0 ≤ d →
           result (forEachM (LuaBundle.visit (LuaBundle.getRequires d this)
                               (spread_room d) this) vs []) w ≠ Overflow) as Hloop.
  1,3: intros vs; induction vs as [|v vs IHvs]; intros Hsub; [by exists 0|];
    destruct IHvs as [d1 Hd1]; [intros ??; apply Hsub; by right|];
    destruct (resolves_to this (reference_of v)) as [p|] eqn:Hres;
      [|exists d1; intros d w Hd; rewrite getRequires_step, Hres; by apply Hd1];
    destruct (fs !! p) as [[c|]|] eqn:Hc;
      [|exists 0; intros d w _; by rewrite getRequires_step, Hres, Hc..];
    assert (p ∈ required_paths this text) as Hp
      by (eapply required_paths_elem; [apply Hsub; by left|done]).
  - assert (chain this text [p]) as ?%Hbound; [|simpl in *; lia].
    econstructor; [done..|constructor].
  - destruct (IH c) as [d2 Hd2].
    { intros l Hl.
      assert (chain this text (p :: l)) as ?%Hbound; [|simpl in *; lia].
      by econstructor. }
    destruct (result (LuaBundle.getRequires d2 this c) initial_world)
      as [deps|e|] eqn:Hdeps; [| |by destruct (Hd2 d2 initial_world)].
    + exists (d1 `max` (d2 `max` length deps)). intros d w Hd.
      rewrite getRequires_step, Hres, Hc.
      rewrite (getRequires_stable d2 d _ _ initial_world), Hdeps
        by (rewrite ?Hdeps; done || lia).
      simpl. rewrite bool_decide_eq_true_2
        by (etrans; [|apply spread_room_ge]; lia).
      specialize (Hd1 d w ltac:(lia)). by destruct (result (forEachM _ vs []) w).
    + exists d2. intros d w Hd.
      rewrite getRequires_step, Hres, Hc.
      by rewrite (getRequires_stable d2 d _ _ initial_world), Hdeps
        by (rewrite ?Hdeps; done || lia).
  - destruct (Hloop (match_texts text)) as [d0 Hd0]; [done|].
    exists (S d0). intros [|d] w Hd; [lia|]. rewrite getRequires_unfold. apply Hd0. lia.
  - destruct (Hloop (match_texts text)) as [d0 Hd0]; [done|].
    exists (S d0). intros [|d] w Hd; [lia|]. rewrite getRequires_unfold. apply Hd0. lia.
Qed.

Lemma returns_bind_val {A B} (m : M A) (f : A → M B) :
  returns m → (∀ a w, result m w = Val a → returns (f a)) → returns (m ≫= f).
Proof.
  intros Hm Hf w. unfold result. rewrite bind_unfold.
  pose proof (Hm w) as Hmw. pose proof (λ a, Hf a w) as Hfw.
  unfold result in Hmw, Hfw. destruct (m w) as [[a|e|] w']; simpl in *; [|done..].
  by apply Hfw.
Qed.

Lemma returns_bind {A B} (m : M A) (f : A → M B) :
  returns m → (∀ a, returns (f a)) → returns (m ≫= f).
Proof. intros Hm Hf. apply returns_bind_val; auto. Qed.

Lemma returns_ret {A} (a : A) : returns (mret a).
Proof. by intros w. Qed.

Lemma returns_throw {A} e : returns (throw (A:=A) e).
Proof. by intros w. Qed.

Lemma returns_forEachM {A B} (f : B → A → M B) l b :
  (∀ b a, returns (f b a)) → returns (forEachM f l b).
Proof.
  intros Hf. revert b. induction l as [|x l IH]; intros b; simpl.
  - apply returns_ret.
  - by apply returns_bind.
Qed.

Lemma returns_mapM {A B} (f : A → M B) l :
  (∀ a, returns (f a)) → returns (mapM f l).
Proof.
  intros Hf. induction l as [|x l IH]; simpl.
  - apply returns_ret.
  - apply returns_bind; [done|]. intros y.
    apply returns_bind; [done|]. intros k. apply returns_ret.
Qed.

Lemma returns_readFileSync path : returns (readFileSync path).
Proof. intros w. rewrite readFileSync_result. by destruct (fs !! path) as [[]|]. Qed.

Lemma returns_resolveRequire this value : returns (LuaBundle.resolveRequire this value).
Proof. intros w. by rewrite resolveRequire_result. Qed.

Lemma returns_remap_call this value : returns (LuaBundle.remap_call this value).
Proof.
  apply returns_bind; [apply returns_resolveRequire|].
  intros [p|]; [|apply returns_throw].
  destruct (find _ _); [apply returns_ret|apply returns_throw].
Qed.

Lemma returns_remapRequires this value : returns (LuaBundle.remapRequires this value).
Proof.
  unfold LuaBundle.remapRequires. destruct (exec_all false value) as [found tail].
  apply returns_bind; [|intros; apply returns_ret].
  apply returns_mapM. intros [pre m].
  apply returns_bind; [apply returns_remap_call|]. intros; apply returns_ret.
Qed.

Lemma returns_register this required : returns (LuaBundle.register this required).
Proof.
  destruct required as [luaPath resolvedPath]. unfold LuaBundle.register.
  destruct (existsb _ _); [apply returns_ret|].
  apply returns_bind; [apply returns_readFileSync|]. intros c.
  apply returns_bind; [|intros; apply returns_ret].
  apply returns_bind; [by intros w|intros; apply returns_ret].
Qed.

Lemma returns_bundle depth this :
  (∀ main, fs !! LuaBundle.mainFile this = Some (File main) →
           returns (LuaBundle.getRequires depth this main)) →
  returns (LuaBundle.bundle depth this).
Proof.
  intros Hget. apply returns_bind_val; [apply returns_readFileSync|].
  intros main w Hmain. rewrite readFileSync_result in Hmain.
  apply returns_bind; [apply Hget; by repeat case_match; simplify_eq|].
  intros requiredFiles.
  apply returns_bind; [apply returns_forEachM, returns_register|]. intros this'.
  apply returns_bind.
  { apply returns_mapM. intros module.
    apply returns_bind; [apply returns_remapRequires|intros; apply returns_ret]. }
  intros wrapped.
  apply returns_bind; [apply returns_remapRequires|intros; apply returns_ret].
Qed.

(** C6.  When no file that a text reaches through its require calls
    requires itself, directly or through other files, [getRequires]
    returns on that text (with a list or with the error of a failed read,
    never with the stack exhausted) whenever the stack is deep enough, and
    so does [bundle] when that text is the content of the entry file.
    Deep enough is: room for more nested calls than the file system has
    entries, with room left, below that many calls, for the arguments of
    the spread of the list of every file that the text reaches. *)
Theorem acyclic_requires_terminate this text :
  acyclic_from this text →
  (∃ depth0, ∀ depth, depth0 ≤ depth →
     returns (LuaBundle.getRequires depth this text) ∧
     (fs !! LuaBundle.mainFile this = Some (File text) →
      returns (LuaBundle.bundle depth this))) ∧
  (∀ depth,
     size fs < depth →
     (∀ p content requiredFiles,
        reachable this text p → fs !! p = Some (File content) →
        extracted this (match_texts content) requiredFiles →
        length requiredFiles ≤ spread_room (depth - size fs)) →
     returns (LuaBundle.getRequires depth this text) ∧
     (fs !! LuaBundle.mainFile this = Some (File text) →
      returns (LuaBundle.bundle depth this))).
Proof.
  intros Hacyc.
  assert (∀ l, chain this text l → length l ≤ size fs) as Hchains
    by (intros l Hl; by eapply chain_length).
  assert (∀ depth, returns (LuaBundle.getRequires depth this text) →
            fs !! LuaBundle.mainFile this = Some (File text) →
            returns (LuaBundle.bundle depth this)) as Hbundle.
  { intros depth Hget Hmain. apply returns_bundle. intros main Hmain'. by simplify_eq. }
  split.
  - destruct (getRequires_returns_eventually _ _ _ Hchains) as [depth0 Hdepth0].
    exists depth0. intros depth Hdepth.
    assert (returns (LuaBundle.getRequires depth this text)) as Hget
      by (intros w; by apply Hdepth0).
    split; [done|by apply Hbundle].
  - intros depth Hdepth Hroom.
    assert (returns (LuaBundle.getRequires depth this text)) as Hget
      by by apply (getRequires_returns_bounded (size fs)).
    split; [done|by apply Hbundle].
Qed.

(** A rank that decreases along the require calls rules the cycles out,
    from every text. *)
Lemma ranked_acyclic this (rank : string → nat) text :
  (∀ p q, requires this p q → rank q < rank p) → acyclic_from this text.
Proof.
  intros Hrank p _ Hcycle.
  assert (∀ a b, tc (requires this) a b → rank b < rank a) as Htc.
  { induction 1 as [a b Hab|a b c Hab _ IH]; [by apply Hrank|].
    apply Hrank in Hab. lia. }
  apply Htc in Hcycle. lia.
Qed.

(** ** The registry *)

Lemma some_identifier (ms : list LuaModule.t) luaPath :
  existsb (λ mod_, bool_decide (LuaModule.identifier mod_ = luaPath)) ms = true
  ↔ luaPath ∈ LuaModule.identifier <$> ms.
Proof.
  rewrite existsb_exists, list_elem_of_fmap. split.
  - intros (m & Hin%list_elem_of_In & Hm%bool_decide_eq_true). eauto.
  - intros (m & -> & Hin). exists m. by rewrite <-list_elem_of_In, bool_decide_eq_true.
Qed.

Lemma register_run this luaPath resolvedPath w :
  LuaBundle.register this (luaPath, resolvedPath) w =
  if bool_decide (luaPath ∈ LuaModule.identifier <$> LuaBundle.modules this)
  then (Val this, w)
  else match fs !! resolvedPath with
       | Some (File content) =>
           (Val (LuaBundle.set_modules this
                   (LuaBundle.modules this ++
                    [{| LuaModule.identifier := luaPath;
                        LuaModule.path := resolvedPath;
                        LuaModule.uniqueIdentifier := uuid (minted w);
                        LuaModule.content := content |}])),
            {| trace := trace w ++ [EvRead resolvedPath; EvUUID];
               minted := S (minted w) |})
       | _ => (Throw (FsError resolvedPath), extend w [EvRead resolvedPath])
       end.
Proof.
  unfold LuaBundle.register.
  destruct (existsb _ _) eqn:Hsome.
  - apply some_identifier in Hsome. by rewrite bool_decide_eq_true_2.
  - rewrite bool_decide_eq_false_2
      by (rewrite <-some_identifier; congruence).
    rewrite bind_unfold, readFileSync_run.
    destruct (fs !! resolvedPath) as [[content|]|]; [|done..].
    rewrite bind_unfold. unfold LuaModule.constructor.
    rewrite bind_unfold. unfold randomUUID, extend. simpl.
    by rewrite <-(assoc_L (++)).
Qed.

Lemma first_by_reference_filter (x : string) pairs :
  filter (λ r, r.1 ≠ x) (first_by_reference pairs)
  = first_by_reference (filter (λ r, r.1 ≠ x) pairs).
Proof.
  induction pairs as [|r pairs IH]; [done|]. simpl.
  destruct (decide (r.1 = x)) as [<-|Hne].
  - rewrite !filter_cons_False by naive_solver.
    rewrite list_filter_filter, <-IH. apply list_filter_iff. naive_solver.
  - rewrite !filter_cons_True by done. simpl. f_equal.
    rewrite <-IH, !list_filter_filter. apply list_filter_iff. naive_solver.
Qed.

(** The loop that fills [this.modules], started on any registry. *)
Lemma register_loop_keys requiredFiles this w this' w' :
  forEachM LuaBundle.register requiredFiles this w = (Val this', w') →
  module_key <$> LuaBundle.modules this'
  = (module_key <$> LuaBundle.modules this) ++
    first_by_reference
      (filter (λ r, r.1 ∉ LuaModule.identifier <$> LuaBundle.modules this)
              requiredFiles).
Proof.
  revert this w. induction requiredFiles as [|[luaPath resolvedPath] reqs IH];
    intros this w Hloop.
  - unfold forEachM, mret, M_ret in Hloop. simplify_eq. by rewrite app_nil_r.
  - rewrite forEachM_cons in Hloop.
    apply bind_val_inv in Hloop as (this1 & w1 & Hreg & Hloop).
    rewrite register_run in Hreg. apply IH in Hloop. rewrite Hloop. clear IH Hloop.
    case_bool_decide as Hin.
    + simplify_eq. by rewrite filter_cons_False by naive_solver.
    + destruct (fs !! resolvedPath) as [[content|]|]; simplify_eq.
      rewrite filter_cons_True by done. simpl.
      rewrite !fmap_app, <-(assoc_L (++)). simpl. do 2 f_equal.
      rewrite first_by_reference_filter, list_filter_filter.
      f_equal. apply list_filter_iff. intros [r p]. simpl.
      rewrite elem_of_app, list_elem_of_singleton. naive_solver.
Qed.

Lemma first_by_reference_elem pairs r :
  r ∈ (first_by_reference pairs).*1 ↔ r ∈ pairs.*1.
Proof.
  induction pairs as [|[x p] pairs IH]; [done|]. simpl.
  rewrite !elem_of_cons, <-IH.
  destruct (decide (r = x)) as [->|Hne]; [naive_solver|].
  rewrite !list_elem_of_fmap. split.
  - intros [?|(yq & -> & Hin%list_elem_of_filter)]; [done|]. naive_solver.
  - intros [?|(yq & -> & Hin)]; [done|]. right. exists yq.
    by rewrite list_elem_of_filter.
Qed.

Lemma first_by_reference_NoDup pairs : NoDup (first_by_reference pairs).*1.
Proof.
  induction pairs as [|[x p] pairs IH]; [constructor|]. simpl. constructor.
  - rewrite list_elem_of_fmap. intros ([y q] & -> & Hin%list_elem_of_filter).
    naive_solver.
  - clear -IH. induction (first_by_reference pairs) as [|[y q] l IHl]; [constructor|].
    apply NoDup_cons in IH as [Hy Hl].
    destruct (decide (y = x)) as [->|Hne].
    + rewrite filter_cons_False by naive_solver. auto.
    + rewrite filter_cons_True by done. simpl. constructor; [|auto].
      rewrite list_elem_of_fmap. intros ([z q'] & -> & Hin%list_elem_of_filter).
      apply Hy. apply list_elem_of_fmap. exists (z, q'). naive_solver.
Qed.

Lemma issued_register this luaPath resolvedPath w this' w' :
  issued w (LuaBundle.modules this) →
  LuaBundle.register this (luaPath, resolvedPath) w = (Val this', w') →
  issued w' (LuaBundle.modules this').
Proof.
  intros (calls & Hids & Hnodup & Hlt). rewrite register_run.
  case_bool_decide; [intros; simplify_eq; by exists calls|].
  destruct (fs !! resolvedPath) as [[content|]|]; intros; simplify_eq.
  exists (calls ++ [minted w]). simpl. split_and!.
  - by rewrite !fmap_app, Hids.
  - apply NoDup_app. split_and!; [done| |apply NoDup_singleton].
    intros n Hn%Hlt ->%list_elem_of_singleton. lia.
  - intros n [Hn%Hlt| ->%list_elem_of_singleton]%elem_of_app; lia.
Qed.

Lemma issued_register_loop requiredFiles this w this' w' :
  issued w (LuaBundle.modules this) →
  forEachM LuaBundle.register requiredFiles this w = (Val this', w') →
  issued w' (LuaBundle.modules this').
Proof.
  revert this w. induction requiredFiles as [|[luaPath resolvedPath] reqs IH];
    intros this w Hissued Hloop.
  - unfold forEachM, mret, M_ret in Hloop. by simplify_eq.
  - rewrite forEachM_cons in Hloop.
    apply bind_val_inv in Hloop as (this1 & w1 & Hreg & Hloop).
    eapply IH; [|done]. by eapply issued_register.
Qed.

Lemma issued_NoDup w ms :
  Inj (=) (=) uuid → issued w ms → NoDup (LuaModule.uniqueIdentifier <$> ms).
Proof. intros Hinj (calls & -> & Hnodup & _). by apply (NoDup_fmap_2 _). Qed.

(** ** [remapRequires] *)

Lemma oblivious_remap_call this value : oblivious (LuaBundle.remap_call this value).
Proof.
  apply oblivious_bind; [apply oblivious_resolveRequire|].
  intros [p|]; [|apply oblivious_throw].
  destruct (find _ _); [apply oblivious_ret|apply oblivious_throw].
Qed.

Lemma oblivious_replace_match this found : oblivious (LuaBundle.replace_match this found).
Proof.
  apply oblivious_bind; [apply oblivious_remap_call|]. intros; apply oblivious_ret.
Qed.

Lemma oblivious_remapRequires this value : oblivious (LuaBundle.remapRequires this value).
Proof.
  unfold LuaBundle.remapRequires. destruct (exec_all false value) as [found tail].
  apply oblivious_bind; [|intros; apply oblivious_ret].
  apply oblivious_mapM. intros; apply oblivious_replace_match.
Qed.

Lemma oblivious_wrap_module this module : oblivious (LuaBundle.wrap_module this module).
Proof.
  apply oblivious_bind; [apply oblivious_remapRequires|]. intros; apply oblivious_ret.
Qed.

(** The callback of [replace]: the identifier of the first module, in
    the order of [this.modules], whose path is the resolved one. *)
Lemma remap_call_result this value w :
  result (LuaBundle.remap_call this value) w =
  match resolves_to this value with
  | None => Throw (LuaBundle.not_found value)
  | Some p =>
      match find (λ mod_, bool_decide (LuaModule.path mod_ = p))
                 (LuaBundle.modules this) with
      | None => Throw (LuaBundle.not_found value)
      | Some module => Val (LuaBundle.call_site (LuaModule.uniqueIdentifier module))
      end
  end.
Proof.
  unfold LuaBundle.remap_call. rewrite result_bind, resolveRequire_result.
  - simpl. destruct (resolves_to this value) as [p|]; [|done].
    by destruct (find _ _).
  - intros [p|]; [|apply oblivious_throw].
    destruct (find _ _); [apply oblivious_ret|apply oblivious_throw].
Qed.

Lemma replace_match_result this pre m w :
  result (LuaBundle.replace_match this (pre, m)) w =
  r ← result (LuaBundle.remap_call this (m_group m)) w; Val (pre +:+ r).
Proof.
  unfold LuaBundle.replace_match. rewrite result_bind; [done|].
  intros; apply oblivious_ret.
Qed.

Lemma mapM_result_nil {A B} (f : A → M B) w : result (mapM f []) w = Val [].
Proof. reflexivity. Qed.

Lemma mapM_result_cons {A B} (f : A → M B) x l w :
  (∀ a, oblivious (f a)) →
  result (mapM f (x :: l)) w =
  y ← result (f x) w; k ← result (mapM f l) w; Val (y :: k).
Proof.
  intros Hf. simpl. rewrite result_bind.
  2:{ intros y. apply oblivious_bind; [by apply oblivious_mapM|].
      intros; apply oblivious_ret. }
  destruct (result (f x) w) as [y| |]; simpl; [|done..].
  rewrite result_bind by (intros; apply oblivious_ret). done.
Qed.

Lemma mapM_result_val {A B} (f : A → M B) l w ys :
  (∀ a, oblivious (f a)) →
  result (mapM f l) w = Val ys ↔ Forall2 (λ x y, result (f x) w = Val y) l ys.
Proof.
  intros Hf. revert ys. induction l as [|x l IH]; intros ys.
  - rewrite mapM_result_nil. split; [intros [= <-]; constructor|].
    by intros ->%Forall2_nil_inv_l.
  - rewrite mapM_result_cons by done. split.
    + destruct (result (f x) w) as [y| |] eqn:Hx; simpl; [|done..].
      destruct (result (mapM f l) w) as [k| |] eqn:Hl; simpl; [|done..].
      intros [= <-]. constructor; [done|]. by apply IH.
    + intros (y & k & Hy & Hk & ->)%Forall2_cons_inv_l.
      apply IH in Hk. by rewrite Hy, Hk.
Qed.

Lemma remapRequires_result this value w :
  result (LuaBundle.remapRequires this value) w =
  parts ← result (mapM (LuaBundle.replace_match this) (exec_all false value).1) w;
  Val (String.concat "" parts +:+ (exec_all false value).2).
Proof.
  unfold LuaBundle.remapRequires. destruct (exec_all false value) as [found tail].
  rewrite result_bind by (intros; apply oblivious_ret). done.
Qed.

(** ** [bundle] *)

Lemma mapM_val_inv {A B} (f : A → M B) l w ys w' :
  (∀ a, oblivious (f a)) →
  mapM f l w = (Val ys, w') → Forall2 (λ x y, ∀ w0, result (f x) w0 = Val y) l ys.
Proof.
  intros Hf Hrun.
  assert (result (mapM f l) w = Val ys) as Hres by (unfold result; by rewrite Hrun).
  apply mapM_result_val in Hres; [|done].
  eapply Forall2_impl; [done|]. intros x y <- w0. by apply oblivious_result.
Qed.

(** The steps of a call of [bundle] that returns. *)
Lemma bundle_val_inv depth this w this' text w' :
  LuaBundle.bundle depth this w = (Val (this', text), w') →
  ∃ main requiredFiles w1 w2 wrapped w3 mainBody,
    fs !! LuaBundle.mainFile this = Some (File main) ∧
    LuaBundle.getRequires depth this main
      (extend w [EvRead (LuaBundle.mainFile this)]) = (Val requiredFiles, w1) ∧
    forEachM LuaBundle.register requiredFiles this w1 = (Val this', w2) ∧
    mapM (LuaBundle.wrap_module this') (LuaBundle.modules this') w2 = (Val wrapped, w3) ∧
    LuaBundle.remapRequires this' main w3 = (Val mainBody, w') ∧
    text = LuaBundle.prelude +:+ String.concat NL wrapped +:+ NL +:+ mainBody +:+ NL.
Proof.
  unfold LuaBundle.bundle. intros Hrun.
  apply bind_val_inv in Hrun as (main & w0 & Hmain & Hrun).
  rewrite readFileSync_run in Hmain.
  apply bind_val_inv in Hrun as (reqs & w1 & Hget & Hrun).
  apply bind_val_inv in Hrun as (this1 & w2 & Hreg & Hrun).
  apply bind_val_inv in Hrun as (wrapped & w3 & Hwrap & Hrun).
  apply bind_val_inv in Hrun as (mainBody & w4 & Hbody & Hrun).
  unfold mret, M_ret in Hrun. simplify_eq.
  exists main, reqs, w1, w2, wrapped, w3, mainBody.
  destruct (fs !! LuaBundle.mainFile this) as [[c|]|]; by simplify_eq.
Qed.

(** The entries that the [map] of the template makes of the modules. *)
Lemma wrap_modules_val this ms w wrapped w' :
  mapM (LuaBundle.wrap_module this) ms w = (Val wrapped, w') →
  ∃ bodies,
    Forall2 (λ module body, ∀ w0,
               result (LuaBundle.remapRequires this (LuaModule.content module)) w0
               = Val body) ms bodies ∧
    wrapped = zip_with (λ module body,
                          LuaBundle.wrap (LuaModule.uniqueIdentifier module) body)
                       ms bodies.
Proof.
  intros Hwrap. apply mapM_val_inv in Hwrap; [|apply oblivious_wrap_module].
  induction Hwrap as [|module text ms texts Hm _ IH].
  - exists []. by split; [constructor|].
  - destruct IH as (bodies & Hbodies & ->).
    pose proof (Hm initial_world) as Hm0. unfold LuaBundle.wrap_module in Hm0.
    rewrite result_bind in Hm0 by (intros; apply oblivious_ret).
    destruct (result (LuaBundle.remapRequires this _) initial_world)
      as [body| |] eqn:Hbody; simplify_eq/=.
    injection Hm0 as <-.
    exists (body :: bodies). split; [|done]. constructor; [|done].
    intros w0. rewrite <-Hbody. apply oblivious_result, oblivious_remapRequires.
Qed.

(** C1.  The text that a call of [bundle] returns is the runtime prelude
    (the empty table [modules] and the function [require] that calls the
    entry of the table under the name given), then, for the registered
    modules in the order of [this.modules] and separated by line feeds,
    the assignment to the table entry under the module's
    [uniqueIdentifier] of a function whose body is that module's content
    as [remapRequires] returns it, then the content of the entry file as
    [remapRequires] returns it, on lines of its own and outside every
    table entry. *)
Theorem bundle_text_shape depth this w this' text w' :
  LuaBundle.bundle depth this w = (Val (this', text), w') →
  ∃ main bodies mainBody,
    fs !! LuaBundle.mainFile this = Some (File main) ∧
    Forall2 (λ module body, ∀ w0,
               result (LuaBundle.remapRequires this' (LuaModule.content module)) w0
               = Val body)
            (LuaBundle.modules this') bodies ∧
    (∀ w0, result (LuaBundle.remapRequires this' main) w0 = Val mainBody) ∧
    text =
      (NL +:+ "local modules = {}" +:+ NL +:+
       "local require = function(name)" +:+ NL +:+
       "  return modules[name]()" +:+ NL +:+
       "end" +:+ NL) +:+
      String.concat NL
        (zip_with (λ module body,
                     "modules[" +:+ DQ +:+ LuaModule.uniqueIdentifier module +:+ DQ +:+
                     "] = function()" +:+ NL +:+ body +:+ NL +:+ "end")
                  (LuaBundle.modules this') bodies) +:+
      NL +:+ mainBody +:+ NL.
Proof.
  intros (main & reqs & w1 & w2 & wrapped & w3 & mainBody & Hmain & _ & _ &
          Hwrap & Hbody & ->)%bundle_val_inv.
  apply wrap_modules_val in Hwrap as (bodies & Hbodies & ->).
  exists main, bodies, mainBody. split_and!; [done..| |done].
  intros w0. rewrite (oblivious_result _ w0 w3) by apply oblivious_remapRequires.
  unfold result. by rewrite Hbody.
Qed.

(** ** What the extraction returns *)

Lemma getRequires_pairs_resolve depth this text w requiredFiles :
  result (LuaBundle.getRequires depth this text) w = Val requiredFiles →
  ∀ r p, (r, p) ∈ requiredFiles → resolves_to this r = Some p.
Proof.
  revert text requiredFiles. induction depth as [|d IH]; intros text reqs; [done|].
  simpl. revert reqs. induction (match_texts text) as [|v vs IHvs]; intros reqs.
  - intros [= <-] r p ?%elem_of_nil. done.
  - rewrite getRequires_step.
    destruct (resolves_to this (reference_of v)) as [q|] eqn:Hres; [|apply IHvs].
    destruct (fs !! q) as [[c|]|]; [|done..].
    destruct (result (LuaBundle.getRequires d this c) w) as [deps| |] eqn:Hdeps;
      simpl; [|done..].
    case_bool_decide; [|done].
    destruct (result (forEachM _ vs []) w) as [rest| |] eqn:Hrest; simpl; [|done..].
    intros [= <-] r p [?|[?|?]%elem_of_app]%elem_of_cons.
    + by simplify_eq.
    + by eapply IH.
    + by eapply IHvs.
Qed.

(** A text none of whose matches resolves has no requires. *)
Lemma getRequires_no_paths depth this text w :
  required_paths this text = [] →
  result (LuaBundle.getRequires (S depth) this text) w = Val [].
Proof.
  unfold required_paths.
  rewrite getRequires_unfold.
  induction (match_texts text) as [|v vs IH]; [done|].
  rewrite getRequires_step. cbn [omap list_omap].
  destruct (resolves_to this (reference_of v)); [done|]. apply IH.
Qed.

Lemma resolves_to_baseDir this this' value :
  LuaBundle.baseDir this = LuaBundle.baseDir this' →
  resolves_to this value = resolves_to this' value.
Proof.
  intros Hbase. unfold resolves_to, result. rewrite !resolveRequire_cases.
  by rewrite Hbase.
Qed.

Lemma register_loop_baseDir requiredFiles this w this' w' :
  forEachM LuaBundle.register requiredFiles this w = (Val this', w') →
  LuaBundle.baseDir this' = LuaBundle.baseDir this.
Proof.
  revert this w. induction requiredFiles as [|[luaPath resolvedPath] reqs IH];
    intros this w Hloop.
  - unfold forEachM, mret, M_ret in Hloop. by simplify_eq.
  - rewrite forEachM_cons in Hloop.
    apply bind_val_inv in Hloop as (this1 & w1 & Hreg & Hloop).
    rewrite (IH _ _ Hloop). rewrite register_run in Hreg.
    case_bool_decide; [by simplify_eq|].
    destruct (fs !! resolvedPath) as [[content|]|]; by simplify_eq.
Qed.

Lemma module_key_identifier (ms : list LuaModule.t) :
  (module_key <$> ms).*1 = LuaModule.identifier <$> ms.
Proof. by rewrite <-list_fmap_compose. Qed.

Lemma register_loop_fresh requiredFiles this w this' w' :
  LuaBundle.modules this = [] →
  forEachM LuaBundle.register requiredFiles this w = (Val this', w') →
  module_key <$> LuaBundle.modules this' = first_by_reference requiredFiles.
Proof.
  intros Hnil Hloop. rewrite (register_loop_keys _ _ _ _ _ Hloop), Hnil. simpl.
  f_equal. clear Hloop.
  induction requiredFiles as [|r reqs IH]; [done|].
  rewrite filter_cons_True by (by intros ?%elem_of_nil). by rewrite IH.
Qed.

(** C2.  In a call of [bundle] that returns, on an object whose registry
    was empty, the registry holds the pairs of the flattened result of the
    extraction, each with the path it was found with, in the order of
    their first occurrences and one per reference: a pair is skipped
    exactly when a pair before it has the same reference, whatever the
    paths.  In particular, when the entry file has two matches, with
    different references that resolve to files having no require of
    their own, the registry is these two references, in that order. *)
Theorem modules_one_per_reference depth this w this' text w' :
  LuaBundle.modules this = [] →
  LuaBundle.bundle depth this w = (Val (this', text), w') →
  ∃ main requiredFiles,
    fs !! LuaBundle.mainFile this = Some (File main) ∧
    (∀ w0, result (LuaBundle.getRequires depth this main) w0 = Val requiredFiles) ∧
    module_key <$> LuaBundle.modules this' = first_by_reference requiredFiles ∧
    NoDup (LuaModule.identifier <$> LuaBundle.modules this') ∧
    (∀ r, r ∈ LuaModule.identifier <$> LuaBundle.modules this'
          ↔ r ∈ requiredFiles.*1) ∧
    (∀ vx vy px py cx cy,
       match_texts main = [vx; vy] →
       reference_of vx ≠ reference_of vy →
       resolves_to this (reference_of vx) = Some px →
       fs !! px = Some (File cx) → required_paths this cx = [] →
       resolves_to this (reference_of vy) = Some py →
       fs !! py = Some (File cy) → required_paths this cy = [] →
       LuaModule.identifier <$> LuaBundle.modules this'
       = [reference_of vx; reference_of vy]).
Proof.
  intros Hnil (main & reqs & w1 & w2 & wrapped & w3 & mainBody & Hmain & Hget &
               Hreg & _)%bundle_val_inv.
  pose proof (register_loop_fresh _ _ _ _ _ Hnil Hreg) as Hkeys.
  assert (∀ w0, result (LuaBundle.getRequires depth this main) w0 = Val reqs) as Hres.
  { intros w0. rewrite (oblivious_result _ w0 (extend w [EvRead (LuaBundle.mainFile this)]))
      by apply oblivious_getRequires.
    unfold result. by rewrite Hget. }
  exists main, reqs. split_and!; [done..| | |].
  - rewrite <-module_key_identifier, Hkeys. apply first_by_reference_NoDup.
  - intros r. rewrite <-module_key_identifier, Hkeys. apply first_by_reference_elem.
  - intros vx vy px py cx cy Hms Hne Hx Hcx Hlx Hy Hcy Hly.
    rewrite <-module_key_identifier, Hkeys.
    specialize (Hres initial_world). destruct depth as [|d]; [done|].
    simpl in Hres. rewrite Hms in Hres. rewrite !getRequires_step, Hx, Hy, Hcx, Hcy in Hres.
    destruct d as [|d]; [done|].
    rewrite !getRequires_no_paths in Hres by done. simpl in Hres.
    injection Hres as <-. simpl.
    by rewrite filter_cons_True by (simpl; congruence).
Qed.

(** C9.  When [randomUUID] never returns the same text twice, and the
    identifiers already in the registry came from distinct earlier calls
    of it (none for a new object), the identifiers in the registry are
    pairwise distinct after any number of rounds of the loop that fills
    it (the state during the loop is its outcome on a prefix of the
    extraction result) and in the object that [bundle] leaves. *)
Theorem uniqueIdentifiers_distinct this w :
  Inj (=) (=) uuid →
  issued w (LuaBundle.modules this) →
  (∀ registered this' w',
     forEachM LuaBundle.register registered this w = (Val this', w') →
     NoDup (LuaModule.uniqueIdentifier <$> LuaBundle.modules this')) ∧
  (∀ depth this' text w',
     LuaBundle.bundle depth this w = (Val (this', text), w') →
     NoDup (LuaModule.uniqueIdentifier <$> LuaBundle.modules this')).
Proof.
  intros Hinj Hissued. split.
  - intros registered this' w' Hloop.
    eapply issued_NoDup, issued_register_loop; done.
  - intros depth this' text w'
      (main & reqs & w1 & w2 & wrapped & w3 & mainBody & Hmain & Hget & Hreg & _)%bundle_val_inv.
    eapply issued_NoDup, issued_register_loop; [done| |done].
    destruct Hissued as (calls & ? & ? & Hlt). exists calls. split_and!; [done..|].
    intros n Hn.
    replace w1 with (world_after (LuaBundle.getRequires depth this main)
                       (extend w [EvRead (LuaBundle.mainFile this)]))
      by (unfold world_after; by rewrite Hget).
    rewrite oblivious_minted by apply oblivious_getRequires. simpl. auto.
Qed.

(** ** Two references, one file *)





Lemma first_by_reference_subseteq pairs r :
  r ∈ first_by_reference pairs → r ∈ pairs.
Proof.
  induction pairs as [|x pairs IH]; [done|]. simpl.
  intros [->|[_ Hin]%list_elem_of_filter]%elem_of_cons; [by left|].
  right. auto.
Qed.



(** ** Call sites *)

Lemma literal_false pat s used rest :
  literal false pat s = Some (used, rest) → used = pat.
Proof.
  revert s used rest. induction pat as [|p pat IH]; intros s used rest.
  - rewrite literal_nil. by intros [= <- <-].
  - rewrite literal_cons. destruct s as [|c s]; [done|]. simpl.
    case_bool_decide; [|done]. subst c.
    destruct (literal false pat s) as [[u r]|] eqn:Hrec; intros; simplify_eq/=.
    f_equal. by eapply IH.
Qed.

Lemma literal_app pat rest : literal false pat (pat +:+ rest) = Some (pat, rest).
Proof.
  induction pat as [|p pat IH]; [done|].
  rewrite str_app_cons, literal_cons. simpl.
  rewrite bool_decide_eq_true_2 by done. by rewrite IH.
Qed.

(** The lazy group looks no further than its closing parenthesis. *)
Lemma lazy_group_local s g q rest rest' :
  lazy_group s = Some (g, q, rest) →
  lazy_group (g +:+ String q (String rparen rest')) = Some (g, q, rest').
Proof.
  revert g q rest. induction s as [|c t IH]; intros g q rest; [done|].
  destruct (lazy_group_cases c t) as [(rest0 & Hc & ->)|Hlater].
  - rewrite lazy_group_now by done. intros [= <- <- <-].
    by rewrite str_app_nil_l, lazy_group_now.
  - rewrite lazy_group_later by done.
    destruct (is_line_terminator c) eqn:Hlt; [done|].
    destruct (lazy_group t) as [[[g' q'] rest0]|] eqn:Hrec; intros; simplify_eq/=.
    pose proof (lazy_group_sound _ _ _ _ Hrec) as [-> Hq].
    rewrite str_app_cons, lazy_group_later, Hlt, (IH _ _ _ eq_refl); [done|].
    intros Hc rest1 Heq. destruct g' as [|c1 g''].
    + rewrite str_app_nil_l in Heq. injection Heq as -> _. done.
    + rewrite str_app_cons in Heq, Hlater. injection Heq as -> _.
      by eapply Hlater.
Qed.

Lemma match_at_false_text s m :
  match_at false s = Some m →
  ∃ q q', is_quote q = true ∧ is_quote q' = true ∧
    m_text m = "require(" +:+ String q (m_group m) +:+ String q' ")".
Proof.
  intros (_ & kw & q & q' & Hkw & Hq & Hq' & Htext)%match_at_sound.
  apply literal_false in Hkw as ->. eauto.
Qed.

(** The reference that the extraction takes out of the text of a call
    site written in lower case is the group of that call site. *)
Lemma reference_of_match_text s m :
  match_at false s = Some m → reference_of (m_text m) = m_group m.
Proof.
  unfold match_at. intros Hm.
  destruct (literal false "require(" s) as [[kw s1]|] eqn:Hlit; [|done]. simpl in Hm.
  destruct s1 as [|q s2]; [done|].
  destruct (is_quote q) eqn:Hq; [|done].
  destruct (lazy_group s2) as [[[g q'] rest]|] eqn:Hg; simplify_eq/=.
  apply literal_false in Hlit as ->.
  unfold reference_of, replace_first_by_group.
  rewrite exec_unfold. unfold match_at.
  rewrite literal_app. simpl. rewrite Hq.
  change (String q' ")") with (String q' (String rparen "")).
  rewrite (lazy_group_local _ _ _ _ "" Hg). simpl.
  by rewrite str_app_nil_r.
Qed.

Lemma exec_all_matches ic s found tail :
  exec_all ic s = (found, tail) →
  Forall (λ x, match_at ic (m_text x.2 +:+ m_rest x.2) = Some x.2) found.
Proof.
  revert s found tail. apply exec_all_ind; [constructor|].
  intros s pre m found tail [_ Hm]%exec_sound _ IH. by constructor.
Qed.

(** C8 (amended).  When [remapRequires] returns, the text it was given is
    its matches and the text between them, and the text returned is the
    same with every match replaced: a match is the word require, an
    opening parenthesis, a quote of either kind, the reference, a quote of
    either kind and a closing parenthesis, and it is replaced by the word
    require, an opening parenthesis, a double quote, the
    [uniqueIdentifier] of the first module whose path is the one the
    reference resolves to, a double quote and a closing parenthesis.  The
    text between the matches and after the last one is kept. *)
Theorem remapRequires_rewrites_call_sites this value w out :
  result (LuaBundle.remapRequires this value) w = Val out →
  ∃ found tail hits,
    exec_all false value = (found, tail) ∧
    value = String.concat "" ((λ x, x.1 +:+ m_text x.2) <$> found) +:+ tail ∧
    out = String.concat ""
            (zip_with (λ x module,
                         x.1 +:+ "require(" +:+ DQ +:+
                         LuaModule.uniqueIdentifier module +:+ DQ +:+ ")")
                      found hits) +:+ tail ∧
    Forall2 (λ x module,
               (∃ q q', is_quote q = true ∧ is_quote q' = true ∧
                  m_text x.2 = "require(" +:+ String q (m_group x.2) +:+ String q' ")") ∧
               resolves_to this (m_group x.2) = Some (LuaModule.path module) ∧
               find (λ mod_, bool_decide (LuaModule.path mod_ = LuaModule.path module))
                    (LuaBundle.modules this) = Some module)
            found hits.
Proof.
  rewrite remapRequires_result.
  destruct (exec_all false value) as [found tail] eqn:Hexec. simpl.
  destruct (result (mapM _ found) w) as [parts| |] eqn:Hparts; simpl; [|done..].
  intros [= <-].
  apply mapM_result_val in Hparts; [|apply oblivious_replace_match].
  pose proof (exec_all_matches _ _ _ _ Hexec) as Hmatches.
  assert (∃ hits,
    parts = zip_with (λ x module, x.1 +:+ LuaBundle.call_site
                                    (LuaModule.uniqueIdentifier module)) found hits ∧
    Forall2 (λ x module,
               (∃ q q', is_quote q = true ∧ is_quote q' = true ∧
                  m_text x.2 = "require(" +:+ String q (m_group x.2) +:+ String q' ")") ∧
               resolves_to this (m_group x.2) = Some (LuaModule.path module) ∧
               find (λ mod_, bool_decide (LuaModule.path mod_ = LuaModule.path module))
                    (LuaBundle.modules this) = Some module)
            found hits) as (hits & -> & Hhits).
  { clear Hexec. induction Hparts as [|[pre m] part found parts Hpart _ IH].
    - exists []. split; [done|constructor].
    - apply Forall_cons in Hmatches as [Hm Hmatches].
      destruct (IH Hmatches) as (hits & -> & Hhits).
      rewrite replace_match_result, remap_call_result in Hpart.
      destruct (resolves_to this (m_group m)) as [p|] eqn:Hres; [|done].
      destruct (find (λ mod_, bool_decide (LuaModule.path mod_ = p)) _)
        as [module|] eqn:Hfind; [|done].
      apply Val_inj in Hpart as <-.
      pose proof (find_some _ _ Hfind) as [_ <-%bool_decide_eq_true].
      exists (module :: hits). split; [done|]. constructor; [|done].
      split_and!; [|done..]. by apply match_at_false_text in Hm. }
  exists found, tail, hits. split_and!; [done| |done..].
  by apply exec_all_sound in Hexec.
Qed.

(** ** Unresolved references *)

Lemma forEachM_result_app {A B} (f : B → A → M B) l1 l2 b w :
  (∀ b a, oblivious (f b a)) →
  result (forEachM f (l1 ++ l2) b) w =
  result (forEachM f l1 b) w ≫= λ b', result (forEachM f l2 b') w.
Proof.
  intros Hf. revert b. induction l1 as [|x l1 IH]; intros b; [done|].
  rewrite <-app_comm_cons, !forEachM_result by done.
  destruct (result (f b x) w) as [b'| |]; simpl; [|done..]. apply IH.
Qed.

Lemma visit_loop_skip depth this vs1 v vs2 w :
  resolves_to this (reference_of v) = None →
  result (forEachM (LuaBundle.visit (LuaBundle.getRequires depth this)
                      (spread_room depth) this) (vs1 ++ v :: vs2) []) w
  = result (forEachM (LuaBundle.visit (LuaBundle.getRequires depth this)
                        (spread_room depth) this) (vs1 ++ vs2) []) w.
Proof.
  intros Hv.
  assert (∀ b a, oblivious (LuaBundle.visit (LuaBundle.getRequires depth this)
                              (spread_room depth) this b a))
    as Hobl by (intros; apply oblivious_visit, oblivious_getRequires).
  rewrite !forEachM_result_app by done.
  destruct (result (forEachM _ vs1 []) w) as [b| |]; [|done..].
  rewrite !Res_bind_val.
  rewrite forEachM_result, visit_result, Hv by (done || apply oblivious_getRequires).
  done.
Qed.

(** [remapRequires] fails at the first match that its callback refuses. *)
Lemma replace_loop_first_failure this before pre m after w :
  Forall (λ x, ∃ r, result (LuaBundle.remap_call this (m_group x.2)) w = Val r) before →
  resolves_to this (m_group m) = None →
  result (mapM (LuaBundle.replace_match this) (before ++ (pre, m) :: after)) w
  = Throw (LuaBundle.not_found (m_group m)).
Proof.
  intros Hbefore Hm. induction Hbefore as [|[pre0 m0] before [r Hr] _ IH].
  - rewrite app_nil_l, mapM_result_cons by apply oblivious_replace_match.
    by rewrite replace_match_result, remap_call_result, Hm.
  - rewrite <-app_comm_cons, mapM_result_cons by apply oblivious_replace_match.
    rewrite replace_match_result. simpl in Hr. rewrite Hr. simpl. by rewrite IH.
Qed.

Lemma replace_loop_failure this before pre m w :
  resolves_to this (m_group m) = None →
  ∃ x, x ∈ before ++ [(pre, m)] ∧
    ∀ after, result (mapM (LuaBundle.replace_match this) (before ++ (pre, m) :: after)) w
             = Throw (LuaBundle.not_found (m_group x.2)).
Proof.
  intros Hm. induction before as [|[pre0 m0] before IH].
  - exists (pre, m). split; [by left|]. intros after.
    by apply (replace_loop_first_failure _ []).
  - destruct (result (LuaBundle.remap_call this (m_group m0)) w) as [r| |] eqn:Hr.
    + destruct IH as (x & Hx & Hfail). exists x. split; [by right|]. intros after.
      rewrite <-app_comm_cons, mapM_result_cons by apply oblivious_replace_match.
      rewrite replace_match_result, Hr. simpl. by rewrite Hfail.
    + exists (pre0, m0). split; [by left|]. intros after.
      rewrite <-app_comm_cons, mapM_result_cons by apply oblivious_replace_match.
      rewrite replace_match_result, Hr. simpl.
      rewrite remap_call_result in Hr. repeat case_match; by simplify_eq.
    + by destruct (returns_remap_call this (m_group m0) w).
Qed.

(** ** Calls without a quoted argument *)

Lemma quoted_call_at_match ic s : quoted_call_at ic s = false → match_at ic s = None.
Proof.
  unfold quoted_call_at, match_at.
  destruct (literal ic "require(" s) as [[kw [|q s2]]|]; simpl; [done| |done].
  by intros ->.
Qed.

Lemma quoted_call_free_exec ic s : quoted_call_free ic s = true → exec ic s = None.
Proof.
  induction s as [|c t IH]; intros Hfree; simpl in Hfree.
  - by rewrite exec_unfold, match_at_nil.
  - apply andb_true_iff in Hfree as [Hat%negb_true_iff Ht].
    by rewrite exec_unfold, quoted_call_at_match, IH.
Qed.

Lemma literal_ignore_case pat s x :
  literal false pat s = Some x → literal true pat s = Some x.
Proof.
  revert s x. induction pat as [|p pat IH]; intros s x; [done|].
  rewrite !literal_cons. destruct s as [|c s]; [done|]. simpl.
  case_bool_decide; [|done]. subst c. rewrite bool_decide_eq_true_2 by done.
  destruct (literal false pat s) as [y|] eqn:Hrec; [|done].
  by rewrite (IH _ _ Hrec).
Qed.


Lemma exec_all_none ic s : exec ic s = None → exec_all ic s = ([], s).
Proof. intros Hnone. by rewrite exec_all_unfold, Hnone. Qed.

(** The rank need only be checked on the entries of the file system. *)
Lemma ranked_by_entries this (rank : string → nat) :
  forallb (λ '(p, e),
             match e with
             | File content =>
                 forallb (λ q, bool_decide (rank q < rank p))
                         (required_paths this content)
             | Directory => true
             end) (map_to_list fs) = true →
  ∀ p q, requires this p q → rank q < rank p.
Proof.
  intros Hcheck p q (content & Hp & Hq).
  rewrite forallb_forall in Hcheck.
  specialize (Hcheck (p, File content)). simpl in Hcheck.
  rewrite forallb_forall in Hcheck.
  eapply bool_decide_eq_true, Hcheck; [|by apply list_elem_of_In].
  by apply list_elem_of_In, elem_of_map_to_list.
Qed.

(** * Further properties of the extraction *)

Lemma extracted_returns this vs reqs w :
  extracted this vs reqs →
  ∃ depth, ∀ d, depth ≤ d →
    result (forEachM (LuaBundle.visit (LuaBundle.getRequires d this)
                        (spread_room d) this) vs []) w
    = Val reqs.
Proof.
  induction 1 as [|v vs rest Hv _ [d0 IH]
                  |v vs p c deps rest Hv Hc _ [d1 IHdeps] _ [d2 IHrest]].
  - by exists 0.
  - exists d0. intros d Hd. by rewrite getRequires_step, Hv, IH.
  - exists (S d1 `max` (d2 `max` length deps)). intros d Hd.
    rewrite getRequires_step, Hv, Hc.
    destruct d as [|d]; [lia|].
    rewrite getRequires_unfold, IHdeps, IHrest by lia. simpl.
    rewrite bool_decide_eq_true_2; [done|].
    etrans; [|apply spread_room_ge]. lia.
Qed.

(** X1.  The lists that [getRequires] returns, at one depth or another, are
    the depth-first, pre-order lists of the matches of its text: each
    match that resolves to a file gives its pair, then the list of that
    file, before the pairs of the matches that follow; a match that
    resolves to nothing gives nothing. *)
Theorem getRequires_preorder this text w requiredFiles :
  (∃ depth, result (LuaBundle.getRequires depth this text) w = Val requiredFiles)
  ↔ extracted this (match_texts text) requiredFiles.
Proof.
  split.
  - intros [depth Hres]. revert text requiredFiles Hres.
    induction depth as [|d IH]; intros text reqs; [done|].
    rewrite getRequires_unfold. by apply visit_loop_extracted.
  - intros [depth Hres]%(extracted_returns _ _ _ w). exists (S depth).
    rewrite getRequires_unfold. by apply Hres.
Qed.

Lemma extracted_sound this vs reqs :
  extracted this vs reqs →
  ∀ r p, (r, p) ∈ reqs →
    resolves_to this r = Some p ∧ (∃ content, fs !! p = Some (File content)) ∧
    ((∃ v, v ∈ vs ∧ r = reference_of v) ∨
     ∃ q content, (∃ r', (r', q) ∈ reqs) ∧ fs !! q = Some (File content) ∧
                  ∃ v, v ∈ match_texts content ∧ r = reference_of v).
Proof.
  induction 1 as [|v vs rest Hv _ IH|v vs p c deps rest Hv Hc _ IHdeps _ IHrest];
    intros r q Hin.
  - by apply elem_of_nil in Hin.
  - destruct (IH _ _ Hin) as (? & ? & [(v' & ? & ?)|(q' & c' & ? & ? & ?)]).
    + split_and!; [done..|]. left. exists v'. split; [by right|done].
    + split_and!; [done..|]. right. eauto.
  - apply elem_of_cons in Hin as [[= -> ->]|[Hin|Hin]%elem_of_app].
    + split_and!; [done|eauto|]. left. exists v. split; [by left|done].
    + destruct (IHdeps _ _ Hin) as (? & ? & [(v' & ? & ?)|(q' & c' & (r' & ?) & ? & ?)]).
      * split_and!; [done..|]. right. exists p, c. split_and!; [|done|eauto].
        exists (reference_of v). by left.
      * split_and!; [done..|]. right. exists q', c'. split_and!; [|done..].
        exists r'. right. apply elem_of_app. by left.
    + destruct (IHrest _ _ Hin) as (? & ? & [(v' & ? & ?)|(q' & c' & (r' & ?) & ? & ?)]).
      * split_and!; [done..|]. left. exists v'. split; [by right|done].
      * split_and!; [done..|]. right. exists q', c'. split_and!; [|done..].
        exists r'. right. apply elem_of_app. by right.
Qed.

Lemma extracted_reachable this text reqs :
  extracted this (match_texts text) reqs →
  ∀ r p, (r, p) ∈ reqs → reachable this text p.
Proof.
  assert (∀ vs reqs, extracted this vs reqs →
            ∀ text, (∀ v, v ∈ vs → v ∈ match_texts text) →
            ∀ r p, (r, p) ∈ reqs → reachable this text p) as Hgen.
  { clear. induction 1 as [|v vs rest Hv _ IH|v vs p c deps rest Hv Hc _ IHdeps _ IHrest];
      intros text Hsub r q Hin.
    - by apply elem_of_nil in Hin.
    - eapply IH; [|done]. intros ??. apply Hsub. by right.
    - assert (p ∈ required_paths this text) as Hp.
      { eapply required_paths_elem; [|done]. apply Hsub. by left. }
      apply elem_of_cons in Hin as [[= -> ->]|[Hin|Hin]%elem_of_app].
      + by exists p.
      + eapply reachable_step; [done..|]. by eapply IHdeps.
      + eapply IHrest; [|done]. intros ??. apply Hsub. by right. }
  intros Hex. by eapply Hgen.
Qed.

(** X2.  Every pair that [getRequires] returns is a reference with the
    path it resolves to, that path is a regular file, and it is reached
    from the text through require calls. *)
Theorem getRequires_lists_resolved_files depth this text w requiredFiles :
  result (LuaBundle.getRequires depth this text) w = Val requiredFiles →
  ∀ r p, (r, p) ∈ requiredFiles →
    resolves_to this r = Some p ∧
    (∃ content, fs !! p = Some (File content)) ∧
    reachable this text p.
Proof.
  intros Hex%getRequires_extracted r p Hin.
  destruct (extracted_sound _ _ _ Hex _ _ Hin) as (? & ? & _).
  split_and!; [done..|]. by eapply extracted_reachable.
Qed.

Lemma extracted_closed this vs reqs :
  extracted this vs reqs →
  (∀ v p, v ∈ vs → resolves_to this (reference_of v) = Some p →
          (reference_of v, p) ∈ reqs) ∧
  (∀ r p content v q,
     (r, p) ∈ reqs → fs !! p = Some (File content) →
     v ∈ match_texts content → resolves_to this (reference_of v) = Some q →
     (reference_of v, q) ∈ reqs).
Proof.
  induction 1 as [|v vs rest Hv _ [IH1 IH2]
                  |v vs p c deps rest Hv Hc _ [IHd1 IHd2] _ [IHr1 IHr2]].
  - split; [by intros ?? ?%elem_of_nil|by intros ????? ?%elem_of_nil].
  - split; [|done]. intros v' p' [->|Hin]%elem_of_cons Hres; [congruence|eauto].
  - split.
    + intros v' p' [->|Hin]%elem_of_cons Hres.
      * simplify_eq. by left.
      * right. apply elem_of_app. right. eauto.
    + intros r p' c' v' q [[= -> ->]|[Hin|Hin]%elem_of_app]%elem_of_cons Hc' Hv' Hres.
      * simplify_eq. right. apply elem_of_app. left. eauto.
      * right. apply elem_of_app. left. eauto.
      * right. apply elem_of_app. right. eauto.
Qed.

(** X3.  What [getRequires] returns is closed under require: it has the
    pair of every match of the text that resolves, and of every match that
    resolves in every file it lists. *)
Theorem getRequires_closed depth this text w requiredFiles :
  result (LuaBundle.getRequires depth this text) w = Val requiredFiles →
  (∀ v p, v ∈ match_texts text → resolves_to this (reference_of v) = Some p →
          (reference_of v, p) ∈ requiredFiles) ∧
  (∀ r p content v q,
     (r, p) ∈ requiredFiles → fs !! p = Some (File content) →
     v ∈ match_texts content → resolves_to this (reference_of v) = Some q →
     (reference_of v, q) ∈ requiredFiles).
Proof.
  intros Hex. apply getRequires_extracted in Hex.
  destruct (extracted_closed _ _ _ Hex) as [Hdirect Hlisted]. by split.
Qed.

(** X4.  The depth of the stack does not change what [getRequires] gives:
    when it returns at one depth, with a list or with an error, it returns
    the same at every greater depth. *)
Theorem getRequires_depth_independent depth depth' this text w :
  result (LuaBundle.getRequires depth this text) w ≠ Overflow →
  depth ≤ depth' →
  result (LuaBundle.getRequires depth' this text) w
  = result (LuaBundle.getRequires depth this text) w.
Proof.
  intros Hret Hle. induction Hle as [|d' _ IH]; [done|].
  rewrite getRequires_deeper; [done|]. by rewrite IH.
Qed.

Lemma getRequires_throw_inv depth this text w e :
  result (LuaBundle.getRequires depth this text) w = Throw e →
  ∃ p, e = FsError p ∧ fs !! p = Some Directory ∧ reachable this text p.
Proof.
  revert text. induction depth as [|d IH]; intros text; [done|].
  rewrite getRequires_unfold.
  assert (∀ v, v ∈ match_texts text → v ∈ match_texts text) as Hsub by done.
  revert Hsub. generalize (match_texts text) at 1 3. intros vs.
  induction vs as [|v vs IHvs]; intros Hsub; [done|].
  rewrite getRequires_step.
  destruct (resolves_to this (reference_of v)) as [p|] eqn:Hres.
  - assert (p ∈ required_paths this text) as Hp.
    { eapply required_paths_elem; [|done]. apply Hsub. by left. }
    destruct (fs !! p) as [[c|]|] eqn:Hc.
    + destruct (result (LuaBundle.getRequires d this c) w) as [deps| |] eqn:Hdeps.
      * rewrite Res_bind_val. case_bool_decide; [|done].
        destruct (result (forEachM _ vs []) w) as [rest| |] eqn:Hrest; [done| |done].
        intros [= <-]. apply IHvs; [|done]. intros ??. apply Hsub. by right.
      * intros [= <-]. destruct (IH _ Hdeps) as (q & -> & Hq & Hreach).
        exists q. split_and!; [done..|]. by eapply reachable_step.
      * done.
    + intros [= <-]. exists p. split_and!; [done..|]. by exists p.
    + apply resolves_to_on_disk in Hres. rewrite Hc in Hres. by destruct Hres.
  - intros Hthrow. apply IHvs; [|done]. intros ??. apply Hsub. by right.
Qed.

(** X5.  The only error that [getRequires] throws is the read error of a
    directory, one whose path a reference resolves to and that is reached
    from the text through require calls (a reference that resolves to
    nothing is no error, and a regular file is read).  It does throw it:
    a match that resolves to a directory stops the extraction, when the
    matches before it resolve to nothing. *)
Theorem getRequires_throws_for_directories this text :
  (∀ depth w e,
     result (LuaBundle.getRequires depth this text) w = Throw e →
     ∃ p, e = FsError p ∧ fs !! p = Some Directory ∧ reachable this text p) ∧
  (∀ depth w vs1 v vs2 p,
     match_texts text = vs1 ++ v :: vs2 →
     Forall (λ v', resolves_to this (reference_of v') = None) vs1 →
     resolves_to this (reference_of v) = Some p →
     fs !! p = Some Directory →
     result (LuaBundle.getRequires (S depth) this text) w = Throw (FsError p)).
Proof.
  split; [intros depth w e; apply getRequires_throw_inv|].
  intros depth w vs1 v vs2 p Hvs Hvs1 Hv Hp. rewrite getRequires_unfold, Hvs. clear Hvs.
  induction Hvs1 as [|v' vs1 Hv' _ IH].
  - by rewrite app_nil_l, getRequires_step, Hv, Hp.
  - by rewrite <-app_comm_cons, getRequires_step, Hv'.
Qed.

(** ** The two passes on texts written in lower case *)

Lemma lower_case_calls_unfold s :
  lower_case_calls s =
  implb (quoted_call_at true s) (quoted_call_at false s) &&
  match s with
  | "" => true
  | String _ t => lower_case_calls t
  end.
Proof. by destruct s. Qed.

Lemma lower_case_calls_suffix a b :
  lower_case_calls (a +:+ b) = true → lower_case_calls b = true.
Proof.
  induction a as [|c a IH]; [done|]. rewrite str_app_cons, lower_case_calls_unfold.
  intros [_ ?]%andb_true_iff. auto.
Qed.

Lemma match_at_lower_case s :
  implb (quoted_call_at true s) (quoted_call_at false s) = true →
  match_at true s = match_at false s.
Proof.
  intros Himpl.
  destruct (quoted_call_at false s) eqn:Hfalse.
  - unfold quoted_call_at in Hfalse. unfold match_at.
    destruct (literal false "require(" s) as [x|] eqn:Hlit; [|done].
    by rewrite (literal_ignore_case _ _ _ Hlit).
  - destruct (quoted_call_at true s) eqn:Htrue; [done|].
    by rewrite !quoted_call_at_match.
Qed.

Lemma exec_lower_case s :
  lower_case_calls s = true → exec true s = exec false s.
Proof.
  induction s as [|c t IH]; rewrite lower_case_calls_unfold;
    intros [Hat Ht]%andb_true_iff.
  - by rewrite (exec_unfold true ""), (exec_unfold false ""), (match_at_lower_case _ Hat).
  - rewrite (exec_unfold true (String c t)), (exec_unfold false (String c t)).
    by rewrite (match_at_lower_case _ Hat), IH.
Qed.

Lemma exec_all_lower_case s :
  lower_case_calls s = true → exec_all true s = exec_all false s.
Proof.
  induction (well_founded_ltof _ String.length s) as [s _ IH]. intros Hlow.
  rewrite !(exec_all_unfold _ s), (exec_lower_case _ Hlow).
  destruct (exec false s) as [[pre m]|] eqn:He; [|done].
  rewrite IH; [done|by eapply exec_rest_shorter|].
  apply exec_sound in He as [Hs _]. rewrite Hs, <-str_app_assoc in Hlow.
  by eapply lower_case_calls_suffix.
Qed.

(** X6.  On a text whose quoted require calls are all written in lower
    case the two passes see the same call sites: the matches of
    [getRequires] are the matches of [remapRequires], and the reference
    that [getRequires] takes out of each is the group that [remapRequires]
    hands to its callback. *)
Theorem passes_agree_in_lower_case text :
  lower_case_calls text = true →
  match_texts text = (m_text ∘ snd) <$> (exec_all false text).1 ∧
  reference_of <$> match_texts text = (m_group ∘ snd) <$> (exec_all false text).1.
Proof.
  intros Hlow. unfold match_texts. rewrite (exec_all_lower_case _ Hlow).
  split; [done|].
  destruct (exec_all false text) as [found tail] eqn:Hexec. simpl.
  pose proof (exec_all_matches _ _ _ _ Hexec) as Hmatches. clear Hexec.
  induction Hmatches as [|[pre m] found Hm _ IH]; [done|].
  rewrite !fmap_cons, IH. f_equal. simpl in *.
  by eapply reference_of_match_text.
Qed.

Lemma remapRequires_val_intro this value w :
  Forall (λ x, ∃ p module,
            resolves_to this (m_group x.2) = Some p ∧
            module ∈ LuaBundle.modules this ∧ LuaModule.path module = p)
         (exec_all false value).1 →
  ∃ out, result (LuaBundle.remapRequires this value) w = Val out.
Proof.
  rewrite remapRequires_result.
  destruct (exec_all false value) as [found tail]. simpl. intros Hall.
  assert (∃ parts, result (mapM (LuaBundle.replace_match this) found) w = Val parts)
    as [parts ->]; [|by eexists].
  induction Hall as [|[pre m] found (p & module & Hres & Hin & Hp) _ [parts IH]].
  - by exists [].
  - rewrite mapM_result_cons by apply oblivious_replace_match.
    rewrite replace_match_result, remap_call_result, IH. simpl in *. rewrite Hres.
    destruct (find (λ mod_, bool_decide (LuaModule.path mod_ = p)) _)
      as [module'|] eqn:Hfind; [by eexists|].
    eapply find_none in Hfind; [|by apply list_elem_of_In].
    by rewrite bool_decide_eq_true_2 in Hfind.
Qed.

(** X7.  [remapRequires] returns exactly when the reference of each of its
    matches resolves to a path that a module of the registry has; in
    every other case it throws. *)
Theorem remapRequires_returns_iff this value w :
  (∃ out, result (LuaBundle.remapRequires this value) w = Val out) ↔
  Forall (λ x, ∃ p module,
            resolves_to this (m_group x.2) = Some p ∧
            module ∈ LuaBundle.modules this ∧ LuaModule.path module = p)
         (exec_all false value).1.
Proof.
  split; [|apply remapRequires_val_intro].
  rewrite remapRequires_result.
  destruct (exec_all false value) as [found tail]. simpl.
  intros [out Hout].
  destruct (result (mapM _ found) w) as [parts| |] eqn:Hparts; [|done..].
  apply mapM_result_val in Hparts; [|apply oblivious_replace_match].
  clear Hout. induction Hparts as [|[pre m] part found parts Hpart _ IH]; [constructor|].
  constructor; [|done]. simpl.
  rewrite replace_match_result, remap_call_result in Hpart.
  destruct (resolves_to this (m_group m)) as [p|]; [|done].
  destruct (find _ _) as [module|] eqn:Hfind; [|done].
  apply find_some in Hfind as [Hin%list_elem_of_In Hp%bool_decide_eq_true].
  eauto.
Qed.

(** ** The registry after [bundle] *)

Lemma oblivious_run {A} (m : M A) w :
  oblivious m → ∃ evs, m w = (result m w, extend w evs).
Proof. intros (r & evs & Hm). exists evs. unfold result. by rewrite Hm. Qed.

Lemma oblivious_run_minted {A} (m : M A) w r w' :
  oblivious m → m w = (r, w') → minted w' = minted w.
Proof. intros (r0 & evs & Hm). rewrite Hm. by intros [= _ <-]. Qed.

Lemma register_loop_appends requiredFiles this w this' w' :
  forEachM LuaBundle.register requiredFiles this w = (Val this', w') →
  ∃ new,
    LuaBundle.modules this' = LuaBundle.modules this ++ new ∧
    LuaBundle.mainFile this' = LuaBundle.mainFile this ∧
    LuaBundle.baseDir this' = LuaBundle.baseDir this ∧
    minted w' = minted w + length new ∧
    LuaModule.uniqueIdentifier <$> new = uuid <$> seq (minted w) (length new) ∧
    Forall (λ m, fs !! LuaModule.path m = Some (File (LuaModule.content m))) new.
Proof.
  revert this w. induction requiredFiles as [|[luaPath resolvedPath] reqs IH];
    intros this w Hloop.
  - unfold forEachM, mret, M_ret in Hloop. simplify_eq. exists [].
    rewrite app_nil_r. split_and!; [done..|simpl; lia|done|constructor].
  - rewrite forEachM_cons in Hloop.
    apply bind_val_inv in Hloop as (this1 & w1 & Hreg & Hloop).
    apply IH in Hloop as (new & Hms & Hmain & Hbase & Hminted & Hids & Hfiles).
    rewrite register_run in Hreg. case_bool_decide; [simplify_eq; by exists new|].
    destruct (fs !! resolvedPath) as [[content|]|] eqn:Hfile; simplify_eq. simpl in *.
    eexists (_ :: new). split_and!.
    + by rewrite Hms, <-(assoc_L (++)).
    + done.
    + done.
    + simpl. lia.
    + cbn [length seq]. by rewrite !fmap_cons, Hids.
    + by constructor.
Qed.

(** X8.  A call of [bundle] that returns only appends to the registry and
    keeps the other fields of the object; it calls [randomUUID] once for
    each module it appends, in order, so that the modules appended have the
    next identifiers of the supply; and the content of each is the content
    of the file at its path. *)
Theorem bundle_appends_modules depth this w this' text w' :
  LuaBundle.bundle depth this w = (Val (this', text), w') →
  ∃ new,
    LuaBundle.modules this' = LuaBundle.modules this ++ new ∧
    LuaBundle.mainFile this' = LuaBundle.mainFile this ∧
    LuaBundle.baseDir this' = LuaBundle.baseDir this ∧
    minted w' = minted w + length new ∧
    LuaModule.uniqueIdentifier <$> new = uuid <$> seq (minted w) (length new) ∧
    Forall (λ m, fs !! LuaModule.path m = Some (File (LuaModule.content m))) new.
Proof.
  intros (main & reqs & w1 & w2 & wrapped & w3 & mainBody & Hmain & Hget & Hreg &
          Hwrap & Hbody & _)%bundle_val_inv.
  apply oblivious_run_minted in Hget; [|apply oblivious_getRequires].
  apply oblivious_run_minted in Hwrap;
    [|apply oblivious_mapM; intros; apply oblivious_wrap_module].
  apply oblivious_run_minted in Hbody; [|apply oblivious_remapRequires].
  apply register_loop_appends in Hreg as (new & ? & ? & ? & Hminted & Hids & ?).
  simpl in Hget. rewrite Hget in Hminted, Hids.
  exists new. split_and!; [done..| |done|done]. lia.
Qed.

Lemma register_loop_succeeds requiredFiles this w :
  (∀ r p, (r, p) ∈ requiredFiles → ∃ content, fs !! p = Some (File content)) →
  ∃ this' w', forEachM LuaBundle.register requiredFiles this w = (Val this', w').
Proof.
  revert this w. induction requiredFiles as [|[luaPath resolvedPath] reqs IH];
    intros this w Hfiles.
  - by eexists _, _.
  - rewrite forEachM_cons.
    assert (∃ this1 w1, LuaBundle.register this (luaPath, resolvedPath) w = (Val this1, w1))
      as (this1 & w1 & Hreg).
    { rewrite register_run. case_bool_decide; [by eexists _, _|].
      destruct (Hfiles luaPath resolvedPath) as [content ->]; [by left|].
      by eexists _, _. }
    rewrite (bind_val _ _ _ _ _ Hreg). apply IH. intros r p Hin.
    apply (Hfiles r p). by right.
Qed.

Lemma register_loop_registered requiredFiles this w :
  (∀ r, r ∈ requiredFiles.*1 → r ∈ LuaModule.identifier <$> LuaBundle.modules this) →
  forEachM LuaBundle.register requiredFiles this w = (Val this, w).
Proof.
  induction requiredFiles as [|[luaPath resolvedPath] reqs IH]; intros Hin; [done|].
  rewrite forEachM_cons.
  assert (LuaBundle.register this (luaPath, resolvedPath) w = (Val this, w)) as Hreg.
  { rewrite register_run, bool_decide_eq_true_2; [done|]. apply Hin. by left. }
  rewrite (bind_val _ _ _ _ _ Hreg). apply IH. intros r Hr. apply Hin. by right.
Qed.

Lemma register_loop_identifiers requiredFiles this w this' w' :
  forEachM LuaBundle.register requiredFiles this w = (Val this', w') →
  ∀ r, r ∈ requiredFiles.*1 → r ∈ LuaModule.identifier <$> LuaBundle.modules this'.
Proof.
  intros Hloop r Hr. rewrite <-module_key_identifier, (register_loop_keys _ _ _ _ _ Hloop).
  rewrite fmap_app, module_key_identifier, elem_of_app.
  destruct (decide (r ∈ LuaModule.identifier <$> LuaBundle.modules this)) as [?|Hnew];
    [by left|right].
  apply first_by_reference_elem. apply list_elem_of_fmap in Hr as ([r' p] & -> & Hin).
  apply list_elem_of_fmap. exists (r', p). split; [done|].
  by apply list_elem_of_filter.
Qed.

Lemma resolveRequire_baseDir this this' value w :
  LuaBundle.baseDir this = LuaBundle.baseDir this' →
  LuaBundle.resolveRequire this value w = LuaBundle.resolveRequire this' value w.
Proof. intros Hbase. unfold LuaBundle.resolveRequire. by rewrite Hbase. Qed.

Lemma getRequires_baseDir depth this this' text w :
  LuaBundle.baseDir this = LuaBundle.baseDir this' →
  result (LuaBundle.getRequires depth this text) w
  = result (LuaBundle.getRequires depth this' text) w.
Proof.
  intros Hbase. revert text. induction depth as [|d IH]; intros text; [done|].
  rewrite !getRequires_unfold.
  induction (match_texts text) as [|v vs IHvs]; [done|].
  rewrite !getRequires_step, <-(resolves_to_baseDir this this') by done.
  destruct (resolves_to this (reference_of v)) as [p|]; [|done].
  destruct (fs !! p) as [[c|]|]; [|done..]. by rewrite IH, IHvs.
Qed.

(** X9.  A second call of [bundle], on the object that a first call left,
    returns the same text and leaves the object as it is; it registers
    nothing and does not call [randomUUID]. *)
Theorem bundle_again depth this w this' text w' :
  LuaBundle.bundle depth this w = (Val (this', text), w') →
  ∀ w2, ∃ evs, LuaBundle.bundle depth this' w2 = (Val (this', text), extend w2 evs).
Proof.
  intros (main & reqs & w1 & wr & wrapped & w3 & mainBody & Hmain & Hget & Hreg &
          Hwrap & Hbody & ->)%bundle_val_inv w2.
  pose proof (register_loop_appends _ _ _ _ _ Hreg) as (new & _ & Hmain' & Hbase & _).
  pose proof (register_loop_identifiers _ _ _ _ _ Hreg) as Hids.
  unfold LuaBundle.bundle.
  assert (readFileSync (LuaBundle.mainFile this') w2
          = (Val main, extend w2 [EvRead (LuaBundle.mainFile this)])) as Hread.
  { by rewrite readFileSync_run, Hmain', Hmain. }
  rewrite (bind_val _ _ _ _ _ Hread).
  destruct (oblivious_run (LuaBundle.getRequires depth this' main)
              (extend w2 [EvRead (LuaBundle.mainFile this)])
              (oblivious_getRequires _ _ _)) as (evs1 & Hget').
  rewrite <-(getRequires_baseDir depth this this') in Hget' by done.
  rewrite (oblivious_result _ _ (extend w [EvRead (LuaBundle.mainFile this)])) in Hget'
    by apply oblivious_getRequires.
  unfold result in Hget' at 1. rewrite Hget in Hget'. simpl in Hget'.
  rewrite (bind_val _ _ _ _ _ Hget').
  rewrite (bind_val _ _ _ _ _ (register_loop_registered reqs this' _ Hids)).
  destruct (oblivious_run (mapM (LuaBundle.wrap_module this') (LuaBundle.modules this'))
              (extend (extend w2 [EvRead (LuaBundle.mainFile this)]) evs1))
    as (evs2 & Hwrap'); [apply oblivious_mapM; intros; apply oblivious_wrap_module|].
  rewrite (oblivious_result _ _ wr) in Hwrap'
    by (apply oblivious_mapM; intros; apply oblivious_wrap_module).
  unfold result in Hwrap' at 1. rewrite Hwrap in Hwrap'. simpl in Hwrap'.
  rewrite (bind_val _ _ _ _ _ Hwrap').
  destruct (oblivious_run (LuaBundle.remapRequires this' main)
              (extend (extend (extend w2 [EvRead (LuaBundle.mainFile this)]) evs1) evs2)
              (oblivious_remapRequires _ _)) as (evs3 & Hbody').
  rewrite (oblivious_result _ _ w3) in Hbody' by apply oblivious_remapRequires.
  unfold result in Hbody' at 1. rewrite Hbody in Hbody'. simpl in Hbody'.
  rewrite (bind_val _ _ _ _ _ Hbody'). rewrite !extend_extend. by eexists.
Qed.

(** ** Projects on which [bundle] returns *)

Lemma lower_case_groups text x :
  lower_case_calls text = true → x ∈ (exec_all false text).1 →
  m_text x.2 ∈ match_texts text ∧ reference_of (m_text x.2) = m_group x.2.
Proof.
  intros Hlow Hx. unfold match_texts. rewrite (exec_all_lower_case _ Hlow). split.
  - apply list_elem_of_fmap. by exists x.
  - destruct (exec_all false text) as [found tail] eqn:Hexec.
    pose proof (exec_all_matches _ _ _ _ Hexec) as Hmatches.
    rewrite Forall_forall in Hmatches. eapply reference_of_match_text, Hmatches, Hx.
Qed.

Lemma well_formed_resolves this text v :
  well_formed this text = true → v ∈ match_texts text →
  ∃ p content, resolves_to this (reference_of v) = Some p ∧
               fs !! p = Some (File content).
Proof.
  intros [_ Hall]%andb_true_iff Hv. rewrite forallb_forall in Hall.
  specialize (Hall v). rewrite <-list_elem_of_In in Hall. specialize (Hall Hv).
  destruct (resolves_to this (reference_of v)) as [p|]; [|done].
  destruct (fs !! p) as [[c|]|] eqn:Hc; [|done..]. eauto.
Qed.

Lemma reachable_files this main p :
  well_formed this main = true →
  (∀ q content, reachable this main q → fs !! q = Some (File content) →
                well_formed this content = true) →
  reachable this main p → ∃ content, fs !! p = Some (File content).
Proof.
  intros Hwf Hwfs (p0 & Hp0 & Hrtc).
  assert (∀ text q, well_formed this text = true → q ∈ required_paths this text →
                    ∃ content, fs !! q = Some (File content)) as Hstep.
  { intros text q Htext (v & Hv & Hq)%list_elem_of_omap.
    destruct (well_formed_resolves _ _ _ Htext Hv) as (q' & c & Hq' & Hc).
    simplify_eq. eauto. }
  assert (reachable this main p ∧ ∃ content, fs !! p = Some (File content))
    as [_ ?]; [|done].
  revert p Hrtc.
  apply (rtc_ind_r (λ p, reachable this main p ∧
                         ∃ content, fs !! p = Some (File content))).
  - split; [by exists p0|]. by eapply Hstep.
  - intros p1 p2 Hp1 (c1 & Hc1 & Hp2) [Hreach _]. split.
    + destruct Hreach as (p0' & ? & ?). exists p0'. split; [done|].
      eapply rtc_r; [done|]. by exists c1.
    + eapply (Hstep c1); [|done]. by eapply Hwfs.
Qed.

(** A text in good order, all of whose requires are registered, is
    remapped. *)
Lemma remapRequires_well_formed this this' text (reqs : list (string * string)) w :
  LuaBundle.baseDir this' = LuaBundle.baseDir this →
  well_formed this text = true →
  (∀ v p, v ∈ match_texts text → resolves_to this (reference_of v) = Some p →
          (reference_of v, p) ∈ reqs) →
  (∀ r p, (r, p) ∈ reqs → ∃ module, module ∈ LuaBundle.modules this' ∧
                                     LuaModule.path module = p) →
  ∃ out, result (LuaBundle.remapRequires this' text) w = Val out.
Proof.
  intros Hbase Hwf Hclosed Hregistered. apply remapRequires_val_intro.
  apply Forall_forall. intros x Hx.
  pose proof Hwf as [Hlow _]%andb_true_iff.
  destruct (lower_case_groups _ _ Hlow Hx) as [Hv Href].
  destruct (well_formed_resolves _ _ _ Hwf Hv) as (p & c & Hres & _).
  destruct (Hregistered _ _ (Hclosed _ _ Hv Hres)) as (module & Hin & Hp).
  exists p, module. split_and!; [|done..].
  by rewrite <-Href, (resolves_to_baseDir this' this).
Qed.

Lemma wrap_modules_returns this (ms : list LuaModule.t) w :
  (∀ m, m ∈ ms → ∃ body,
     result (LuaBundle.remapRequires this (LuaModule.content m)) w = Val body) →
  ∃ wrapped, result (mapM (LuaBundle.wrap_module this) ms) w = Val wrapped.
Proof.
  induction ms as [|m ms IH]; intros Hall; [by exists []|].
  destruct (Hall m) as [body Hbody]; [by left|].
  destruct IH as [wrapped Hwrapped]; [intros ??; apply Hall; by right|].
  rewrite mapM_result_cons by apply oblivious_wrap_module. rewrite Hwrapped.
  unfold LuaBundle.wrap_module at 1.
  rewrite result_bind by (intros; apply oblivious_ret). rewrite Hbody. by eexists.
Qed.

(** X10.  [bundle] returns a text for a project in good order: the entry
    is a regular file, no file it reaches requires itself, the quoted
    require calls of the entry and of every file it reaches are written in
    lower case and resolve to regular files, the registry of the object is
    empty, and the stack is deep enough: it has room for more nested calls
    than the file system has entries and, below that many calls, for the
    arguments of the spread of the list of every file reached.  In
    particular the second error of the callback of [remapRequires] (a path
    that resolves and that no module has) does not happen there. *)
Theorem bundle_returns_in_good_order depth this main w :
  LuaBundle.modules this = [] →
  fs !! LuaBundle.mainFile this = Some (File main) →
  acyclic_from this main →
  well_formed this main = true →
  (∀ p content, reachable this main p → fs !! p = Some (File content) →
                well_formed this content = true) →
  size fs < depth →
  (∀ p content requiredFiles,
     reachable this main p → fs !! p = Some (File content) →
     extracted this (match_texts content) requiredFiles →
     length requiredFiles ≤ spread_room (depth - size fs)) →
  ∃ this' text w', LuaBundle.bundle depth this w = (Val (this', text), w').
Proof.
  intros Hnil Hmain Hacyc Hwf Hwfs Hdepth Hroom.
  set (w0 := extend w [EvRead (LuaBundle.mainFile this)]).
  assert (readFileSync (LuaBundle.mainFile this) w = (Val main, w0)) as Hread.
  { by rewrite readFileSync_run, Hmain. }
  assert (∃ reqs, result (LuaBundle.getRequires depth this main) w0 = Val reqs)
    as [reqs Hreqs].
  { destruct (result (LuaBundle.getRequires depth this main) w0) as [reqs|e|] eqn:Hres.
    - by exists reqs.
    - apply getRequires_throw_inv in Hres as (p & -> & Hdir & Hreach).
      destruct (reachable_files _ _ _ Hwf Hwfs Hreach) as [c Hc]. congruence.
    - exfalso. eapply (getRequires_returns_bounded (size fs)); [|done..].
      intros l Hl. by eapply chain_length. }
  destruct (oblivious_run (LuaBundle.getRequires depth this main) w0
              (oblivious_getRequires _ _ _)) as (evs1 & Hget).
  rewrite Hreqs in Hget.
  pose proof (getRequires_extracted _ _ _ _ _ Hreqs) as Hex.
  destruct (extracted_closed _ _ _ Hex) as [Hdirect Hlisted].
  destruct (register_loop_succeeds reqs this (extend w0 evs1))
    as (this' & w2 & Hreg).
  { intros r p Hin. by destruct (extracted_sound _ _ _ Hex _ _ Hin) as (_ & ? & _). }
  pose proof (register_loop_fresh _ _ _ _ _ Hnil Hreg) as Hkeys.
  pose proof (register_loop_baseDir _ _ _ _ _ Hreg) as Hbase.
  pose proof (register_loop_identifiers _ _ _ _ _ Hreg) as Hids.
  destruct (register_loop_appends _ _ _ _ _ Hreg) as (new & Hnew & _ & _ & _ & _ & Hfiles).
  rewrite Hnil, app_nil_l in Hnew. subst new. rewrite Forall_forall in Hfiles.
  assert (∀ m, m ∈ LuaBundle.modules this' →
               (LuaModule.identifier m, LuaModule.path m) ∈ reqs) as Hpairs.
  { intros m Hm. apply first_by_reference_subseteq. rewrite <-Hkeys.
    apply list_elem_of_fmap. by exists m. }
  assert (∀ r p, (r, p) ∈ reqs →
            ∃ module, module ∈ LuaBundle.modules this' ∧ LuaModule.path module = p)
    as Hregistered.
  { intros r p Hin.
    assert (r ∈ LuaModule.identifier <$> LuaBundle.modules this') as Hr.
    { apply Hids, list_elem_of_fmap. by exists (r, p). }
    apply list_elem_of_fmap in Hr as (m & -> & Hm). exists m. split; [done|].
    destruct (extracted_sound _ _ _ Hex _ _ Hin) as (Hp & _).
    destruct (extracted_sound _ _ _ Hex _ _ (Hpairs m Hm)) as (Hp' & _).
    congruence. }
  destruct (wrap_modules_returns this' (LuaBundle.modules this') w2)
    as [wrapped Hwrapped].
  { intros m Hm. pose proof (Hfiles m Hm) as Hcontent. pose proof (Hpairs m Hm) as Hin.
    eapply (remapRequires_well_formed this this' _ reqs); [done| |by eauto|done].
    eapply Hwfs; [|done]. by eapply extracted_reachable. }
  destruct (remapRequires_well_formed this this' main reqs w2 Hbase Hwf Hdirect Hregistered)
    as [mainBody HmainBody].
  destruct (oblivious_run (mapM (LuaBundle.wrap_module this') (LuaBundle.modules this')) w2)
    as (evs2 & Hwrap); [apply oblivious_mapM; intros; apply oblivious_wrap_module|].
  rewrite Hwrapped in Hwrap.
  destruct (oblivious_run (LuaBundle.remapRequires this' main) (extend w2 evs2)
              (oblivious_remapRequires _ _)) as (evs3 & Hbody).
  rewrite (oblivious_result _ _ w2), HmainBody in Hbody by apply oblivious_remapRequires.
  unfold LuaBundle.bundle.
  rewrite (bind_val _ _ _ _ _ Hread), (bind_val _ _ _ _ _ Hget),
    (bind_val _ _ _ _ _ Hreg), (bind_val _ _ _ _ _ Hwrap), (bind_val _ _ _ _ _ Hbody).
  by eexists _, _, _.
Qed.

(** ** The entry path *)

(** X11.  The constructor returns for every entry path at which something
    exists, a directory as well as a file, after the one call of
    [existsSync].  The registry of the object is empty, and its base
    directory is never the empty text: it is the text given, or [./] when
    none or the empty text is given. *)
Theorem constructor_accepts_what_exists mainFile baseDir w :
  is_Some (fs !! mainFile) →
  ∃ this,
    LuaBundle.constructor mainFile baseDir w = (Val this, extend w [EvExists mainFile]) ∧
    LuaBundle.modules this = [] ∧
    LuaBundle.mainFile this = mainFile ∧
    LuaBundle.baseDir this ≠ "" ∧
    (∀ d, baseDir = Some d → d ≠ "" → LuaBundle.baseDir this = d) ∧
    (baseDir = None ∨ baseDir = Some "" → LuaBundle.baseDir this = "./").
Proof.
  intros Hex. unfold LuaBundle.constructor.
  rewrite (bind_val _ _ _ _ _ (existsSync_run mainFile w)).
  rewrite bool_decide_eq_true_2 by done. simpl.
  eexists. split; [reflexivity|]. simpl. split_and!; [done..| | |].
  - destruct baseDir as [d|]; [|done]. by case_bool_decide.
  - intros d -> Hd. by rewrite bool_decide_eq_false_2.
  - by intros [->| ->].
Qed.

Lemma bundle_unreadable depth this w :
  (∀ content, fs !! LuaBundle.mainFile this ≠ Some (File content)) →
  LuaBundle.bundle depth this w
  = (Throw (FsError (LuaBundle.mainFile this)),
     extend w [EvRead (LuaBundle.mainFile this)]).
Proof.
  intros Hno. unfold LuaBundle.bundle.
  apply bind_throw. rewrite readFileSync_run.
  destruct (fs !! LuaBundle.mainFile this) as [[content|]|] eqn:Hmain; [|done..].
  by destruct (Hno content).
Qed.

(** X12.  [bundle] on an entry path that names no regular file throws the
    error of the read, at every depth of the stack and whatever the
    registry holds, and the read of the entry path is the only call it
    makes.  The constructor does not exclude it: an entry path that names a
    directory passes the constructor, and the object it makes fails in
    [bundle]. *)
Theorem bundle_unreadable_entry :
  (∀ depth this w,
     (∀ content, fs !! LuaBundle.mainFile this ≠ Some (File content)) →
     LuaBundle.bundle depth this w
     = (Throw (FsError (LuaBundle.mainFile this)),
        extend w [EvRead (LuaBundle.mainFile this)])) ∧
  (∀ mainFile baseDir w,
     fs !! mainFile = Some Directory →
     ∃ this,
       LuaBundle.constructor mainFile baseDir w
       = (Val this, extend w [EvExists mainFile]) ∧
       ∀ depth w1,
         LuaBundle.bundle depth this w1
         = (Throw (FsError mainFile), extend w1 [EvRead mainFile])).
Proof.
  split; [apply bundle_unreadable|].
  intros mainFile baseDir w Hdir. unfold LuaBundle.constructor.
  rewrite (bind_val _ _ _ _ _ (existsSync_run mainFile w)).
  rewrite bool_decide_eq_true_2 by (by rewrite Hdir). simpl.
  eexists. split; [reflexivity|]. intros depth w1.
  rewrite bundle_unreadable; [done|]. simpl. intros content. by rewrite Hdir.
Qed.

(** ** The script *)




(** ** What the expression matches *)

Lemma literal_length ic pat s used rest :
  literal ic pat s = Some (used, rest) → String.length used = String.length pat.
Proof.
  revert s used rest. induction pat as [|p pat IH]; intros s used rest.
  - rewrite literal_nil. by intros [= <- <-].
  - rewrite literal_cons. destruct s as [|c s]; [done|].
    destruct (char_matches ic p c); [|done].
    destruct (literal ic pat s) as [[u r]|] eqn:Hrec; intros; simplify_eq/=.
    f_equal. by eapply IH.
Qed.

Lemma lazy_group_shortest s g q rest :
  lazy_group s = Some (g, q, rest) →
  Forall (λ c, is_line_terminator c = false) (list_ascii_of_string g) ∧
  ∀ g1 c g2, g = g1 +:+ String c (String rparen g2) → is_quote c = false.
Proof.
  revert g q rest. induction s as [|c t IH]; intros g q rest; [done|].
  destruct (lazy_group_cases c t) as [(rest0 & Hc & ->)|Hlater].
  - rewrite lazy_group_now by done. intros [= <- <- <-]. split; [constructor|].
    by intros [|??] ???.
  - rewrite lazy_group_later by done.
    destruct (is_line_terminator c) eqn:Hlt; [done|].
    destruct (lazy_group t) as [[[g' q'] rest']|] eqn:Hrec; [|done].
    intros [= <- <- <-].
    destruct (IH _ _ _ eq_refl) as [Hall Hmin]. split; [by constructor|].
    intros [|c1 g1] c0 g2 Heq.
    + rewrite str_app_nil_l in Heq. injection Heq as <- ->.
      destruct (is_quote c) eqn:Hq; [|done].
      apply lazy_group_sound in Hrec as [Ht _]. rewrite str_app_cons in Ht.
      by destruct (Hlater eq_refl _ Ht).
    + rewrite str_app_cons in Heq. injection Heq as <- ->. by eapply Hmin.
Qed.

Lemma match_at_group ic s m :
  match_at ic s = Some m →
  11 ≤ String.length (m_text m) ∧
  Forall (λ c, is_line_terminator c = false) (list_ascii_of_string (m_group m)) ∧
  ∀ g1 c g2, m_group m = g1 +:+ String c (String rparen g2) → is_quote c = false.
Proof.
  unfold match_at. intros Hm.
  destruct (literal ic "require(" s) as [[kw s1]|] eqn:Hlit; [|done]. simpl in Hm.
  destruct s1 as [|q s2]; [done|].
  destruct (is_quote q) eqn:Hq; [|done].
  destruct (lazy_group s2) as [[[g q'] rest]|] eqn:Hg; [|done].
  injection Hm as <-. simpl.
  apply literal_length in Hlit. apply lazy_group_shortest in Hg as [Hall Hmin].
  split_and!; [|done..].
  rewrite !str_length_app, Hlit. simpl. lia.
Qed.

Lemma exec_leftmost ic s pre m :
  exec ic s = Some (pre, m) →
  ∀ a b, pre = a +:+ b → b ≠ "" → match_at ic (b +:+ m_text m +:+ m_rest m) = None.
Proof.
  revert pre. induction s as [|c t IH]; intros pre He.
  - by rewrite exec_unfold, match_at_nil in He.
  - pose proof (exec_sound _ _ _ _ He) as [Hs _]. rewrite exec_unfold in He.
    destruct (match_at ic (String c t)) as [m'|] eqn:Hm.
    + injection He as <- <-. by intros [|??] [|??] ??.
    + destruct (exec ic t) as [[pre' m']|] eqn:Hrec; [|done]. simpl in He.
      injection He as <- <-. intros [|c' a] b Hab Hb.
      * rewrite str_app_nil_l in Hab. subst b. by rewrite <-Hs.
      * rewrite str_app_cons in Hab. injection Hab as <- ->. by eapply IH.
Qed.

(** X14.  A match of the expression, with or without the [i] flag, is the
    leftmost one: the text is the text skipped, the match and the rest, and
    the expression matches at no position of the text skipped.  It is at
    least eleven code units long.  Its reference stays on one line, and it
    is the shortest one: it has no quote character in front of a closing
    parenthesis, where the match would have ended earlier. *)
Theorem exec_leftmost_shortest ic s pre m :
  exec ic s = Some (pre, m) →
  s = pre +:+ m_text m +:+ m_rest m ∧
  (∀ a b, pre = a +:+ b → b ≠ "" →
          match_at ic (b +:+ m_text m +:+ m_rest m) = None) ∧
  11 ≤ String.length (m_text m) ∧
  Forall (λ c, is_line_terminator c = false) (list_ascii_of_string (m_group m)) ∧
  (∀ g1 c g2, m_group m = g1 +:+ String c (String rparen g2) → is_quote c = false).
Proof.
  intros He. pose proof (exec_sound _ _ _ _ He) as [Hs Hm].
  apply match_at_group in Hm as (Hlen & Hline & Hshort).
  split_and!; [done| |done..]. by eapply exec_leftmost.
Qed.

(** X15.  The loop of a global expression finds every match: the text is
    the matches found, the texts between them and the tail, in order; each
    match is the leftmost one of what is left of the text after the match
    before it; and the loop stops only on a tail without match.  A text has
    at most one match for every eleven of its code units. *)
Theorem exec_all_finds_every_match ic s found tail :
  exec_all ic s = (found, tail) →
  s = unmatch found tail ∧
  (∀ i x, found !! i = Some x →
          exec ic (unmatch (drop i found) tail) = Some x ∧
          m_rest x.2 = unmatch (drop (S i) found) tail) ∧
  exec ic tail = None ∧
  11 * length found + String.length tail ≤ String.length s.
Proof.
  revert s found tail. apply exec_all_ind.
  - intros s Hnone. split_and!; [done| |done|simpl; lia].
    intros i x Hi. by rewrite lookup_nil in Hi.
  - intros s pre m found tail He Hrec (Hs & Hfound & Htail & Hlen).
    pose proof (exec_sound _ _ _ _ He) as [Hs' Hm].
    apply match_at_group in Hm as (Hm & _).
    split_and!.
    + by rewrite unmatch_cons, <-Hs.
    + intros [|i] x Hi; simpl in Hi.
      * injection Hi as <-. by rewrite drop_0, unmatch_cons, <-Hs, <-Hs'.
      * by apply Hfound.
    + done.
    + rewrite Hs', !str_length_app. simpl. lia.
Qed.

(** ** The files read *)

Lemma reads_app evs1 evs2 : reads (evs1 ++ evs2) = reads evs1 ++ reads evs2.
Proof. apply omap_app. Qed.

Lemma probes_only_ret {A} (a : A) : probes_only (mret a).
Proof. intros w. exists []. by rewrite extend_nil. Qed.

Lemma probes_only_throw {A} e : probes_only (throw (A:=A) e).
Proof. intros w. exists []. by rewrite extend_nil. Qed.

Lemma probes_only_bind {A B} (m : M A) (f : A → M B) :
  probes_only m → (∀ a, probes_only (f a)) → probes_only (m ≫= f).
Proof.
  intros Hm Hf w. destruct (Hm w) as (evs & Hw & Hevs). rewrite bind_unfold.
  destruct (m w) as [[a|e|] w1]; simpl in Hw; subst w1; [|by exists evs..].
  destruct (Hf a (extend w evs)) as (evs' & Hw' & Hevs').
  exists (evs ++ evs'). by rewrite Hw', extend_extend, reads_app, Hevs, Hevs'.
Qed.

Lemma probes_only_mapM {A B} (f : A → M B) l :
  (∀ a, probes_only (f a)) → probes_only (mapM f l).
Proof.
  intros Hf. induction l as [|x l IH]; simpl; [apply probes_only_ret|].
  apply probes_only_bind; [done|]. intros y.
  apply probes_only_bind; [done|]. intros k. apply probes_only_ret.
Qed.

Lemma probes_only_resolveRequire this value :
  probes_only (LuaBundle.resolveRequire this value).
Proof.
  intros w. rewrite resolveRequire_cases. repeat case_bool_decide; by eexists.
Qed.

Lemma probes_only_remapRequires this value :
  probes_only (LuaBundle.remapRequires this value).
Proof.
  unfold LuaBundle.remapRequires. destruct (exec_all false value) as [found tail].
  apply probes_only_bind; [|intros; apply probes_only_ret].
  apply probes_only_mapM. intros x. unfold LuaBundle.replace_match.
  apply probes_only_bind; [|intros; apply probes_only_ret].
  unfold LuaBundle.remap_call.
  apply probes_only_bind; [apply probes_only_resolveRequire|].
  intros [p|]; [|apply probes_only_throw].
  destruct (find _ _); [apply probes_only_ret|apply probes_only_throw].
Qed.

Lemma probes_only_wrap_module this module :
  probes_only (LuaBundle.wrap_module this module).
Proof.
  unfold LuaBundle.wrap_module.
  apply probes_only_bind; [apply probes_only_remapRequires|].
  intros; apply probes_only_ret.
Qed.

Lemma probes_only_run {A} (m : M A) w r w' :
  probes_only m → m w = (r, w') → ∃ evs, w' = extend w evs ∧ reads evs = [].
Proof. intros Hm Hrun. destruct (Hm w) as (evs & Hw & Hevs). rewrite Hrun in Hw. eauto. Qed.

Lemma visit_loop_reads depth this vs acc w reqs w' :
  (∀ text w reqs w',
     LuaBundle.getRequires depth this text w = (Val reqs, w') →
     ∃ evs, w' = extend w evs ∧ reads evs = reqs.*2) →
  forEachM (LuaBundle.visit (LuaBundle.getRequires depth this)
              (spread_room depth) this) vs acc w
  = (Val reqs, w') →
  ∃ evs rest, w' = extend w evs ∧ reqs = acc ++ rest ∧ reads evs = rest.*2.
Proof.
  intros IH. revert acc w. induction vs as [|v vs IHvs]; intros acc w Hloop.
  - unfold forEachM, mret, M_ret in Hloop. simplify_eq. exists [], [].
    by rewrite extend_nil, app_nil_r.
  - rewrite forEachM_cons in Hloop.
    apply bind_val_inv in Hloop as (acc1 & w1 & Hvisit & Hloop).
    apply IHvs in Hloop as (evs2 & rest2 & -> & -> & Hevs2).
    unfold LuaBundle.visit in Hvisit.
    apply bind_val_inv in Hvisit as (resolved & w0 & Hres & Hvisit).
    apply (probes_only_run _ _ _ _ (probes_only_resolveRequire _ _)) in Hres
      as (evs0 & -> & Hevs0).
    destruct resolved as [p|].
    + apply bind_val_inv in Hvisit as (content & wr & Hread & Hvisit).
      rewrite readFileSync_run in Hread. injection Hread as _ <-.
      apply bind_val_inv in Hvisit as (deps & wd & Hdeps & Hvisit).
      apply IH in Hdeps as (evsd & -> & Hevsd).
      case_bool_decide; [|done].
      unfold mret, M_ret in Hvisit. injection Hvisit as <- <-.
      eexists _, _. rewrite !extend_extend. split; [reflexivity|].
      split; [by rewrite <-!(assoc_L (++))|].
      rewrite !reads_app, Hevs0, Hevsd, Hevs2, !fmap_app. done.
    + unfold mret, M_ret in Hvisit. injection Hvisit as <- <-.
      eexists _, _. rewrite !extend_extend. split; [reflexivity|]. split; [done|].
      by rewrite reads_app, Hevs0.
Qed.

Lemma getRequires_run_reads depth this text w reqs w' :
  LuaBundle.getRequires depth this text w = (Val reqs, w') →
  ∃ evs, w' = extend w evs ∧ reads evs = reqs.*2.
Proof.
  revert text w reqs w'. induction depth as [|d IH]; intros text w reqs w'; [done|].
  rewrite getRequires_unfold. intros Hloop.
  apply (visit_loop_reads _ _ _ _ _ _ _ IH) in Hloop as (evs & rest & -> & -> & Hevs).
  by exists evs.
Qed.

(** X16.  [getRequires] reads the files it lists and no other: when it
    returns, the paths handed to [readFileSync] during the call are the
    paths of the pairs returned, in the same order and as many times (a
    file required twice is read twice); and [randomUUID] is not called. *)
Theorem getRequires_reads_what_it_lists depth this text w requiredFiles w' :
  LuaBundle.getRequires depth this text w = (Val requiredFiles, w') →
  ∃ evs, trace w' = trace w ++ evs ∧ minted w' = minted w ∧
         reads evs = requiredFiles.*2.
Proof.
  revert text w requiredFiles w'.
  induction depth as [|d IH]; intros text w reqs w'; [done|].
  rewrite getRequires_unfold. intros Hloop.
  eapply visit_loop_reads in Hloop as (evs & rest & -> & -> & Hevs).
  - by exists evs.
  - clear -IH. intros text w reqs w' Hrun.
    destruct (IH _ _ _ _ Hrun) as (evs & Htrace & Hminted & Hevs).
    exists evs. split; [|done]. destruct w, w'. unfold extend. simpl in *. congruence.
Qed.

Lemma register_loop_reads requiredFiles this w this' w' :
  forEachM LuaBundle.register requiredFiles this w = (Val this', w') →
  ∃ evs new,
    trace w' = trace w ++ evs ∧
    LuaBundle.modules this' = LuaBundle.modules this ++ new ∧
    reads evs = LuaModule.path <$> new.
Proof.
  revert this w. induction requiredFiles as [|[luaPath resolvedPath] reqs IH];
    intros this w Hloop.
  - unfold forEachM, mret, M_ret in Hloop. simplify_eq. exists [], [].
    by rewrite !app_nil_r.
  - rewrite forEachM_cons in Hloop.
    apply bind_val_inv in Hloop as (this1 & w1 & Hreg & Hloop).
    apply IH in Hloop as (evs & new & Htrace & Hms & Hevs).
    rewrite register_run in Hreg. case_bool_decide; [simplify_eq; by exists evs, new|].
    destruct (fs !! resolvedPath) as [[content|]|] eqn:Hfile; simplify_eq. simpl in *.
    eexists ([EvRead resolvedPath; EvUUID] ++ evs), (_ :: new). split_and!.
    + by rewrite Htrace, <-(assoc_L (++)).
    + by rewrite Hms, <-(assoc_L (++)).
    + rewrite reads_app, Hevs. done.
Qed.

(** X17.  The files that [bundle] reads, when it returns: the entry file,
    then the files of the pairs that the extraction returns, once for each
    pair, then the file of each module it appends to the registry.  So the
    file of a module is read a second time when the module is made, and
    [remapRequires] reads nothing. *)
Theorem bundle_reads_entry_listed_registered depth this w this' text w' :
  LuaBundle.bundle depth this w = (Val (this', text), w') →
  ∃ main requiredFiles new evs,
    fs !! LuaBundle.mainFile this = Some (File main) ∧
    (∀ w0, result (LuaBundle.getRequires depth this main) w0 = Val requiredFiles) ∧
    LuaBundle.modules this' = LuaBundle.modules this ++ new ∧
    trace w' = trace w ++ evs ∧
    reads evs = LuaBundle.mainFile this :: requiredFiles.*2 ++ (LuaModule.path <$> new).
Proof.
  intros (main & reqs & w1 & w2 & wrapped & w3 & mainBody & Hmain & Hget & Hreg &
          Hwrap & Hbody & _)%bundle_val_inv.
  assert (∀ w0, result (LuaBundle.getRequires depth this main) w0 = Val reqs) as Hres.
  { intros w0. rewrite (oblivious_result _ _ (extend w [EvRead (LuaBundle.mainFile this)]))
      by apply oblivious_getRequires.
    unfold result. by rewrite Hget. }
  apply getRequires_run_reads in Hget as (evs1 & -> & Hevs1).
  apply register_loop_reads in Hreg as (evs2 & new & Htrace2 & Hnew & Hevs2).
  eapply probes_only_run in Hwrap as (evs3 & -> & Hevs3);
    [|apply probes_only_mapM, probes_only_wrap_module].
  eapply probes_only_run in Hbody as (evs4 & -> & Hevs4);
    [|apply probes_only_remapRequires].
  exists main, reqs, new, ([EvRead (LuaBundle.mainFile this)] ++ evs1 ++ evs2 ++ evs3 ++ evs4).
  split_and!; [done..| |].
  - simpl in *. rewrite Htrace2. by rewrite <-!(assoc_L (++)).
  - rewrite !reads_app, Hevs1, Hevs2, Hevs3, Hevs4, !app_nil_r. done.
Qed.

(** ** The errors of [bundle] *)

Lemma mapM_result_throw {A B} (f : A → M B) l w e :
  (∀ a, oblivious (f a)) →
  result (mapM f l) w = Throw e → ∃ x, x ∈ l ∧ result (f x) w = Throw e.
Proof.
  intros Hf. induction l as [|x l IH]; [done|].
  rewrite mapM_result_cons by done.
  destruct (result (f x) w) as [y|e'|] eqn:Hx; simpl; [| |done].
  - destruct (result (mapM f l) w) as [k|e'|]; simpl; [done| |done].
    intros [= <-]. destruct IH as (x' & ? & ?); [done|]. exists x'. split; [by right|done].
  - intros [= <-]. exists x. split; [by left|done].
Qed.

Lemma remapRequires_throw this value w e :
  result (LuaBundle.remapRequires this value) w = Throw e →
  ∃ x, x ∈ (exec_all false value).1 ∧ e = LuaBundle.not_found (m_group x.2) ∧
       ∀ module, module ∈ LuaBundle.modules this →
                 resolves_to this (m_group x.2) ≠ Some (LuaModule.path module).
Proof.
  rewrite remapRequires_result.
  destruct (result (mapM _ _) w) as [parts|e'|] eqn:Hparts; simpl; [done| |done].
  intros [= <-].
  apply mapM_result_throw in Hparts as ([pre m] & Hin & Hx);
    [|apply oblivious_replace_match].
  exists (pre, m). split; [done|]. simpl.
  rewrite replace_match_result, remap_call_result in Hx.
  destruct (resolves_to this (m_group m)) as [p|]; [|by simplify_eq/=].
  destruct (find _ _) as [module|] eqn:Hfind; [done|]. simpl in Hx.
  split; [congruence|]. intros module Hin' [= ->].
  eapply find_none in Hfind; [|by apply list_elem_of_In].
  by rewrite bool_decide_eq_true_2 in Hfind.
Qed.

(** X18.  The errors that [bundle] throws are of three kinds and no other:
    the error of the read of an entry path that names no regular file; the
    error of the read of a directory that a reference resolves to, thrown
    by the extraction; and the error of [remapRequires], thrown after the
    registry is filled, for a reference of the entry file or of the content
    of a module that resolves to the path of no module.  The reads that
    fill the registry throw nothing, the extraction has read the same
    files before. *)
Theorem bundle_throws_only depth this w e w' :
  LuaBundle.bundle depth this w = (Throw e, w') →
  (e = FsError (LuaBundle.mainFile this) ∧
   ∀ content, fs !! LuaBundle.mainFile this ≠ Some (File content)) ∨
  (∃ main p,
     fs !! LuaBundle.mainFile this = Some (File main) ∧
     e = FsError p ∧ fs !! p = Some Directory ∧ reachable this main p) ∨
  (∃ main requiredFiles w1 this' w2 text x,
     fs !! LuaBundle.mainFile this = Some (File main) ∧
     LuaBundle.getRequires depth this main (extend w [EvRead (LuaBundle.mainFile this)])
     = (Val requiredFiles, w1) ∧
     forEachM LuaBundle.register requiredFiles this w1 = (Val this', w2) ∧
     (text = main ∨ ∃ module, module ∈ LuaBundle.modules this' ∧
                              text = LuaModule.content module) ∧
     x ∈ (exec_all false text).1 ∧
     e = LuaBundle.not_found (m_group x.2) ∧
     ∀ module, module ∈ LuaBundle.modules this' →
               resolves_to this' (m_group x.2) ≠ Some (LuaModule.path module)).
Proof.
  unfold LuaBundle.bundle. rewrite bind_unfold, readFileSync_run.
  destruct (fs !! LuaBundle.mainFile this) as [[main|]|] eqn:Hmain;
    [|intros [= <- _]; by left..].
  set (w0 := extend w [EvRead (LuaBundle.mainFile this)]).
  rewrite bind_unfold.
  destruct (LuaBundle.getRequires depth this main w0) as [[reqs|e1|] w1] eqn:Hget;
    [| |done].
  - rewrite bind_unfold.
    destruct (forEachM LuaBundle.register reqs this w1) as [[this'|e2|] w2] eqn:Hreg;
      [| |done].
    + intros Hrun. right; right.
      assert (∃ text x,
                (text = main ∨ ∃ module, module ∈ LuaBundle.modules this' ∧
                                         text = LuaModule.content module) ∧
                x ∈ (exec_all false text).1 ∧
                e = LuaBundle.not_found (m_group x.2) ∧
                ∀ module, module ∈ LuaBundle.modules this' →
                          resolves_to this' (m_group x.2) ≠ Some (LuaModule.path module))
        as (text & x & ?); [|by exists main, reqs, w1, this', w2, text, x].
      rewrite bind_unfold in Hrun.
      destruct (mapM (LuaBundle.wrap_module this') (LuaBundle.modules this') w2)
        as [[wrapped|e3|] w3] eqn:Hwrap; [| |done].
      * rewrite bind_unfold in Hrun.
        destruct (LuaBundle.remapRequires this' main w3) as [[body|e4|] w4] eqn:Hbody;
          [done| |done].
        injection Hrun as <- <-.
        assert (result (LuaBundle.remapRequires this' main) w3 = Throw e4) as Hres
          by (unfold result; by rewrite Hbody).
        apply remapRequires_throw in Hres as (x & ? & ? & ?).
        exists main, x. split_and!; [by left|done..].
      * injection Hrun as <- <-.
        assert (result (mapM (LuaBundle.wrap_module this') (LuaBundle.modules this')) w2
                = Throw e3) as Hres by (unfold result; by rewrite Hwrap).
        apply mapM_result_throw in Hres as (module & Hin & Hres);
          [|apply oblivious_wrap_module].
        unfold LuaBundle.wrap_module in Hres.
        rewrite result_bind in Hres by (intros; apply oblivious_ret).
        destruct (result (LuaBundle.remapRequires this' (LuaModule.content module)) w2)
          as [body|e4|] eqn:Hbody; [done| |done].
        simpl in Hres. injection Hres as ->.
        apply remapRequires_throw in Hbody as (x & ? & ? & ?).
        exists (LuaModule.content module), x. split_and!; [right; eauto|done..].
    + intros _. exfalso.
      assert (result (LuaBundle.getRequires depth this main) w0 = Val reqs) as Hres
        by (unfold result; by rewrite Hget).
      apply getRequires_extracted in Hres.
      destruct (register_loop_succeeds reqs this w1) as (this' & w2' & Hreg').
      { intros r p Hin. by destruct (extracted_sound _ _ _ Hres _ _ Hin) as (_ & ? & _). }
      congruence.
  - intros [= <- _]. right; left.
    assert (result (LuaBundle.getRequires depth this main) w0 = Throw e1) as Hres
      by (unfold result; by rewrite Hget).
    apply getRequires_throw_inv in Hres as (p & ? & ? & ?). by exists main, p.
Qed.

(** Good order need only be checked on the entries of the file system. *)
Lemma well_formed_by_entries this :
  forallb (λ '(p, e),
             match e with
             | File content => well_formed this content
             | Directory => true
             end) (map_to_list fs) = true →
  ∀ p content, fs !! p = Some (File content) → well_formed this content = true.
Proof.
  intros Hcheck p content Hp. rewrite forallb_forall in Hcheck.
  apply (Hcheck (p, File content)). by apply list_elem_of_In, elem_of_map_to_list.
Qed.

(** ** Call sites that only the first pass sees *)

Lemma literal_more ic pat s used rest b :
  literal ic pat s = Some (used, rest) →
  literal ic pat (s +:+ b) = Some (used, rest +:+ b).
Proof.
  revert s used rest. induction pat as [|p pat IH]; intros s used rest.
  - rewrite !literal_nil. by intros [= <- <-].
  - rewrite literal_cons. destruct s as [|c s]; [done|].
    rewrite str_app_cons, literal_cons.
    destruct (char_matches ic p c); [|done].
    destruct (literal ic pat s) as [[u r]|] eqn:Hrec; [|done].
    intros [= <- <-]. by rewrite (IH _ _ _ Hrec).
Qed.

Lemma quoted_call_at_more ic v b :
  quoted_call_at ic v = true → quoted_call_at ic (v +:+ b) = true.
Proof.
  unfold quoted_call_at.
  destruct (literal ic "require(" v) as [[kw [|q r]]|] eqn:Hlit; [done| |done].
  intros Hq. by rewrite (literal_more _ _ _ _ _ b Hlit), str_app_cons.
Qed.

Lemma quoted_call_free_unfold ic s :
  quoted_call_free ic s =
  negb (quoted_call_at ic s) &&
  match s with
  | "" => true
  | String _ t => quoted_call_free ic t
  end.
Proof. by destruct s. Qed.

Lemma quoted_call_free_suffix ic a b :
  quoted_call_free ic (a +:+ b) = true → quoted_call_free ic b = true.
Proof.
  induction a as [|c a IH]; [done|]. rewrite str_app_cons, quoted_call_free_unfold.
  intros [_ ?]%andb_true_iff. auto.
Qed.

Lemma quoted_call_free_prefix ic v b :
  quoted_call_free ic (v +:+ b) = true → quoted_call_free ic v = true.
Proof.
  induction v as [|c v IH]; [done|].
  rewrite (quoted_call_free_unfold ic (String c v +:+ b)),
    (quoted_call_free_unfold ic (String c v)), str_app_cons.
  intros [Hat Hfree]%andb_true_iff. apply andb_true_iff. split; [|by apply IH].
  apply negb_true_iff. apply negb_true_iff in Hat.
  destruct (quoted_call_at ic (String c v)) eqn:Hv; [|done].
  apply (quoted_call_at_more _ _ b) in Hv. rewrite str_app_cons in Hv. congruence.
Qed.

Lemma exec_all_substrings ic s found tail :
  exec_all ic s = (found, tail) →
  Forall (λ x, ∃ a b, s = a +:+ m_text x.2 +:+ b) found.
Proof.
  revert s found tail. apply exec_all_ind; [constructor|].
  intros s pre m found tail [Hs _]%exec_sound _ IH. constructor.
  - by exists pre, (m_rest m).
  - eapply Forall_impl; [done|]. intros x (a & b & Hrest).
    exists (pre +:+ m_text m +:+ a), b.
    by rewrite Hs, Hrest, !str_app_assoc.
Qed.

(** X19.  A text whose quoted require calls are all written with a capital
    letter somewhere: [remapRequires], whose expression has no [i] flag,
    returns it as it is and throws nothing.  [getRequires], whose first
    expression has the flag, still matches those calls, but its second
    expression has not, so the reference it looks up for such a match is
    the whole text of the call and not its argument. *)
Theorem capital_calls_looked_up_whole text :
  quoted_call_free false text = true →
  (∀ this w, result (LuaBundle.remapRequires this text) w = Val text) ∧
  (∀ v, v ∈ match_texts text → reference_of v = v).
Proof.
  intros Hfree. split.
  - intros this w. rewrite remapRequires_result.
    by rewrite exec_all_none by by apply quoted_call_free_exec.
  - intros v (x & -> & Hx)%list_elem_of_fmap.
    destruct (exec_all true text) as [found tail] eqn:Hexec.
    apply exec_all_substrings in Hexec. rewrite Forall_forall in Hexec.
    destruct (Hexec x Hx) as (a & b & Htext). simpl.
    unfold reference_of, replace_first_by_group.
    rewrite quoted_call_free_exec; [done|].
    rewrite Htext in Hfree.
    by eapply quoted_call_free_prefix, quoted_call_free_suffix.
Qed.

(** ** The lists that are spread *)

Lemma extracted_functional this vs reqs reqs' :
  extracted this vs reqs → extracted this vs reqs' → reqs = reqs'.
Proof.
  intros Hex. revert reqs'.
  induction Hex as [|v vs rest Hv _ IH|v vs p c deps rest Hv Hc _ IHdeps _ IHrest];
    intros reqs' Hex'; inversion Hex'; simplify_eq; [done|by apply IH|].
  f_equal. f_equal; [by apply IHdeps|by apply IHrest].
Qed.

(** The room for the lists need only be checked on the entries of the file
    system, with the list that a call deep enough returns for each. *)
Lemma spread_fits_by_entries this depth room :
  forallb (λ '(p, e),
             match e with
             | File content =>
                 match result (LuaBundle.getRequires depth this content) initial_world with
                 | Val reqs => bool_decide (length reqs ≤ room)
                 | _ => false
                 end
             | Directory => true
             end) (map_to_list fs) = true →
  ∀ p content reqs,
    fs !! p = Some (File content) → extracted this (match_texts content) reqs →
    length reqs ≤ room.
Proof.
  intros Hcheck p content reqs Hp Hex. rewrite forallb_forall in Hcheck.
  specialize (Hcheck (p, File content)). simpl in Hcheck.
  destruct (result (LuaBundle.getRequires depth this content) initial_world)
    as [reqs'| |] eqn:Hres.
  - apply getRequires_extracted in Hres.
    rewrite (extracted_functional _ _ _ _ Hex Hres).
    eapply bool_decide_eq_true_1, Hcheck. by apply list_elem_of_In, elem_of_map_to_list.
  - discriminate Hcheck. by apply list_elem_of_In, elem_of_map_to_list.
  - discriminate Hcheck. by apply list_elem_of_In, elem_of_map_to_list.
Qed.

(** ** References that do not resolve *)

Lemma reachable_listed this text reqs p :
  extracted this (match_texts text) reqs → reachable this text p →
  ∃ r, (r, p) ∈ reqs.
Proof.
  intros Hex (p0 & Hp0 & Hrtc).
  destruct (extracted_closed _ _ _ Hex) as [Hdirect Hlisted].
  revert p Hrtc. apply rtc_ind_r.
  - apply list_elem_of_omap in Hp0 as (v & Hv & Hres). eauto.
  - intros q q' _ (content & Hq & (v & Hv & Hres)%list_elem_of_omap) [r Hr]. eauto.
Qed.

(** On an object whose registry was empty every file reached has its
    module. *)
Lemma reachable_registered depth this main w0 reqs w1 this' w2 p content :
  LuaBundle.modules this = [] →
  result (LuaBundle.getRequires depth this main) w0 = Val reqs →
  forEachM LuaBundle.register reqs this w1 = (Val this', w2) →
  reachable this main p → fs !! p = Some (File content) →
  ∃ module, module ∈ LuaBundle.modules this' ∧
            LuaModule.path module = p ∧ LuaModule.content module = content.
Proof.
  intros Hnil Hex%getRequires_extracted Hreg Hreach Hfile.
  destruct (reachable_listed _ _ _ _ Hex Hreach) as [r Hin].
  pose proof (register_loop_fresh _ _ _ _ _ Hnil Hreg) as Hkeys.
  destruct (register_loop_appends _ _ _ _ _ Hreg) as (new & Hnew & _ & _ & _ & _ & Hfiles).
  rewrite Hnil, app_nil_l in Hnew. subst new. rewrite Forall_forall in Hfiles.
  assert (r ∈ LuaModule.identifier <$> LuaBundle.modules this') as Hr.
  { eapply register_loop_identifiers; [done|]. apply list_elem_of_fmap. by exists (r, p). }
  apply list_elem_of_fmap in Hr as (m & -> & Hm). exists m.
  assert (LuaModule.path m = p) as Hpath.
  { assert ((LuaModule.identifier m, LuaModule.path m) ∈ reqs) as Hin'.
    { apply first_by_reference_subseteq. rewrite <-Hkeys.
      apply list_elem_of_fmap. by exists m. }
    destruct (extracted_sound _ _ _ Hex _ _ Hin) as (Hp & _).
    destruct (extracted_sound _ _ _ Hex _ _ Hin') as (Hp' & _). congruence. }
  split_and!; [done..|]. pose proof (Hfiles m Hm) as Hcontent.
  rewrite Hpath, Hfile in Hcontent. congruence.
Qed.

(** Once the extraction has returned, what [bundle] throws is the error of
    [remapRequires]. *)
Lemma bundle_after_extraction depth this w main reqs e :
  fs !! LuaBundle.mainFile this = Some (File main) →
  result (LuaBundle.getRequires depth this main) w = Val reqs →
  result (LuaBundle.bundle depth this) w = Throw e →
  ∃ value, e = LuaBundle.not_found value.
Proof.
  intros Hmain Hreqs. unfold result at 1, LuaBundle.bundle.
  set (w0 := extend w [EvRead (LuaBundle.mainFile this)]).
  assert (readFileSync (LuaBundle.mainFile this) w = (Val main, w0)) as Hread
    by by rewrite readFileSync_run, Hmain.
  rewrite (bind_val _ _ _ _ _ Hread).
  destruct (oblivious_run (LuaBundle.getRequires depth this main) w0
              (oblivious_getRequires _ _ _)) as (evs1 & Hget).
  rewrite (oblivious_result _ w0 w), Hreqs in Hget by apply oblivious_getRequires.
  rewrite (bind_val _ _ _ _ _ Hget).
  destruct (register_loop_succeeds reqs this (extend w0 evs1)) as (this' & w2 & Hreg).
  { intros r p Hin. apply getRequires_extracted in Hreqs.
    by destruct (extracted_sound _ _ _ Hreqs _ _ Hin) as (_ & ? & _). }
  rewrite (bind_val _ _ _ _ _ Hreg), bind_unfold.
  destruct (mapM (LuaBundle.wrap_module this') (LuaBundle.modules this') w2)
    as [[wrapped|e3|] w3] eqn:Hwrap; [| |done].
  - rewrite bind_unfold.
    destruct (LuaBundle.remapRequires this' main w3) as [[body|e4|] w4] eqn:Hbody;
      [done| |done].
    simpl. intros [= <-].
    assert (result (LuaBundle.remapRequires this' main) w3 = Throw e4) as Hres
      by (unfold result; by rewrite Hbody).
    apply remapRequires_throw in Hres as (x & _ & ? & _). eauto.
  - simpl. intros [= <-].
    assert (result (mapM (LuaBundle.wrap_module this') (LuaBundle.modules this')) w2
            = Throw e3) as Hres by (unfold result; by rewrite Hwrap).
    apply mapM_result_throw in Hres as (module & Hin & Hres);
      [|apply oblivious_wrap_module].
    unfold LuaBundle.wrap_module in Hres.
    rewrite result_bind in Hres by (intros; apply oblivious_ret).
    destruct (result (LuaBundle.remapRequires this' (LuaModule.content module)) w2)
      as [body|e4|] eqn:Hbody; [done| |done].
    simpl in Hres. injection Hres as ->.
    apply remapRequires_throw in Hbody as (x & _ & ? & _). eauto.
Qed.

(** C4.  A match whose reference does not resolve is passed over by the
    extraction: the loop of [getRequires] gives what it gives without that
    match, no error comes from it, and no reference that does not resolve
    is in the list returned.  For a call site written in lower case the
    reference of the extraction is the reference that [remapRequires]
    sees.  There the same case is fatal: [remapRequires] throws the error
    whose message is the word Module, the reference between double quotes
    and the words not found, for the first match its callback refuses,
    which is this one when the matches before it are accepted.  And
    [bundle] returns no text when such a match is in the content of the
    entry file, or in the content of a file that the entry file reaches
    (on an object whose registry was empty): once the extraction has
    returned its list, what [bundle] throws is an error with such a
    message. *)
Theorem unresolved_skipped_then_fatal this :
  (∀ depth text vs1 v vs2 w,
     match_texts text = vs1 ++ v :: vs2 →
     resolves_to this (reference_of v) = None →
     result (LuaBundle.getRequires (S depth) this text) w
     = result (forEachM (LuaBundle.visit (LuaBundle.getRequires depth this)
                           (spread_room depth) this) (vs1 ++ vs2) []) w) ∧
  (∀ depth text w requiredFiles r,
     result (LuaBundle.getRequires depth this text) w = Val requiredFiles →
     resolves_to this r = None → r ∉ requiredFiles.*1) ∧
  (∀ s m, match_at false s = Some m → reference_of (m_text m) = m_group m) ∧
  (∀ value w before pre m after,
     (exec_all false value).1 = before ++ (pre, m) :: after →
     resolves_to this (m_group m) = None →
     (∃ x, x ∈ before ++ [(pre, m)] ∧
        result (LuaBundle.remapRequires this value) w
        = Throw (JsError ("Module " +:+ DQ +:+ m_group x.2 +:+ DQ +:+ " not found"))) ∧
     (Forall (λ x, ∃ r, result (LuaBundle.remap_call this (m_group x.2)) w = Val r)
             before →
      result (LuaBundle.remapRequires this value) w
      = Throw (JsError ("Module " +:+ DQ +:+ m_group m +:+ DQ +:+ " not found")))) ∧
  (∀ main depth w pre m,
     fs !! LuaBundle.mainFile this = Some (File main) →
     (pre, m) ∈ (exec_all false main).1 →
     resolves_to this (m_group m) = None →
     (∀ out, result (LuaBundle.bundle depth this) w ≠ Val out) ∧
     (∀ requiredFiles,
        result (LuaBundle.getRequires depth this main) w = Val requiredFiles →
        ∃ value, result (LuaBundle.bundle depth this) w
                 = Throw (JsError ("Module " +:+ DQ +:+ value +:+ DQ +:+ " not found")))) ∧
  (∀ main depth w p content pre m,
     LuaBundle.modules this = [] →
     fs !! LuaBundle.mainFile this = Some (File main) →
     reachable this main p → fs !! p = Some (File content) →
     (pre, m) ∈ (exec_all false content).1 →
     resolves_to this (m_group m) = None →
     (∀ out, result (LuaBundle.bundle depth this) w ≠ Val out) ∧
     (∀ requiredFiles,
        result (LuaBundle.getRequires depth this main) w = Val requiredFiles →
        ∃ value, result (LuaBundle.bundle depth this) w
                 = Throw (JsError ("Module " +:+ DQ +:+ value +:+ DQ +:+ " not found")))).
Proof.
  assert (∀ this value w before pre m after,
     (exec_all false value).1 = before ++ (pre, m) :: after →
     resolves_to this (m_group m) = None →
     ∃ x, x ∈ before ++ [(pre, m)] ∧
        result (LuaBundle.remapRequires this value) w
        = Throw (LuaBundle.not_found (m_group x.2))) as Hfatal.
  { intros this0 value w before pre m after Hfound Hm.
    destruct (replace_loop_failure this0 before pre m w Hm) as (x & Hx & Hfail).
    exists x. split; [done|]. by rewrite remapRequires_result, Hfound, Hfail. }
  assert (∀ main depth w,
     fs !! LuaBundle.mainFile this = Some (File main) →
     (∀ out, result (LuaBundle.bundle depth this) w ≠ Val out) →
     ∀ reqs, result (LuaBundle.getRequires depth this main) w = Val reqs →
       ∃ value, result (LuaBundle.bundle depth this) w
                = Throw (LuaBundle.not_found value)) as Hnamed.
  { intros main depth w Hmain Hnone reqs Hreqs.
    destruct (result (LuaBundle.bundle depth this) w) as [out|e|] eqn:Hres.
    - by destruct (Hnone out).
    - destruct (bundle_after_extraction _ _ _ _ _ _ Hmain Hreqs Hres) as [value ->].
      by exists value.
    - exfalso. eapply (returns_bundle depth this); [|done].
      intros main' Hmain' w'. simplify_eq.
      rewrite (oblivious_result _ w' w) by apply oblivious_getRequires.
      by rewrite Hreqs. }
  assert (∀ this' value w pre m,
     LuaBundle.baseDir this' = LuaBundle.baseDir this →
     (pre, m) ∈ (exec_all false value).1 →
     resolves_to this (m_group m) = None →
     ∀ out, result (LuaBundle.remapRequires this' value) w ≠ Val out) as Hrefused.
  { intros this' value w pre m Hbase Hin Hm out Hout.
    apply list_elem_of_split in Hin as (before & after & Hfound).
    destruct (Hfatal this' value w before pre m after Hfound) as (x & _ & Hthrow);
      [|congruence].
    rewrite <-Hm. by apply resolves_to_baseDir. }
  split_and!.
  - intros depth text vs1 v vs2 w Hvs Hv.
    rewrite getRequires_unfold, Hvs. by apply visit_loop_skip.
  - intros depth text w reqs r Hreqs Hr ([r' p] & -> & Hin)%list_elem_of_fmap.
    pose proof (getRequires_pairs_resolve _ _ _ _ _ Hreqs _ _ Hin). simpl in *.
    congruence.
  - apply reference_of_match_text.
  - intros value w before pre m after Hfound Hm. split; [by eapply Hfatal|].
    intros Hbefore.
    by rewrite remapRequires_result, Hfound, replace_loop_first_failure.
  - intros main depth w pre m Hmain Hin Hm.
    assert (∀ out, result (LuaBundle.bundle depth this) w ≠ Val out) as Hnone.
    { intros [this' text] Hval.
      destruct (LuaBundle.bundle depth this w) as [r w'] eqn:Hrun.
      unfold result in Hval. rewrite Hrun in Hval. simpl in Hval. subst r.
      apply bundle_val_inv in Hrun
        as (main' & reqs & w1 & w2 & wrapped & w3 & mainBody & Hmain' & _ & Hreg & _ &
            Hbody & _).
      simplify_eq.
      eapply (Hrefused this' main w3 pre m); [by eapply register_loop_baseDir|done..|].
      unfold result. by rewrite Hbody. }
    split; [done|]. by eapply Hnamed.
  - intros main depth w p content pre m Hnil Hmain Hreach Hfile Hin Hm.
    assert (∀ out, result (LuaBundle.bundle depth this) w ≠ Val out) as Hnone.
    { intros [this' text] Hval.
      destruct (LuaBundle.bundle depth this w) as [r w'] eqn:Hrun.
      unfold result in Hval. rewrite Hrun in Hval. simpl in Hval. subst r.
      apply bundle_val_inv in Hrun
        as (main' & reqs & w1 & w2 & wrapped & w3 & mainBody & Hmain' & Hget & Hreg &
            Hwrap & _ & _).
      simplify_eq.
      destruct (reachable_registered depth this main _ reqs _ _ _ p content Hnil
                  ltac:(unfold result; by rewrite Hget) Hreg Hreach Hfile)
        as (module & Hmodule & _ & Hcontent).
      apply wrap_modules_val in Hwrap as (bodies & Hbodies & _).
      apply list_elem_of_lookup in Hmodule as [i Hi].
      destruct (Forall2_lookup_l _ _ _ _ _ Hbodies Hi) as (body & _ & Hbody).
      eapply (Hrefused this' content initial_world pre m);
        [by eapply register_loop_baseDir|done..|].
      rewrite <-Hcontent. apply Hbody. }
    split; [done|]. by eapply Hnamed.
Qed.

(** ** Stretches of text without a quoted call *)

Lemma quoted_call_free_in_cons ic c a b :
  quoted_call_free_in ic (String c a) b
  = negb (quoted_call_at ic (String c a +:+ b)) && quoted_call_free_in ic a b.
Proof. reflexivity. Qed.


Lemma quoted_call_free_whole ic s :
  quoted_call_free ic s = true → quoted_call_free_in ic s "" = true.
Proof.
  induction s as [|c s IH]; [done|].
  rewrite quoted_call_free_unfold, quoted_call_free_in_cons, str_app_nil_r.
  intros [-> Hs]%andb_true_iff. by apply IH.
Qed.






(** ** The expression stays on its line *)


















End properties.

(** * Concrete runs *)

(** The identifiers of the concrete projects never repeat. *)
Lemma nth_id_inj : Inj (=) (=) Demo.nth_id.
Proof.
  intros n m Heq. unfold Demo.nth_id in Heq.
  apply (inj (String.app "id-")) in Heq. by apply (inj pretty) in Heq.
Defined.

(** The run of the two-leaves project gives the expected text. *)
Lemma two_leaves_bundle :
  result (LuaBundle.bundle (rt := Demo.two_leaves) 2 Demo.fresh) initial_world
  = Val (LuaBundle.set_modules Demo.fresh Demo.two_leaves_modules, Demo.two_leaves_text).
Proof. vm_compute. reflexivity. Qed.

(** C1 on the two-leaves project: the call returns the expected text, which
    has the shape of the theorem. *)
Lemma bundle_text_shape_witness :
  ∃ this' text w',
    LuaBundle.bundle (rt := Demo.two_leaves) 2 Demo.fresh initial_world
    = (Val (this', text), w') ∧
    text = Demo.two_leaves_text ∧
    ∃ main bodies mainBody,
      fs (Runtime := Demo.two_leaves) !! LuaBundle.mainFile Demo.fresh = Some (File main) ∧
      Forall2 (λ module body, ∀ w0,
                 result (LuaBundle.remapRequires (rt := Demo.two_leaves) this'
                           (LuaModule.content module)) w0 = Val body)
              (LuaBundle.modules this') bodies ∧
      (∀ w0, result (LuaBundle.remapRequires (rt := Demo.two_leaves) this' main) w0
             = Val mainBody) ∧
      text =
        (NL +:+ "local modules = {}" +:+ NL +:+
         "local require = function(name)" +:+ NL +:+
         "  return modules[name]()" +:+ NL +:+
         "end" +:+ NL) +:+
        String.concat NL
          (zip_with (λ module body,
                       "modules[" +:+ DQ +:+ LuaModule.uniqueIdentifier module +:+ DQ +:+
                       "] = function()" +:+ NL +:+ body +:+ NL +:+ "end")
                    (LuaBundle.modules this') bodies) +:+
        NL +:+ mainBody +:+ NL.
Proof.
  eexists _, _, _. split; [vm_compute; reflexivity|]. split; [vm_compute; reflexivity|].
  eapply (bundle_text_shape (rt := Demo.two_leaves) 2 Demo.fresh initial_world).
  vm_compute. reflexivity.
Defined.

(** C2 on the two-leaves project: the registry is [x] then [y]. *)
Lemma modules_one_per_reference_witness :
  ∃ this' text w',
    LuaBundle.bundle (rt := Demo.two_leaves) 2 Demo.fresh initial_world
    = (Val (this', text), w') ∧
    LuaModule.identifier <$> LuaBundle.modules this' = ["x"; "y"].
Proof.
  eexists _, _, _. split; [vm_compute; reflexivity|].
  destruct (modules_one_per_reference (rt := Demo.two_leaves) 2 Demo.fresh
              initial_world _ _ _ eq_refl ltac:(vm_compute; reflexivity))
    as (main & reqs & Hmain & _ & _ & _ & _ & Hxy).
  vm_compute in Hmain. injection Hmain as <-.
  apply (Hxy ("require(" +:+ Demo.quoted "x" +:+ ")") "require('y')"
             "/w/tlp/x.lua" "/w/tlp/y.luau" "return 1" "return 2");
    vm_compute; (reflexivity || discriminate).
Defined.

(** C3 on the two-leaves project: [y] has no [.lua] file and resolves to
    its [.luau] file under the base directory, after both probes. *)
Lemma resolveRequire_probes_lua_then_luau_witness :
  resolve (Runtime := Demo.two_leaves) (LuaBundle.baseDir Demo.fresh :: split_dot "y")
    +:+ ".luau" = ("/w/tlp" +:+ "/" +:+ "y") +:+ ".luau" ∧
  LuaBundle.resolveRequire (rt := Demo.two_leaves) Demo.fresh "y" initial_world
  = (Val (Some "/w/tlp/y.luau"),
     extend initial_world [EvExists "/w/tlp/y.lua"; EvExists "/w/tlp/y.luau"]).
Proof.
  destruct (resolveRequire_probes_lua_then_luau
              (rt := Demo.two_leaves) Demo.fresh "y" initial_world)
    as (_ & Hunder & _ & Hsecond & _).
  split.
  - apply (Hunder "/w" eq_refl).
    + by exists "w".
    + repeat constructor; [discriminate|]. vm_compute.
      intros Hin. by repeat (apply elem_of_cons in Hin as [?|Hin]; [done|]);
        apply elem_of_nil in Hin.
    + vm_compute. discriminate.
  - apply Hsecond.
    + vm_compute. reflexivity.
    + vm_compute. eexists. reflexivity.
Defined.

(** C5 on the two-leaves project, with an entry path that does not exist. *)
Lemma constructor_fails_fast_witness :
  fs (Runtime := Demo.two_leaves) !! "tlp/missing.lua" = None ∧
  LuaBundle.constructor (rt := Demo.two_leaves) "tlp/missing.lua" (Some "tlp") initial_world
  = (Throw (JsError "Main file does not exist"),
     extend initial_world [EvExists "tlp/missing.lua"]).
Proof.
  split; [vm_compute; reflexivity|].
  apply (constructor_fails_fast (rt := Demo.two_leaves)). vm_compute. reflexivity.
Defined.

(** The two-leaves project has no cycle. *)
Lemma two_leaves_acyclic :
  acyclic_from (rt := Demo.two_leaves) Demo.fresh Demo.two_leaves_main.
Proof.
  apply (ranked_acyclic (rt := Demo.two_leaves) Demo.fresh Demo.entry_rank).
  apply ranked_by_entries. vm_compute. reflexivity.
Defined.

(** C6 on the two-leaves project, which has three entries and no cycle:
    some depth is enough, and depth 4 is. *)
Lemma acyclic_requires_terminate_witness :
  (∃ depth0, ∀ depth, depth0 ≤ depth →
     returns (LuaBundle.getRequires (rt := Demo.two_leaves) depth Demo.fresh
                Demo.two_leaves_main) ∧
     (fs (Runtime := Demo.two_leaves) !! LuaBundle.mainFile Demo.fresh
      = Some (File Demo.two_leaves_main) →
      returns (LuaBundle.bundle (rt := Demo.two_leaves) depth Demo.fresh))) ∧
  returns (LuaBundle.getRequires (rt := Demo.two_leaves) 4 Demo.fresh Demo.two_leaves_main) ∧
  (fs (Runtime := Demo.two_leaves) !! LuaBundle.mainFile Demo.fresh
   = Some (File Demo.two_leaves_main) →
   returns (LuaBundle.bundle (rt := Demo.two_leaves) 4 Demo.fresh)).
Proof.
  destruct (acyclic_requires_terminate (rt := Demo.two_leaves) Demo.fresh
              Demo.two_leaves_main two_leaves_acyclic) as [Hsome Hbound].
  split; [exact Hsome|]. apply (Hbound 4).
  - vm_compute. lia.
  - intros p content reqs _. revert p content reqs.
    apply (spread_fits_by_entries (rt := Demo.two_leaves) Demo.fresh 4).
    vm_compute. reflexivity.
Defined.

(** Acyclicity is needed: on a file that requires itself the stack is
    exhausted at every depth. *)
Lemma cycle_exhausts_stack depth w :
  result (LuaBundle.getRequires (rt := Demo.cycle) depth Demo.fresh "require('a')") w
  = Overflow.
Proof.
  induction depth as [|depth IH]; [done|].
  rewrite (getRequires_unfold (rt := Demo.cycle)).
  assert (match_texts "require('a')" = ["require('a')"]) as -> by (vm_compute; reflexivity).
  rewrite (getRequires_step (rt := Demo.cycle)).
  assert (resolves_to (rt := Demo.cycle) Demo.fresh (reference_of "require('a')")
          = Some "/w/tlp/a.lua") as -> by (vm_compute; reflexivity).
  assert (fs (Runtime := Demo.cycle) !! "/w/tlp/a.lua" = Some (File "require('a')"))
    as -> by (vm_compute; reflexivity).
  by rewrite IH.
Qed.

(** C9 on the two-leaves project, started on the new object. *)
Lemma uniqueIdentifiers_distinct_witness :
  (∀ registered this' w',
     forEachM (LuaBundle.register (rt := Demo.two_leaves)) registered Demo.fresh initial_world
     = (Val this', w') →
     NoDup (LuaModule.uniqueIdentifier <$> LuaBundle.modules this')) ∧
  (∀ depth this' text w',
     LuaBundle.bundle (rt := Demo.two_leaves) depth Demo.fresh initial_world
     = (Val (this', text), w') →
     NoDup (LuaModule.uniqueIdentifier <$> LuaBundle.modules this')).
Proof.
  apply (uniqueIdentifiers_distinct (rt := Demo.two_leaves)).
  - apply nth_id_inj.
  - exists []. split; [reflexivity|]. split; [constructor|].
    intros n Hn. by apply elem_of_nil in Hn.
Defined.

(** C4 on an entry file whose only require resolves to nothing, and on an
    entry file that requires a file with such a require: the extraction
    returns its list without it, [remapRequires] throws the error that
    names the reference, and [bundle] returns no text and throws an error
    of that kind. *)
Lemma unresolved_skipped_then_fatal_witness :
  result (LuaBundle.getRequires (rt := Demo.unresolved) 1 Demo.fresh Demo.unresolved_main)
         initial_world = Val [] ∧
  result (LuaBundle.remapRequires (rt := Demo.unresolved) Demo.fresh Demo.unresolved_main)
         initial_world
  = Throw (JsError ("Module " +:+ DQ +:+ "nope" +:+ DQ +:+ " not found")) ∧
  ((∀ out, result (LuaBundle.bundle (rt := Demo.unresolved) 2 Demo.fresh) initial_world
           ≠ Val out) ∧
   ∃ value, result (LuaBundle.bundle (rt := Demo.unresolved) 2 Demo.fresh) initial_world
            = Throw (JsError ("Module " +:+ DQ +:+ value +:+ DQ +:+ " not found"))) ∧
  ((∀ out, result (LuaBundle.bundle (rt := Demo.unresolved_in_module) 3 Demo.fresh)
             initial_world ≠ Val out) ∧
   ∃ value, result (LuaBundle.bundle (rt := Demo.unresolved_in_module) 3 Demo.fresh)
              initial_world
            = Throw (JsError ("Module " +:+ DQ +:+ value +:+ DQ +:+ " not found"))).
Proof.
  destruct (unresolved_skipped_then_fatal (rt := Demo.unresolved) Demo.fresh)
    as (Hskip & _ & _ & Hremap & Hbundle & _).
  destruct (unresolved_skipped_then_fatal (rt := Demo.unresolved_in_module) Demo.fresh)
    as (_ & _ & _ & _ & _ & Hmodule).
  split; [|split; [|split]].
  - rewrite (Hskip 0 Demo.unresolved_main [] ("require(" +:+ Demo.quoted "nope" +:+ ")") []);
      vm_compute; reflexivity.
  - apply (Hremap Demo.unresolved_main initial_world [] "local n = "
             {| m_text := "require(" +:+ Demo.quoted "nope" +:+ ")";
                m_group := "nope"; m_rest := "" |} []).
    + vm_compute. reflexivity.
    + vm_compute. reflexivity.
    + constructor.
  - pose proof (Hbundle Demo.unresolved_main 2 initial_world "local n = "
                  {| m_text := "require(" +:+ Demo.quoted "nope" +:+ ")";
                     m_group := "nope"; m_rest := "" |}
                  ltac:(vm_compute; reflexivity) ltac:(vm_compute; left)
                  ltac:(vm_compute; reflexivity)) as [Hnone Hnamed].
    split; [exact Hnone|]. apply (Hnamed []). vm_compute. reflexivity.
  - pose proof (Hmodule "require('a')" 3 initial_world "/w/tlp/a.lua"
                  Demo.unresolved_main "local n = "
                  {| m_text := "require(" +:+ Demo.quoted "nope" +:+ ")";
                     m_group := "nope"; m_rest := "" |}
                  eq_refl ltac:(vm_compute; reflexivity)
                  ltac:(exists "/w/tlp/a.lua"; split; [vm_compute; left|constructor])
                  ltac:(vm_compute; reflexivity) ltac:(vm_compute; left)
                  ltac:(vm_compute; reflexivity)) as [Hnone Hnamed].
    split; [exact Hnone|]. apply (Hnamed [("a", "/w/tlp/a.lua")]).
    vm_compute. reflexivity.
Defined.




(** C8, as stated, fails: the call site is written with single quotes and
    is rewritten with double quotes. *)
Lemma single_quotes_are_not_kept :
  result (LuaBundle.remapRequires (rt := Demo.two_leaves)
            (LuaBundle.set_modules Demo.fresh Demo.two_leaves_modules)
            "local y = require('y')") initial_world
  = Val ("local y = require(" +:+ DQ +:+ "id-1" +:+ DQ +:+ ")") ∧
  "local y = require(" +:+ DQ +:+ "id-1" +:+ DQ +:+ ")" ≠ "local y = require('id-1')".
Proof. split; [vm_compute; reflexivity|]. vm_compute. discriminate. Qed.

(** C8 (amended) on the entry file of the two-leaves project. *)
Lemma remapRequires_rewrites_call_sites_witness :
  ∃ found tail hits,
    exec_all false Demo.two_leaves_main = (found, tail) ∧
    Demo.two_leaves_main = String.concat "" ((λ x, x.1 +:+ m_text x.2) <$> found) +:+ tail ∧
    ("local x = require(" +:+ DQ +:+ "id-0" +:+ DQ +:+ ")" +:+ NL +:+
     "local y = require(" +:+ DQ +:+ "id-1" +:+ DQ +:+ ")")
    = String.concat ""
        (zip_with (λ x module,
                     x.1 +:+ "require(" +:+ DQ +:+
                     LuaModule.uniqueIdentifier module +:+ DQ +:+ ")")
                  found hits) +:+ tail ∧
    Forall2 (λ x module,
               (∃ q q', is_quote q = true ∧ is_quote q' = true ∧
                  m_text x.2 = "require(" +:+ String q (m_group x.2) +:+ String q' ")") ∧
               resolves_to (rt := Demo.two_leaves)
                 (LuaBundle.set_modules Demo.fresh Demo.two_leaves_modules) (m_group x.2)
               = Some (LuaModule.path module) ∧
               find (λ mod_, bool_decide (LuaModule.path mod_ = LuaModule.path module))
                    Demo.two_leaves_modules = Some module)
            found hits.
Proof.
  apply (remapRequires_rewrites_call_sites (rt := Demo.two_leaves)
           (LuaBundle.set_modules Demo.fresh Demo.two_leaves_modules)
           Demo.two_leaves_main initial_world).
  vm_compute. reflexivity.
Defined.

(** ** Runs for the further properties *)

(** X1 on the two-leaves project: the list of the entry file is the
    pre-order list of its two matches. *)
Lemma getRequires_preorder_witness :
  extracted (rt := Demo.two_leaves) Demo.fresh (match_texts Demo.two_leaves_main)
    [("x", "/w/tlp/x.lua"); ("y", "/w/tlp/y.luau")].
Proof.
  apply (getRequires_preorder (rt := Demo.two_leaves) Demo.fresh Demo.two_leaves_main
           initial_world).
  exists 2. vm_compute. reflexivity.
Defined.

(** X2 on the two-leaves project, for the pair of [y]. *)
Lemma getRequires_lists_resolved_files_witness :
  resolves_to (rt := Demo.two_leaves) Demo.fresh "y" = Some "/w/tlp/y.luau" ∧
  (∃ content, fs (Runtime := Demo.two_leaves) !! "/w/tlp/y.luau" = Some (File content)) ∧
  reachable (rt := Demo.two_leaves) Demo.fresh Demo.two_leaves_main "/w/tlp/y.luau".
Proof.
  apply (getRequires_lists_resolved_files (rt := Demo.two_leaves) 2 Demo.fresh
           Demo.two_leaves_main initial_world
           [("x", "/w/tlp/x.lua"); ("y", "/w/tlp/y.luau")]).
  - vm_compute. reflexivity.
  - right. left.
Defined.

(** X3 on the two-leaves project. *)
Lemma getRequires_closed_witness :
  (∀ v p, v ∈ match_texts Demo.two_leaves_main →
          resolves_to (rt := Demo.two_leaves) Demo.fresh (reference_of v) = Some p →
          (reference_of v, p) ∈ [("x", "/w/tlp/x.lua"); ("y", "/w/tlp/y.luau")]) ∧
  (∀ r p content v q,
     (r, p) ∈ [("x", "/w/tlp/x.lua"); ("y", "/w/tlp/y.luau")] →
     fs (Runtime := Demo.two_leaves) !! p = Some (File content) →
     v ∈ match_texts content →
     resolves_to (rt := Demo.two_leaves) Demo.fresh (reference_of v) = Some q →
     (reference_of v, q) ∈ [("x", "/w/tlp/x.lua"); ("y", "/w/tlp/y.luau")]).
Proof.
  apply (getRequires_closed (rt := Demo.two_leaves) 2 Demo.fresh Demo.two_leaves_main
           initial_world).
  vm_compute. reflexivity.
Defined.

(** X4 on the two-leaves project: depth 2 is enough, depth 7 gives the
    same. *)
Lemma getRequires_depth_independent_witness :
  result (LuaBundle.getRequires (rt := Demo.two_leaves) 7 Demo.fresh Demo.two_leaves_main)
         initial_world
  = result (LuaBundle.getRequires (rt := Demo.two_leaves) 2 Demo.fresh Demo.two_leaves_main)
           initial_world.
Proof.
  apply (getRequires_depth_independent (rt := Demo.two_leaves)).
  - vm_compute. discriminate.
  - lia.
Defined.

(** X5 on an entry file whose reference resolves to a directory. *)
Lemma getRequires_throws_for_directories_witness :
  result (LuaBundle.getRequires (rt := Demo.module_directory) 1 Demo.fresh "require('d')")
         initial_world
  = Throw (FsError "/w/tlp/d.lua").
Proof.
  apply (proj2 (getRequires_throws_for_directories (rt := Demo.module_directory)
                  Demo.fresh "require('d')")
               0 initial_world [] "require('d')" [] "/w/tlp/d.lua").
  - vm_compute. reflexivity.
  - constructor.
  - vm_compute. reflexivity.
  - vm_compute. reflexivity.
Defined.

(** X6 on the entry file of the two-leaves project. *)
Lemma passes_agree_in_lower_case_witness :
  match_texts Demo.two_leaves_main
  = (m_text ∘ snd) <$> (exec_all false Demo.two_leaves_main).1 ∧
  reference_of <$> match_texts Demo.two_leaves_main
  = (m_group ∘ snd) <$> (exec_all false Demo.two_leaves_main).1.
Proof. apply passes_agree_in_lower_case. vm_compute. reflexivity. Defined.

(** X7 on the entry file of the two-leaves project and its registry. *)
Lemma remapRequires_returns_iff_witness :
  Forall (λ x, ∃ p module,
            resolves_to (rt := Demo.two_leaves)
              (LuaBundle.set_modules Demo.fresh Demo.two_leaves_modules) (m_group x.2)
            = Some p ∧
            module ∈ Demo.two_leaves_modules ∧ LuaModule.path module = p)
         (exec_all false Demo.two_leaves_main).1.
Proof.
  apply (remapRequires_returns_iff (rt := Demo.two_leaves)
           (LuaBundle.set_modules Demo.fresh Demo.two_leaves_modules)
           Demo.two_leaves_main initial_world).
  eexists. vm_compute. reflexivity.
Defined.

(** X8 on the two-leaves project. *)
Lemma bundle_appends_modules_witness :
  ∃ this' text w',
    LuaBundle.bundle (rt := Demo.two_leaves) 2 Demo.fresh initial_world
    = (Val (this', text), w') ∧
    ∃ new,
      LuaBundle.modules this' = LuaBundle.modules Demo.fresh ++ new ∧
      LuaBundle.mainFile this' = LuaBundle.mainFile Demo.fresh ∧
      LuaBundle.baseDir this' = LuaBundle.baseDir Demo.fresh ∧
      minted w' = minted initial_world + length new ∧
      LuaModule.uniqueIdentifier <$> new
      = uuid (Runtime := Demo.two_leaves) <$> seq (minted initial_world) (length new) ∧
      Forall (λ m, fs (Runtime := Demo.two_leaves) !! LuaModule.path m
                   = Some (File (LuaModule.content m))) new.
Proof.
  eexists _, _, _. split; [vm_compute; reflexivity|].
  eapply (bundle_appends_modules (rt := Demo.two_leaves) 2 Demo.fresh initial_world).
  vm_compute. reflexivity.
Defined.

(** X9 on the two-leaves project: the second call gives the text of the
    first. *)
Lemma bundle_again_witness :
  ∃ evs,
    LuaBundle.bundle (rt := Demo.two_leaves) 2
      (LuaBundle.set_modules Demo.fresh Demo.two_leaves_modules) initial_world
    = (Val (LuaBundle.set_modules Demo.fresh Demo.two_leaves_modules, Demo.two_leaves_text),
       extend initial_world evs).
Proof.
  eapply (bundle_again (rt := Demo.two_leaves) 2 Demo.fresh initial_world).
  vm_compute. reflexivity.
Defined.

(** X10 on the two-leaves project, which is in good order. *)
Lemma bundle_returns_in_good_order_witness :
  ∃ this' text w',
    LuaBundle.bundle (rt := Demo.two_leaves) 4 Demo.fresh initial_world
    = (Val (this', text), w').
Proof.
  apply (bundle_returns_in_good_order (rt := Demo.two_leaves) 4 Demo.fresh
           Demo.two_leaves_main initial_world).
  - reflexivity.
  - vm_compute. reflexivity.
  - apply two_leaves_acyclic.
  - vm_compute. reflexivity.
  - intros p content _. revert p content.
    apply (well_formed_by_entries (rt := Demo.two_leaves)). vm_compute. reflexivity.
  - vm_compute. lia.
  - intros p content reqs _. revert p content reqs.
    apply (spread_fits_by_entries (rt := Demo.two_leaves) Demo.fresh 4).
    vm_compute. reflexivity.
Defined.

(** X11 on the two-leaves project, with the arguments of the script. *)
Lemma constructor_accepts_what_exists_witness :
  ∃ this,
    LuaBundle.constructor (rt := Demo.two_leaves) "tlp/main.lua" (Some "tlp") initial_world
    = (Val this, extend initial_world [EvExists "tlp/main.lua"]) ∧
    LuaBundle.modules this = [] ∧
    LuaBundle.mainFile this = "tlp/main.lua" ∧
    LuaBundle.baseDir this ≠ "" ∧
    (∀ d, Some "tlp" = Some d → d ≠ "" → LuaBundle.baseDir this = d) ∧
    (Some "tlp" = None ∨ Some "tlp" = Some "" → LuaBundle.baseDir this = "./").
Proof.
  apply (constructor_accepts_what_exists (rt := Demo.two_leaves)).
  vm_compute. eexists. reflexivity.
Defined.

(** X12 on an entry path that names a directory. *)
Lemma bundle_unreadable_entry_witness :
  ∃ this,
    LuaBundle.constructor (rt := Demo.entry_directory) "tlp/main.lua" (Some "tlp")
      initial_world
    = (Val this, extend initial_world [EvExists "tlp/main.lua"]) ∧
    ∀ depth w1,
      LuaBundle.bundle (rt := Demo.entry_directory) depth this w1
      = (Throw (FsError "tlp/main.lua"), extend w1 [EvRead "tlp/main.lua"]).
Proof.
  apply (proj2 (bundle_unreadable_entry (rt := Demo.entry_directory))).
  vm_compute. reflexivity.
Defined.


(** X14 on the entry file of the two-leaves project, with the [i] flag. *)
Lemma exec_leftmost_shortest_witness :
  ∃ pre m,
    exec true Demo.two_leaves_main = Some (pre, m) ∧
    Demo.two_leaves_main = pre +:+ m_text m +:+ m_rest m ∧
    (∀ a b, pre = a +:+ b → b ≠ "" →
            match_at true (b +:+ m_text m +:+ m_rest m) = None) ∧
    11 ≤ String.length (m_text m) ∧
    Forall (λ c, is_line_terminator c = false) (list_ascii_of_string (m_group m)) ∧
    (∀ g1 c g2, m_group m = g1 +:+ String c (String rparen g2) → is_quote c = false).
Proof.
  eexists _, _. split; [vm_compute; reflexivity|].
  apply (exec_leftmost_shortest true Demo.two_leaves_main). vm_compute. reflexivity.
Defined.

(** X15 on the entry file of the two-leaves project, without the [i]
    flag. *)
Lemma exec_all_finds_every_match_witness :
  ∃ found tail,
    exec_all false Demo.two_leaves_main = (found, tail) ∧
    Demo.two_leaves_main = unmatch found tail ∧
    (∀ i x, found !! i = Some x →
            exec false (unmatch (drop i found) tail) = Some x ∧
            m_rest x.2 = unmatch (drop (S i) found) tail) ∧
    exec false tail = None ∧
    11 * length found + String.length tail ≤ String.length Demo.two_leaves_main.
Proof.
  eexists _, _. split; [vm_compute; reflexivity|].
  apply (exec_all_finds_every_match false Demo.two_leaves_main). vm_compute. reflexivity.
Defined.

(** X16 on the two-leaves project: the two files listed are read, in
    order. *)
Lemma getRequires_reads_what_it_lists_witness :
  ∃ w' evs,
    LuaBundle.getRequires (rt := Demo.two_leaves) 2 Demo.fresh Demo.two_leaves_main
      initial_world
    = (Val [("x", "/w/tlp/x.lua"); ("y", "/w/tlp/y.luau")], w') ∧
    trace w' = trace initial_world ++ evs ∧ minted w' = minted initial_world ∧
    reads evs = ["/w/tlp/x.lua"; "/w/tlp/y.luau"].
Proof.
  eexists.
  destruct (getRequires_reads_what_it_lists (rt := Demo.two_leaves) 2 Demo.fresh
              Demo.two_leaves_main initial_world
              [("x", "/w/tlp/x.lua"); ("y", "/w/tlp/y.luau")] _
              ltac:(vm_compute; reflexivity)) as (evs & Htrace & Hminted & Hreads).
  exists evs. split; [vm_compute; reflexivity|]. by split_and!.
Defined.

(** X17 on the two-leaves project: the entry file, the two files listed,
    the two files registered. *)
Lemma bundle_reads_entry_listed_registered_witness :
  ∃ this' text w' evs,
    LuaBundle.bundle (rt := Demo.two_leaves) 2 Demo.fresh initial_world
    = (Val (this', text), w') ∧
    trace w' = trace initial_world ++ evs ∧
    reads evs = ["tlp/main.lua"; "/w/tlp/x.lua"; "/w/tlp/y.luau";
                 "/w/tlp/x.lua"; "/w/tlp/y.luau"].
Proof.
  eexists _, _, _.
  destruct (bundle_reads_entry_listed_registered (rt := Demo.two_leaves) 2 Demo.fresh
              initial_world _ _ _ ltac:(vm_compute; reflexivity))
    as (main & reqs & new & evs & Hmain & Hreqs & Hnew & Htrace & Hreads).
  exists evs. split; [vm_compute; reflexivity|]. split; [exact Htrace|].
  rewrite Hreads. vm_compute in Hmain. injection Hmain as <-.
  specialize (Hreqs initial_world). vm_compute in Hreqs. injection Hreqs as <-.
  simpl in Hnew. subst new. reflexivity.
Defined.

(** X18 on an entry file whose only require resolves to nothing: the error
    is of the third kind. *)
Lemma bundle_throws_only_witness :
  ∃ e w',
    LuaBundle.bundle (rt := Demo.unresolved) 2 Demo.fresh initial_world = (Throw e, w') ∧
    e = LuaBundle.not_found "nope".
Proof.
  eexists _, _. split; [vm_compute; reflexivity|].
  destruct (bundle_throws_only (rt := Demo.unresolved) 2 Demo.fresh initial_world _ _
              ltac:(vm_compute; reflexivity))
    as [[Hentry _]|[(main & p & _ & Hdir & _)|(main & reqs & w1 & this' & w2 & text & x & _)]].
  - vm_compute in Hentry. discriminate.
  - vm_compute in Hdir. discriminate.
  - vm_compute. reflexivity.
Defined.

(** X19 on a call written in capital letters: it is matched, and it is
    looked up under its whole text. *)
Lemma capital_calls_looked_up_whole_witness :
  match_texts Demo.capital_main = [Demo.capital_site] ∧
  (∀ this w,
     result (LuaBundle.remapRequires (rt := Demo.variable) this Demo.capital_main) w
     = Val Demo.capital_main) ∧
  (∀ v, v ∈ match_texts Demo.capital_main → reference_of v = v).
Proof.
  split; [vm_compute; reflexivity|].
  apply (capital_calls_looked_up_whole (rt := Demo.variable)). vm_compute. reflexivity.
Defined.

(** The room for the lists is needed as well: of two projects without a
    cycle and with the same nesting, the one whose inner list has ten
    pairs exhausts, in the spread of that list, a stack on which the one
    whose inner list has two pairs returns; on a deeper stack it
    returns. *)
Lemma spread_exhausts_stack :
  acyclic_from (rt := Demo.listing 10) Demo.fresh "require('a')" ∧
  result (LuaBundle.getRequires (rt := Demo.listing 2) 3 Demo.fresh "require('a')")
         initial_world
  = Val [("a", "/w/tlp/a.lua"); ("b", "/w/tlp/b.lua"); ("b", "/w/tlp/b.lua")] ∧
  result (LuaBundle.getRequires (rt := Demo.listing 10) 3 Demo.fresh "require('a')")
         initial_world
  = Overflow ∧
  ∃ requiredFiles,
    result (LuaBundle.getRequires (rt := Demo.listing 10) 4 Demo.fresh "require('a')")
           initial_world
    = Val requiredFiles ∧
    length requiredFiles = 11.
Proof.
  split; [|split; [|split]].
  - apply (ranked_acyclic (rt := Demo.listing 10) Demo.fresh Demo.listing_rank).
    apply ranked_by_entries. vm_compute. reflexivity.
  - vm_compute. reflexivity.
  - vm_compute. reflexivity.
  - eexists. split; vm_compute; reflexivity.
Qed.

(** C3, as stated, fails: a reference that begins with a slash, or with an
    empty segment before a slash, is not joined under the base directory;
    [path.resolve] starts again at the root, the file found there is the
    one returned, and [bundle] takes it into the text. *)
Lemma references_escape_baseDir :
  Posix.resolve "/w" [LuaBundle.baseDir Demo.fresh] = "/w/tlp" ∧
  split_dot "/etc/secret" = ["/etc/secret"] ∧
  result (LuaBundle.resolveRequire (rt := Demo.outside) Demo.fresh "/etc/secret")
         initial_world
  = Val (Some "/etc/secret.lua") ∧
  "/etc/secret.lua"
  ≠ ("/w/tlp" +:+ "/" +:+ String.concat "/" (split_dot "/etc/secret")) +:+ ".lua" ∧
  String.prefix "/w/tlp/" "/etc/secret.lua" = false ∧
  split_dot "./x" = [""; "/x"] ∧
  result (LuaBundle.resolveRequire (rt := Demo.outside) Demo.fresh "./x") initial_world
  = Val (Some "/x.lua") ∧
  String.prefix "/w/tlp/" "/x.lua" = false ∧
  ∃ this' text,
    result (LuaBundle.bundle (rt := Demo.outside) 2 Demo.fresh) initial_world
    = Val (this', text) ∧
    LuaModule.path <$> LuaBundle.modules this' = ["/etc/secret.lua"].
Proof.
  split_and!; try (vm_compute; reflexivity).
  - vm_compute. discriminate.
  - eexists _, _. split; vm_compute; reflexivity.
Qed.
